(** * edwards25519: scalar arithmetic modulo the group order and the curve group law

    A shallow embedding of the two Go source files of the repository
    (the scalar file with [Scalar], [scReduce], [nonAdjacentForm],
    [signedRadix16]; and [internal/edwards25519/edwards25519.go] with the
    point types and [ScalarMult]), followed by the properties proved about
    them.

    Conventions of the embedding
    - Go's fixed-width integers are integers of [Z] with the wrap-around
      written out ([int64], [int8], [uint64] below).
    - [[]byte], [[32]byte], [[64]byte] are [list byte]; the little-endian
      integer a byte string denotes is [le_combine].
    - A Go [panic] is the outcome [Panic]; an index outside an array or
      slice panics as in Go.
    - A method with a pointer receiver that the claims observe under
      aliasing takes locations of a heap and returns the new heap. *)

From Stdlib Require Import ZArith List Lia String Bool Field NsatzTactic Znumtheory.
From Stdlib Require Zmod.
From coqutil Require Import Byte Word.LittleEndianList Z.bitblast Z.prove_Zeq_bitwise.
Import ListNotations.
Local Open Scope Z_scope.

(* ================================================================= *)
(** ** Machine integers *)

(** Two's-complement wrap-around of a signed integer of [w] bits. *)
Definition wrapS (w x : Z) : Z := (x + 2 ^ (w - 1)) mod 2 ^ w - 2 ^ (w - 1).

Definition int64 (x : Z) : Z := wrapS 64 x.
Definition int8 (x : Z) : Z := wrapS 8 x.
Definition uint64 (x : Z) : Z := x mod 2 ^ 64.

Definition add64 (a b : Z) : Z := int64 (a + b).
Definition sub64 (a b : Z) : Z := int64 (a - b).
Definition mul64 (a b : Z) : Z := int64 (a * b).
Definition shl64 (a n : Z) : Z := int64 (Z.shiftl a n).
(** [>>] on a signed integer is the arithmetic shift: [Z.shiftr] rounds down. *)
Definition shr64 (a n : Z) : Z := Z.shiftr a n.

Definition add8 (a b : Z) : Z := int8 (a + b).
Definition sub8 (a b : Z) : Z := int8 (a - b).
Definition shl8 (a n : Z) : Z := int8 (Z.shiftl a n).
Definition shr8 (a n : Z) : Z := Z.shiftr a n.

(* ================================================================= *)
(** ** Outcomes, arrays and the heap *)

Inductive outcome (A : Type) : Type :=
| Ok (a : A)
| Panic (msg : string)
| OutOfFuel.
Arguments Ok {A} a.
Arguments Panic {A} msg.
Arguments OutOfFuel {A}.

Definition bind {A B : Type} (m : outcome A) (f : A -> outcome B) : outcome B :=
  match m with
  | Ok a => f a
  | Panic msg => Panic msg
  | OutOfFuel => OutOfFuel
  end.

Notation "x <- m ;; f" := (bind m (fun x => f))
  (at level 61, m at next level, right associativity).

(** Reading and writing an array element; Go panics outside the bounds. *)
Definition index_error : string := "runtime error: index out of range".

Definition get {A : Type} (a : list A) (i : Z) : outcome A :=
  if (0 <=? i) && (i <? Z.of_nat (length a))
  then match nth_error a (Z.to_nat i) with
       | Some x => Ok x
       | None => Panic index_error
       end
  else Panic index_error.

Fixpoint upd {A : Type} (i : nat) (v : A) (a : list A) : list A :=
  match a, i with
  | [], _ => []
  | _ :: t, O => v :: t
  | x :: t, S j => x :: upd j v t
  end.

Definition set {A : Type} (a : list A) (i : Z) (v : A) : outcome (list A) :=
  if (0 <=? i) && (i <? Z.of_nat (length a))
  then Ok (upd (Z.to_nat i) v a)
  else Panic index_error.

(** [copy(dst, src)]: the first [min (len dst) (len src)] elements of [dst]
    are overwritten. *)
Definition copy {A : Type} (dst src : list A) : list A :=
  firstn (length dst) src ++ skipn (length src) dst.

(** Locations and heaps of values of one type.  [new] returns a location
    that no earlier pointer names. *)
Definition ptr : Type := nat.

Record Heap (A : Type) : Type := mkHeap { next : nat; cell : nat -> A }.
Arguments mkHeap {A} next cell.
Arguments next {A} h.
Arguments cell {A} h p.

Definition load {A : Type} (p : ptr) (h : Heap A) : A := cell h p.

Definition store {A : Type} (p : ptr) (v : A) (h : Heap A) : Heap A :=
  mkHeap (next h) (fun q => if Nat.eqb q p then v else cell h q).

Definition new {A : Type} (zero : A) (h : Heap A) : ptr * Heap A :=
  (next h, mkHeap (S (next h)) (fun q => if Nat.eqb q (next h) then zero else cell h q)).

(* ================================================================= *)
(** ** The scalar field *)

(** The prime order of the edwards25519 group. *)
Definition l : Z := 2 ^ 252 + 27742317777372353535851937790883648493.

(** *** The Montgomery-domain primitives *)

(** Modelled from the spec: the [fiat_sc255_*] primitives are not among the
    source files.  Section 6 gives their contract: conversion to and from
    the canonical byte encoding, to and from the Montgomery domain, and
    add, sub, mul and negate on the fixed-width representation.  An
    element ([[4]uint64]) is modelled by the integer its four limbs denote;
    the Montgomery radix is [2^256]. *)
Definition fiat_R : Z := 2 ^ 256.

(** The inverse of [2^256] modulo [l]. *)
Definition fiat_Rinv : Z :=
  4458503529701987551646482192314240623644693141688353256590997718326214331684.

Definition limbs4 (x : list Z) : Z :=
  fold_right (fun a acc => a + 2 ^ 64 * acc) 0 x.

Definition fiat_sc255_from_bytes (b : list byte) : Z := le_combine b.
Definition fiat_sc255_to_bytes (x : Z) : list byte := le_split 32 x.
Definition fiat_sc255_to_montgomery (x : Z) : Z := (x * fiat_R) mod l.
Definition fiat_sc255_from_montgomery (x : Z) : Z := (x * fiat_Rinv) mod l.
Definition fiat_sc255_add (x y : Z) : Z := (x + y) mod l.
Definition fiat_sc255_sub (x y : Z) : Z := (x - y) mod l.
Definition fiat_sc255_opp (x : Z) : Z := (- x) mod l.
Definition fiat_sc255_mul (x y : Z) : Z := (x * y * fiat_Rinv) mod l.

(** *** The type *)

Record Scalar : Type := mkScalar { s : Z }.

Definition scZeroBytes : list byte := repeat Byte.x00 32.
Definition scOneBytes : list byte := Byte.x01 :: repeat Byte.x00 31.
Definition scMinusOneBytes : list byte :=
  map byte.of_Z
    [236; 211; 245; 92; 26; 99; 18; 88; 214; 156; 247; 162; 222; 249; 222; 20;
     0; 0; 0; 0; 0; 0; 0; 0; 0; 0; 0; 0; 0; 0; 0; 16].

Definition scOne : Scalar :=
  mkScalar (limbs4 [0xd6ec31748d98951d; 0xc6ef5bf4737dcf70; 0xfffffffffffffffe; 0xfffffffffffffff]).
Definition scMinusOne : Scalar :=
  mkScalar (limbs4 [0x812631a5cf5d3ed0; 0x4def9dea2f79cd65; 1; 0]).

(** The zero value of the type, which [NewScalar] returns. *)
Definition Scalar_zero : Scalar := mkScalar 0.

Definition NewScalar (h : Heap Scalar) : ptr * Heap Scalar := new Scalar_zero h.

(** *** Arithmetic: the receiver [sp] is written, the operands are read *)

Definition Scalar_Add (sp x y : ptr) (h : Heap Scalar) : ptr * Heap Scalar :=
  (sp, store sp (mkScalar (fiat_sc255_add (s (load x h)) (s (load y h)))) h).

Definition Scalar_Subtract (sp x y : ptr) (h : Heap Scalar) : ptr * Heap Scalar :=
  (sp, store sp (mkScalar (fiat_sc255_sub (s (load x h)) (s (load y h)))) h).

Definition Scalar_Negate (sp x : ptr) (h : Heap Scalar) : ptr * Heap Scalar :=
  (sp, store sp (mkScalar (fiat_sc255_opp (s (load x h)))) h).

Definition Scalar_Multiply (sp x y : ptr) (h : Heap Scalar) : ptr * Heap Scalar :=
  (sp, store sp (mkScalar (fiat_sc255_mul (s (load x h)) (s (load y h)))) h).

Definition Scalar_Set (sp x : ptr) (h : Heap Scalar) : ptr * Heap Scalar :=
  (sp, store sp (load x h) h).

(** [return s.Multiply(x, y).Add(s, z)] *)
Definition Scalar_MultiplyAdd (sp x y z : ptr) (h : Heap Scalar) : ptr * Heap Scalar :=
  let '(r, h1) := Scalar_Multiply sp x y h in
  Scalar_Add r sp z h1.

(** *** Encoding *)

Definition Scalar_bytes (x : Scalar) : list byte :=
  let limbs := fiat_sc255_from_montgomery (s x) in
  fiat_sc255_to_bytes limbs.

Definition Scalar_Bytes (x : Scalar) : list byte := Scalar_bytes x.

Definition list_byte_eqb (a b : list byte) : bool :=
  (length a =? length b)%nat && forallb (fun p => Byte.eqb (fst p) (snd p)) (combine a b).

(** [subtle.ConstantTimeCompare] *)
Definition ConstantTimeCompare (a b : list byte) : Z :=
  if list_byte_eqb a b then 1 else 0.

Definition Scalar_Equal (x t : Scalar) : Z :=
  let st := Scalar_Bytes t in
  let ss := Scalar_Bytes x in
  ConstantTimeCompare ss st.

(** *** The wide reduction *)

(** Indices into the fixed 64-byte array are constants inside its bounds. *)
Definition at_ (a : list byte) (i : nat) : Z := byte.unsigned (nth i a Byte.x00).

Definition load3 (a : list byte) : Z :=
  let r := at_ a 0 in
  let r := Z.lor r (shl64 (at_ a 1) 8) in
  let r := Z.lor r (shl64 (at_ a 2) 16) in
  r.

Definition load4 (a : list byte) : Z :=
  let r := at_ a 0 in
  let r := Z.lor r (shl64 (at_ a 1) 8) in
  let r := Z.lor r (shl64 (at_ a 2) 16) in
  let r := Z.lor r (shl64 (at_ a 3) 24) in
  r.

(** The 24 limbs [s0 .. s23] read from the input. *)
Definition scReduce_load (a : list byte) : list Z :=
  [ Z.land 2097151 (load3 a);
    Z.land 2097151 (shr64 (load4 (skipn 2 a)) 5);
    Z.land 2097151 (shr64 (load3 (skipn 5 a)) 2);
    Z.land 2097151 (shr64 (load4 (skipn 7 a)) 7);
    Z.land 2097151 (shr64 (load4 (skipn 10 a)) 4);
    Z.land 2097151 (shr64 (load3 (skipn 13 a)) 1);
    Z.land 2097151 (shr64 (load4 (skipn 15 a)) 6);
    Z.land 2097151 (shr64 (load3 (skipn 18 a)) 3);
    Z.land 2097151 (load3 (skipn 21 a));
    Z.land 2097151 (shr64 (load4 (skipn 23 a)) 5);
    Z.land 2097151 (shr64 (load3 (skipn 26 a)) 2);
    Z.land 2097151 (shr64 (load4 (skipn 28 a)) 7);
    Z.land 2097151 (shr64 (load4 (skipn 31 a)) 4);
    Z.land 2097151 (shr64 (load3 (skipn 34 a)) 1);
    Z.land 2097151 (shr64 (load4 (skipn 36 a)) 6);
    Z.land 2097151 (shr64 (load3 (skipn 39 a)) 3);
    Z.land 2097151 (load3 (skipn 42 a));
    Z.land 2097151 (shr64 (load4 (skipn 44 a)) 5);
    Z.land 2097151 (shr64 (load3 (skipn 47 a)) 2);
    Z.land 2097151 (shr64 (load4 (skipn 49 a)) 7);
    Z.land 2097151 (shr64 (load4 (skipn 52 a)) 4);
    Z.land 2097151 (shr64 (load3 (skipn 55 a)) 1);
    Z.land 2097151 (shr64 (load4 (skipn 57 a)) 6);
    shr64 (load4 (skipn 60 a)) 3 ].

(** [s_i += s_k * c] and [s_i -= s_k * c] on the vector of limbs. *)
Definition addmul (i k : nat) (c : Z) (S : list Z) : list Z :=
  upd i (add64 (nth i S 0) (mul64 (nth k S 0) c)) S.

Definition submul (i k : nat) (c : Z) (S : list Z) : list Z :=
  upd i (sub64 (nth i S 0) (mul64 (nth k S 0) c)) S.

(** One block of the source that eliminates limb [k]:
<<
    s_{k-12} += s_k * 666643
    s_{k-11} += s_k * 470296
    s_{k-10} += s_k * 654183
    s_{k-9}  -= s_k * 997805
    s_{k-8}  += s_k * 136657
    s_{k-7}  -= s_k * 683901
    s_k = 0
>> *)
Definition fold_limb (k : nat) (S : list Z) : list Z :=
  let S := addmul (k - 12) k 666643 S in
  let S := addmul (k - 11) k 470296 S in
  let S := addmul (k - 10) k 654183 S in
  let S := submul (k - 9) k 997805 S in
  let S := addmul (k - 8) k 136657 S in
  let S := submul (k - 7) k 683901 S in
  upd k 0 S.

(** [carry[i] = (s_i + (1 << 20)) >> 21; s_{i+1} += carry[i]; s_i -= carry[i] << 21] *)
Definition carry_round (i : nat) (S : list Z) : list Z :=
  let carry := shr64 (add64 (nth i S 0) (shl64 1 20)) 21 in
  let S := upd (i + 1) (add64 (nth (i + 1) S 0) carry) S in
  upd i (sub64 (nth i S 0) (shl64 carry 21)) S.

(** [carry[i] = s_i >> 21; s_{i+1} += carry[i]; s_i -= carry[i] << 21] *)
Definition carry_floor (i : nat) (S : list Z) : list Z :=
  let carry := shr64 (nth i S 0) 21 in
  let S := upd (i + 1) (add64 (nth (i + 1) S 0) carry) S in
  upd i (sub64 (nth i S 0) (shl64 carry 21)) S.

Inductive step : Type :=
| Fold (k : nat)
| CarryRound (i : nat)
| CarryFloor (i : nat).

Definition exec (o : step) (S : list Z) : list Z :=
  match o with
  | Fold k => fold_limb k S
  | CarryRound i => carry_round i S
  | CarryFloor i => carry_floor i S
  end.

Definition run (p : list step) (S : list Z) : list Z :=
  fold_left (fun S o => exec o S) p S.

(** The body of [scReduce] between the loads and the stores, block by
    block in the order of the source. *)
Definition scReduce_steps : list step :=
  [ Fold 23; Fold 22; Fold 21; Fold 20; Fold 19; Fold 18;
    CarryRound 6; CarryRound 8; CarryRound 10; CarryRound 12; CarryRound 14; CarryRound 16;
    CarryRound 7; CarryRound 9; CarryRound 11; CarryRound 13; CarryRound 15;
    Fold 17; Fold 16; Fold 15; Fold 14; Fold 13; Fold 12;
    CarryRound 0; CarryRound 2; CarryRound 4; CarryRound 6; CarryRound 8; CarryRound 10;
    CarryRound 1; CarryRound 3; CarryRound 5; CarryRound 7; CarryRound 9; CarryRound 11;
    Fold 12;
    CarryFloor 0; CarryFloor 1; CarryFloor 2; CarryFloor 3; CarryFloor 4; CarryFloor 5;
    CarryFloor 6; CarryFloor 7; CarryFloor 8; CarryFloor 9; CarryFloor 10; CarryFloor 11;
    Fold 12;
    CarryFloor 0; CarryFloor 1; CarryFloor 2; CarryFloor 3; CarryFloor 4; CarryFloor 5;
    CarryFloor 6; CarryFloor 7; CarryFloor 8; CarryFloor 9; CarryFloor 10 ].

(** The 32 output bytes written from the limbs [s0 .. s11]. *)
Definition scReduce_store (S : list Z) : list byte :=
  let s0 := nth 0 S 0 in let s1 := nth 1 S 0 in let s2 := nth 2 S 0 in
  let s3 := nth 3 S 0 in let s4 := nth 4 S 0 in let s5 := nth 5 S 0 in
  let s6 := nth 6 S 0 in let s7 := nth 7 S 0 in let s8 := nth 8 S 0 in
  let s9 := nth 9 S 0 in let s10 := nth 10 S 0 in let s11 := nth 11 S 0 in
  [ byte.of_Z (shr64 s0 0);
    byte.of_Z (shr64 s0 8);
    byte.of_Z (Z.lor (shr64 s0 16) (shl64 s1 5));
    byte.of_Z (shr64 s1 3);
    byte.of_Z (shr64 s1 11);
    byte.of_Z (Z.lor (shr64 s1 19) (shl64 s2 2));
    byte.of_Z (shr64 s2 6);
    byte.of_Z (Z.lor (shr64 s2 14) (shl64 s3 7));
    byte.of_Z (shr64 s3 1);
    byte.of_Z (shr64 s3 9);
    byte.of_Z (Z.lor (shr64 s3 17) (shl64 s4 4));
    byte.of_Z (shr64 s4 4);
    byte.of_Z (shr64 s4 12);
    byte.of_Z (Z.lor (shr64 s4 20) (shl64 s5 1));
    byte.of_Z (shr64 s5 7);
    byte.of_Z (Z.lor (shr64 s5 15) (shl64 s6 6));
    byte.of_Z (shr64 s6 2);
    byte.of_Z (shr64 s6 10);
    byte.of_Z (Z.lor (shr64 s6 18) (shl64 s7 3));
    byte.of_Z (shr64 s7 5);
    byte.of_Z (shr64 s7 13);
    byte.of_Z (shr64 s8 0);
    byte.of_Z (shr64 s8 8);
    byte.of_Z (Z.lor (shr64 s8 16) (shl64 s9 5));
    byte.of_Z (shr64 s9 3);
    byte.of_Z (shr64 s9 11);
    byte.of_Z (Z.lor (shr64 s9 19) (shl64 s10 2));
    byte.of_Z (shr64 s10 6);
    byte.of_Z (Z.lor (shr64 s10 14) (shl64 s11 7));
    byte.of_Z (shr64 s11 1);
    byte.of_Z (shr64 s11 9);
    byte.of_Z (shr64 s11 17) ].

Definition scReduce (a : list byte) : list byte :=
  scReduce_store (run scReduce_steps (scReduce_load a)).

(** *** Constructors from bytes *)

Definition error : Type := string.

Definition Scalar_SetUniformBytes (sp : ptr) (x : list byte) (h : Heap Scalar)
  : option ptr * option error * Heap Scalar :=
  if negb (length x =? 64)%nat
  then (None, Some "edwards25519: invalid SetUniformBytes input length"%string, h)
  else
    let wideBytes := copy (repeat Byte.x00 64) x in
    let reduced := scReduce wideBytes in
    let v := fiat_sc255_from_bytes reduced in
    let v := fiat_sc255_to_montgomery v in
    (Some sp, None, store sp (mkScalar v) h).

(** [for i := len(s) - 1; i >= 0; i--]: [n] is [i + 1]. *)
Fixpoint isReduced_loop (n : nat) (a : list byte) : bool :=
  match n with
  | O => true
  | S i =>
      if at_ scMinusOneBytes i <? at_ a i then false
      else if at_ a i <? at_ scMinusOneBytes i then true
      else isReduced_loop i a
  end.

Definition isReduced (a : list byte) : bool :=
  if negb (length a =? 32)%nat then false
  else isReduced_loop (length a) a.

Definition Scalar_SetCanonicalBytes (sp : ptr) (x : list byte) (h : Heap Scalar)
  : option ptr * option error * Heap Scalar :=
  if negb (length x =? 32)%nat
  then (None, Some "invalid scalar length"%string, h)
  else
    let ss := copy (repeat Byte.x00 32) x in
    if negb (isReduced ss)
    then (None, Some "invalid scalar encoding"%string, h)
    else
      let v := fiat_sc255_from_bytes ss in
      let v := fiat_sc255_to_montgomery v in
      (Some sp, None, store sp (mkScalar v) h).

(** [a[i] &= m] and [a[i] |= m] on a byte array. *)
Definition and_at (i : nat) (m : Z) (a : list byte) : list byte :=
  upd i (byte.of_Z (Z.land (at_ a i) m)) a.

Definition or_at (i : nat) (m : Z) (a : list byte) : list byte :=
  upd i (byte.of_Z (Z.lor (at_ a i) m)) a.

Definition Scalar_SetBytesWithClamping (sp : ptr) (x : list byte) (h : Heap Scalar)
  : option ptr * option error * Heap Scalar :=
  if negb (length x =? 32)%nat
  then (None, Some "edwards25519: invalid SetBytesWithClamping input length"%string, h)
  else
    let wideBytes := copy (repeat Byte.x00 64) x in
    let wideBytes := and_at 0 248 wideBytes in
    let wideBytes := and_at 31 63 wideBytes in
    let wideBytes := or_at 31 64 wideBytes in
    let reduced := scReduce wideBytes in
    let v := fiat_sc255_from_bytes reduced in
    let v := fiat_sc255_to_montgomery v in
    (Some sp, None, store sp (mkScalar v) h).

(** *** Digit expansions *)

(** [binary.LittleEndian.Uint64(b[i*8:])]: the slice must hold 8 bytes. *)
Definition LittleEndian_Uint64 (a : list byte) : outcome Z :=
  if (length a <? 8)%nat then Panic index_error
  else Ok (le_combine (firstn 8 a)).

(** The four [digits[i] = binary.LittleEndian.Uint64(b[i*8:])] of the first
    loop of [nonAdjacentForm]; [digits[4]] stays zero. *)
Fixpoint naf_digits (n : nat) (b : list byte) (digits : list Z) : outcome (list Z) :=
  match n with
  | O => Ok digits
  | S i =>
      digits <- naf_digits i b digits ;;
      d <- LittleEndian_Uint64 (skipn (i * 8) b) ;;
      set digits (Z.of_nat i) d
  end.

(** The loop [for pos < 256].  Every iteration advances [pos] by at least
    one, so 256 units of fuel are enough (proved below). *)
Fixpoint naf_loop (fuel : nat) (w : Z) (digits : list Z) (width windowMask : Z)
    (pos carry : Z) (naf : list Z) : outcome (list Z) :=
  if negb (pos <? 256) then Ok naf
  else
    match fuel with
    | O => OutOfFuel
    | S fuel =>
        let indexU64 := pos / 64 in
        let indexBit := pos mod 64 in
        bitBuf <-
          (if indexBit <? 64 - w
           then
             d <- get digits indexU64 ;;
             Ok (Z.shiftr d indexBit)
           else
             d <- get digits indexU64 ;;
             d' <- get digits (1 + indexU64) ;;
             Ok (Z.lor (Z.shiftr d indexBit) (uint64 (Z.shiftl d' (64 - indexBit))))) ;;
        let window := uint64 (carry + Z.land bitBuf windowMask) in
        if Z.land window 1 =? 0
        then naf_loop fuel w digits width windowMask (pos + 1) carry naf
        else if window <? width / 2
        then
          naf <- set naf pos (int8 window) ;;
          naf_loop fuel w digits width windowMask (pos + w) 0 naf
        else
          naf <- set naf pos (sub8 (int8 window) (int8 width)) ;;
          naf_loop fuel w digits width windowMask (pos + w) 1 naf
    end.

(** The body of [nonAdjacentForm] after [b := s.Bytes()]. *)
Definition nonAdjacentForm_bytes (b : list byte) (w : Z) : outcome (list Z) :=
  b31 <- get b 31 ;;
  if 127 <? byte.unsigned b31 then Panic "scalar has high bit set illegally"
  else if w <? 2 then Panic "w must be at least 2 by the definition of NAF"
  else if 8 <? w then Panic "NAF digits must fit in int8"
  else
    let naf := repeat 0 256 in
    digits <- naf_digits 4 b (repeat 0 5) ;;
    let width := uint64 (Z.shiftl 1 w) in
    let windowMask := uint64 (width - 1) in
    naf_loop 256 w digits width windowMask 0 0 naf.

(** [w] is a [uint]: a non-negative integer. *)
Definition Scalar_nonAdjacentForm (x : Scalar) (w : Z) : outcome (list Z) :=
  let b := Scalar_Bytes x in
  nonAdjacentForm_bytes b w.

(** [for i := 0; i < 32; i++ { digits[2*i] = int8(b[i] & 15);
    digits[2*i+1] = int8((b[i] >> 4) & 15) }]; [n] iterations done. *)
Fixpoint radix16_split (n : nat) (b : list byte) (digits : list Z) : outcome (list Z) :=
  match n with
  | O => Ok digits
  | S i =>
      digits <- radix16_split i b digits ;;
      bi <- get b (Z.of_nat i) ;;
      digits <- set digits (2 * Z.of_nat i) (int8 (Z.land (byte.unsigned bi) 15)) ;;
      bi <- get b (Z.of_nat i) ;;
      set digits (2 * Z.of_nat i + 1) (int8 (Z.land (Z.shiftr (byte.unsigned bi) 4) 15))
  end.

(** [for i := 0; i < 63; i++ { carry := (digits[i] + 8) >> 4;
    digits[i] -= carry << 4; digits[i+1] += carry }]; [n] iterations done. *)
Fixpoint radix16_recenter (n : nat) (digits : list Z) : outcome (list Z) :=
  match n with
  | O => Ok digits
  | S i =>
      digits <- radix16_recenter i digits ;;
      di <- get digits (Z.of_nat i) ;;
      let carry := shr8 (add8 di 8) 4 in
      di <- get digits (Z.of_nat i) ;;
      digits <- set digits (Z.of_nat i) (sub8 di (shl8 carry 4)) ;;
      dj <- get digits (Z.of_nat i + 1) ;;
      set digits (Z.of_nat i + 1) (add8 dj carry)
  end.

(** The body of [signedRadix16] after [b := s.Bytes()]. *)
Definition signedRadix16_bytes (b : list byte) : outcome (list Z) :=
  b31 <- get b 31 ;;
  if 127 <? byte.unsigned b31 then Panic "scalar has high bit set illegally"
  else
    let digits := repeat 0 64 in
    digits <- radix16_split 32 b digits ;;
    radix16_recenter 63 digits.

Definition Scalar_signedRadix16 (x : Scalar) : outcome (list Z) :=
  let b := Scalar_Bytes x in
  signedRadix16_bytes b.

(* ================================================================= *)
(** ** The prime field of the curve coordinates *)

(** Modelled from the spec: the field-element type [radix51.FieldElement]
    (integers modulo [2^255 - 19]) is an external collaborator and not among
    the source files.  Section 6 lists its operations: Zero, One, Set, Add,
    Sub, Mul, Square, Neg, Invert, Equal and the boundary conversions
    FromBig and ToBig.  The class states them with the laws of a field;
    [feEqual] returns the integer 1 on equal elements and 0 otherwise. *)
Class FieldElement (F : Type) : Type := {
  feZero : F;
  feOne : F;
  feAdd : F -> F -> F;
  feSub : F -> F -> F;
  feMul : F -> F -> F;
  feNeg : F -> F;
  feInvert : F -> F;
  feEqual : F -> F -> Z;
  feFromBig : Z -> F;
  feToBig : F -> Z;
  fe_field :
    field_theory feZero feOne feAdd feMul feSub feNeg
      (fun a b => feMul a (feInvert b)) feInvert eq;
  feEqual_spec :
    forall a b, (a = b /\ feEqual a b = 1) \/ (a <> b /\ feEqual a b = 0)
}.

Definition feSquare {F : Type} {FE : FieldElement F} (a : F) : F := feMul a a.

(** [radix51.Two] *)
Definition feTwo {F : Type} {FE : FieldElement F} : F := feAdd feOne feOne.

(* ================================================================= *)
(** ** The curve group *)

Section Curve.
Context {F : Type} {FE : FieldElement F}.

(** [D], the constant of the curve equation, is an element of the external
    field; [twoD] is computed from it as in the source. *)
Variable D : F.

Definition twoD : F := feAdd D D.

(** *** Point types *)

Record ProjP1xP1 : Type :=
  mkProjP1xP1 { P1xP1_X : F; P1xP1_Y : F; P1xP1_Z : F; P1xP1_T : F }.

Record ProjP2 : Type := mkProjP2 { P2_X : F; P2_Y : F; P2_Z : F }.

Record ProjP3 : Type := mkProjP3 { P3_X : F; P3_Y : F; P3_Z : F; P3_T : F }.

Record ProjCached : Type :=
  mkProjCached { PC_YplusX : F; PC_YminusX : F; PC_Z : F; PC_T2d : F }.

Record AffineCached : Type :=
  mkAffineCached { AC_YplusX : F; AC_YminusX : F; AC_T2d : F }.

(** *** Constructors *)

Definition ProjP1xP1_Zero : ProjP1xP1 := mkProjP1xP1 feZero feOne feOne feOne.
Definition ProjP2_Zero : ProjP2 := mkProjP2 feZero feOne feOne.
Definition ProjP3_Zero : ProjP3 := mkProjP3 feZero feOne feOne feZero.
Definition ProjCached_Zero : ProjCached := mkProjCached feOne feOne feOne feZero.
Definition AffineCached_Zero : AffineCached := mkAffineCached feOne feOne feZero.

(** *** Conversions *)

Definition ProjP2_FromP1xP1 (p : ProjP1xP1) : ProjP2 :=
  mkProjP2 (feMul (P1xP1_X p) (P1xP1_T p))
           (feMul (P1xP1_Y p) (P1xP1_Z p))
           (feMul (P1xP1_Z p) (P1xP1_T p)).

Definition ProjP2_FromP3 (p : ProjP3) : ProjP2 :=
  mkProjP2 (P3_X p) (P3_Y p) (P3_Z p).

Definition ProjP3_FromP1xP1 (p : ProjP1xP1) : ProjP3 :=
  mkProjP3 (feMul (P1xP1_X p) (P1xP1_T p))
           (feMul (P1xP1_Y p) (P1xP1_Z p))
           (feMul (P1xP1_Z p) (P1xP1_T p))
           (feMul (P1xP1_X p) (P1xP1_Y p)).

Definition ProjP3_FromP2 (p : ProjP2) : ProjP3 :=
  mkProjP3 (feMul (P2_X p) (P2_Z p))
           (feMul (P2_Y p) (P2_Z p))
           (feSquare (P2_Z p))
           (feMul (P2_X p) (P2_Y p)).

Definition ProjCached_FromP3 (p : ProjP3) : ProjCached :=
  mkProjCached (feAdd (P3_Y p) (P3_X p))
               (feSub (P3_Y p) (P3_X p))
               (P3_Z p)
               (feMul (P3_T p) twoD).

Definition AffineCached_FromP3 (p : ProjP3) : AffineCached :=
  let YplusX := feAdd (P3_Y p) (P3_X p) in
  let YminusX := feSub (P3_Y p) (P3_X p) in
  let T2d := feMul (P3_T p) twoD in
  let invZ := feInvert (P3_Z p) in
  mkAffineCached (feMul YplusX invZ) (feMul YminusX invZ) (feMul T2d invZ).

(** *** (Re)addition and subtraction *)

Definition ProjP1xP1_Add (p : ProjP3) (q : ProjCached) : ProjP1xP1 :=
  let YplusX := feAdd (P3_Y p) (P3_X p) in
  let YminusX := feSub (P3_Y p) (P3_X p) in
  let PP := feMul YplusX (PC_YplusX q) in
  let MM := feMul YminusX (PC_YminusX q) in
  let TT2d := feMul (P3_T p) (PC_T2d q) in
  let ZZ2 := feMul (P3_Z p) (PC_Z q) in
  let ZZ2 := feAdd ZZ2 ZZ2 in
  mkProjP1xP1 (feSub PP MM) (feAdd PP MM) (feAdd ZZ2 TT2d) (feSub ZZ2 TT2d).

Definition ProjP1xP1_Sub (p : ProjP3) (q : ProjCached) : ProjP1xP1 :=
  let YplusX := feAdd (P3_Y p) (P3_X p) in
  let YminusX := feSub (P3_Y p) (P3_X p) in
  let PP := feMul YplusX (PC_YminusX q) in
  let MM := feMul YminusX (PC_YplusX q) in
  let TT2d := feMul (P3_T p) (PC_T2d q) in
  let ZZ2 := feMul (P3_Z p) (PC_Z q) in
  let ZZ2 := feAdd ZZ2 ZZ2 in
  mkProjP1xP1 (feSub PP MM) (feAdd PP MM) (feSub ZZ2 TT2d) (feAdd ZZ2 TT2d).

Definition ProjP1xP1_AddAffine (p : ProjP3) (q : AffineCached) : ProjP1xP1 :=
  let YplusX := feAdd (P3_Y p) (P3_X p) in
  let YminusX := feSub (P3_Y p) (P3_X p) in
  let PP := feMul YplusX (AC_YplusX q) in
  let MM := feMul YminusX (AC_YminusX q) in
  let TT2d := feMul (P3_T p) (AC_T2d q) in
  let Z2 := feAdd (P3_Z p) (P3_Z p) in
  mkProjP1xP1 (feSub PP MM) (feAdd PP MM) (feAdd Z2 TT2d) (feSub Z2 TT2d).

Definition ProjP1xP1_SubAffine (p : ProjP3) (q : AffineCached) : ProjP1xP1 :=
  let YplusX := feAdd (P3_Y p) (P3_X p) in
  let YminusX := feSub (P3_Y p) (P3_X p) in
  let PP := feMul YplusX (AC_YminusX q) in
  let MM := feMul YminusX (AC_YplusX q) in
  let TT2d := feMul (P3_T p) (AC_T2d q) in
  let Z2 := feAdd (P3_Z p) (P3_Z p) in
  mkProjP1xP1 (feSub PP MM) (feAdd PP MM) (feSub Z2 TT2d) (feAdd Z2 TT2d).

Definition ProjP3_Add (p q : ProjP3) : ProjP3 :=
  let qCached := ProjCached_FromP3 q in
  let result := ProjP1xP1_Add p qCached in
  ProjP3_FromP1xP1 result.

Definition ProjP3_Sub (p q : ProjP3) : ProjP3 :=
  let qCached := ProjCached_FromP3 q in
  let result := ProjP1xP1_Sub p qCached in
  ProjP3_FromP1xP1 result.

(** *** Doubling *)

(** [v.X] and [v.T] are computed from the [v.Y] and [v.Z] just written. *)
Definition ProjP1xP1_Double (p : ProjP2) : ProjP1xP1 :=
  let XX := feSquare (P2_X p) in
  let YY := feSquare (P2_Y p) in
  let ZZ2 := feSquare (P2_Z p) in
  let ZZ2 := feAdd ZZ2 ZZ2 in
  let XplusYsq := feAdd (P2_X p) (P2_Y p) in
  let XplusYsq := feSquare XplusYsq in
  let vY := feAdd YY XX in
  let vZ := feSub YY XX in
  let vX := feSub XplusYsq vY in
  let vT := feSub ZZ2 vZ in
  mkProjP1xP1 vX vY vZ vT.

(** *** Negation and equality *)

Definition ProjP3_Neg (p : ProjP3) : ProjP3 :=
  mkProjP3 (feNeg (P3_X p)) (P3_Y p) (P3_Z p) (feNeg (P3_T p)).

Definition ProjP3_Equal (v u : ProjP3) : Z :=
  let t1 := feMul (P3_X v) (P3_Z u) in
  let t2 := feMul (P3_X u) (P3_Z v) in
  let t3 := feMul (P3_Y v) (P3_Z u) in
  let t4 := feMul (P3_Y u) (P3_Z v) in
  Z.land (feEqual t1 t2) (feEqual t3 t4).

(** *** The legacy group elements *)

Record ExtendedGroupElement : Type :=
  mkExtendedGroupElement { EGE_X : F; EGE_Y : F; EGE_Z : F; EGE_T : F }.

Record ProjectiveGroupElement : Type :=
  mkProjectiveGroupElement { PGE_X : F; PGE_Y : F; PGE_Z : F }.

(** The value the receiver holds after [v.FromAffine(x, y)]. *)
Definition ExtendedGroupElement_FromAffine (x y : Z) : ExtendedGroupElement :=
  let vX := feFromBig x in
  let vY := feFromBig y in
  let vT := feMul vX vY in
  let vZ := feOne in
  mkExtendedGroupElement vX vY vZ vT.

Definition ExtendedGroupElement_ToAffine (v : ExtendedGroupElement) : Z * Z :=
  let zinv := feInvert (EGE_Z v) in
  let x := feMul (EGE_X v) zinv in
  let y := feMul (EGE_Y v) zinv in
  (feToBig x, feToBig y).

Definition ExtendedGroupElement_ToProjective (v : ExtendedGroupElement)
  : ProjectiveGroupElement :=
  mkProjectiveGroupElement (EGE_X v) (EGE_Y v) (EGE_Z v).

(** The value [v.Zero()] writes. *)
Definition EGE_zero : ExtendedGroupElement :=
  mkExtendedGroupElement feZero feOne feOne feZero.

(** The value [v.Add(p1, p2)] writes: every coordinate of [p1] and [p2] is
    read into the temporaries [tmp1 .. H] before the first write to [v]. *)
Definition EGE_add (p1 p2 : ExtendedGroupElement) : ExtendedGroupElement :=
  let tmp1 := feSub (EGE_Y p1) (EGE_X p1) in
  let tmp2 := feSub (EGE_Y p2) (EGE_X p2) in
  let A := feMul tmp1 tmp2 in
  let tmp1 := feAdd (EGE_Y p1) (EGE_X p1) in
  let tmp2 := feAdd (EGE_Y p2) (EGE_X p2) in
  let B := feMul tmp1 tmp2 in
  let tmp1 := feMul (EGE_T p1) (EGE_T p2) in
  let C := feMul tmp1 twoD in
  let tmp1 := feMul (EGE_Z p1) (EGE_Z p2) in
  let D := feAdd tmp1 tmp1 in
  let E := feSub B A in
  let F := feSub D C in
  let G := feAdd D C in
  let H := feAdd B A in
  mkExtendedGroupElement (feMul E F) (feMul G H) (feMul F G) (feMul E H).

Definition EGE_sub (p1 p2 : ExtendedGroupElement) : ExtendedGroupElement :=
  let tmp1 := feSub (EGE_Y p1) (EGE_X p1) in
  let tmp2 := feAdd (EGE_Y p2) (EGE_X p2) in
  let A := feMul tmp1 tmp2 in
  let tmp1 := feAdd (EGE_Y p1) (EGE_X p1) in
  let tmp2 := feSub (EGE_Y p2) (EGE_X p2) in
  let B := feMul tmp1 tmp2 in
  let tmp1 := feMul (EGE_T p1) (EGE_T p2) in
  let C := feMul tmp1 twoD in
  let tmp1 := feMul (EGE_Z p1) (EGE_Z p2) in
  let D := feAdd tmp1 tmp1 in
  let E := feSub B A in
  let F := feAdd D C in
  let G := feSub D C in
  let H := feAdd B A in
  mkExtendedGroupElement (feMul E F) (feMul G H) (feMul F G) (feMul E H).

Definition EGE_neg (p : ExtendedGroupElement) : ExtendedGroupElement :=
  mkExtendedGroupElement (feNeg (EGE_X p)) (EGE_Y p) (EGE_Z p) (feNeg (EGE_T p)).

(** The value [v.Double(u)] writes; again all reads of [u] come first. *)
Definition EGE_double (u : ExtendedGroupElement) : ExtendedGroupElement :=
  let A := feSquare (EGE_X u) in
  let B := feSquare (EGE_Y u) in
  let C := feSquare (EGE_Z u) in
  let C := feAdd C C in
  let D := feNeg A in
  let t0 := feAdd (EGE_X u) (EGE_Y u) in
  let t0 := feSquare t0 in
  let E := feSub t0 A in
  let E := feSub E B in
  let G := feAdd D B in
  let F := feSub G C in
  let H := feSub D B in
  mkExtendedGroupElement (feMul E F) (feMul G H) (feMul F G) (feMul E H).

Definition ExtendedGroupElement_Equal (v u : ExtendedGroupElement) : Z :=
  let t1 := feMul (EGE_X v) (EGE_Z u) in
  let t2 := feMul (EGE_X u) (EGE_Z v) in
  let t3 := feMul (EGE_Y v) (EGE_Z u) in
  let t4 := feMul (EGE_Y u) (EGE_Z v) in
  Z.land (feEqual t1 t2) (feEqual t3 t4).

(** The methods with receiver [v], on the heap of group elements. *)
Definition ExtendedGroupElement_Set (v u : ptr) (h : Heap ExtendedGroupElement)
  : ptr * Heap ExtendedGroupElement :=
  (v, store v (load u h) h).

Definition ExtendedGroupElement_Zero (v : ptr) (h : Heap ExtendedGroupElement)
  : ptr * Heap ExtendedGroupElement :=
  (v, store v EGE_zero h).

Definition ExtendedGroupElement_Add (v p1 p2 : ptr) (h : Heap ExtendedGroupElement)
  : ptr * Heap ExtendedGroupElement :=
  (v, store v (EGE_add (load p1 h) (load p2 h)) h).

Definition ExtendedGroupElement_Sub (v p1 p2 : ptr) (h : Heap ExtendedGroupElement)
  : ptr * Heap ExtendedGroupElement :=
  (v, store v (EGE_sub (load p1 h) (load p2 h)) h).

Definition ExtendedGroupElement_Neg (v p : ptr) (h : Heap ExtendedGroupElement)
  : ptr * Heap ExtendedGroupElement :=
  (v, store v (EGE_neg (load p h)) h).

Definition ExtendedGroupElement_Double (v u : ptr) (h : Heap ExtendedGroupElement)
  : ptr * Heap ExtendedGroupElement :=
  (v, store v (EGE_double (load u h)) h).

(** The zero value [new(ExtendedGroupElement)] allocates. *)
Definition EGE_new : ExtendedGroupElement :=
  mkExtendedGroupElement feZero feZero feZero feZero.

(** One iteration of the ladder, for the bit index [i]. *)
Definition ScalarMult_step (r0 r1 : ptr) (k : list byte)
    (h : Heap ExtendedGroupElement) (i : Z) : Heap ExtendedGroupElement :=
  let b := Z.land (Z.shiftr (at_ k (Z.to_nat (i / 8))) (Z.land i 7)) 1 in
  if b =? 0 then
    let '(_, h) := ExtendedGroupElement_Add r1 r0 r1 h in
    let '(_, h) := ExtendedGroupElement_Double r0 r0 h in
    h
  else
    let '(_, h) := ExtendedGroupElement_Add r0 r0 r1 h in
    let '(_, h) := ExtendedGroupElement_Double r1 r1 h in
    h.

(** [for i := 255; i >= 0; i--] *)
Definition ExtendedGroupElement_ScalarMult (v u : ptr) (k : list byte)
    (h : Heap ExtendedGroupElement) : ptr * Heap ExtendedGroupElement :=
  let '(r1, h) := new EGE_new h in
  let '(r1, h) := ExtendedGroupElement_Set r1 u h in
  let '(r0, h) := ExtendedGroupElement_Zero v h in
  let h := fold_left (ScalarMult_step r0 r1 k)
                     (map Z.of_nat (rev (seq 0 256))) h in
  (r0, h).

Definition ProjectiveGroupElement_FromAffine (x y : Z) : ProjectiveGroupElement :=
  mkProjectiveGroupElement (feFromBig x) (feFromBig y) feOne.

Definition ProjectiveGroupElement_ToAffine (v : ProjectiveGroupElement) : Z * Z :=
  let zinv := feInvert (PGE_Z v) in
  let x := feMul (PGE_X v) zinv in
  let y := feMul (PGE_Y v) zinv in
  (feToBig x, feToBig y).

Definition ProjectiveGroupElement_ToExtended (v : ProjectiveGroupElement)
  : ExtendedGroupElement :=
  mkExtendedGroupElement (feMul (PGE_X v) (PGE_Z v))
                         (feMul (PGE_Y v) (PGE_Z v))
                         (feSquare (PGE_Z v))
                         (feMul (PGE_X v) (PGE_Y v)).

Definition ProjectiveGroupElement_Zero : ProjectiveGroupElement :=
  mkProjectiveGroupElement feZero feOne feOne.

(** [DoubleZ1] panics unless [u.Z] is the field's one. *)
Definition ProjectiveGroupElement_DoubleZ1 (u : ProjectiveGroupElement)
  : outcome ProjectiveGroupElement :=
  if negb (feEqual (PGE_Z u) feOne =? 1)
  then Panic "ed25519: DoubleZ1 called with Z != 1"
  else
    let B := feSquare (feAdd (PGE_X u) (PGE_Y u)) in
    let C := feSquare (PGE_X u) in
    let D := feSquare (PGE_Y u) in
    let E := feNeg C in
    let F := feAdd E D in
    let vY := feSub (feSub B C) D in
    let vX := feMul vY (feSub F feTwo) in
    let vY := feMul F (feSub E D) in
    let vZ := feSquare F in
    let vZ := feSub vZ F in
    let vZ := feSub vZ F in
    Ok (mkProjectiveGroupElement vX vY vZ).

Definition IsOnCurve (x y : F) : bool :=
  let lh := feSquare x in
  let y2 := feSquare y in
  let rh := feMul lh y2 in
  let rh := feMul rh D in
  let rh := feAdd rh feOne in
  let lh := feNeg lh in
  let lh := feAdd lh y2 in
  let lh := feSub lh rh in
  feEqual lh feZero =? 1.

End Curve.

(* ================================================================= *)
(** * Properties *)

(** ** Heaps and arrays *)

Lemma load_store_same {A : Type} (p : ptr) (v : A) (h : Heap A) :
  load p (store p v h) = v.
Proof. unfold load, store; cbn. now rewrite Nat.eqb_refl. Qed.

Lemma load_store_other {A : Type} (p q : ptr) (v : A) (h : Heap A) :
  q <> p -> load q (store p v h) = load q h.
Proof.
  intros Hne. unfold load, store; cbn.
  destruct (Nat.eqb_spec q p); [contradiction|reflexivity].
Qed.

Lemma length_upd {A : Type} (i : nat) (v : A) (a : list A) :
  length (upd i v a) = length a.
Proof.
  revert i; induction a as [|x t IH]; intros [|j]; cbn; auto.
Qed.

Lemma nth_upd_same {A : Type} (i : nat) (v d : A) (a : list A) :
  (i < length a)%nat -> nth i (upd i v a) d = v.
Proof.
  revert i; induction a as [|x t IH]; intros [|j] H; cbn in *; try lia; auto.
  apply IH; lia.
Qed.

Lemma nth_upd_other {A : Type} (i j : nat) (v d : A) (a : list A) :
  i <> j -> nth j (upd i v a) d = nth j a d.
Proof.
  revert i j; induction a as [|x t IH]; intros [|i] [|j] H; cbn; auto; try lia.
Qed.

(** ** Wrap-around *)

Lemma wrapS_small (w x : Z) :
  0 < w -> - 2 ^ (w - 1) <= x < 2 ^ (w - 1) -> wrapS w x = x.
Proof.
  intros Hw Hx. unfold wrapS.
  assert (E : 2 ^ w = 2 * 2 ^ (w - 1)).
  { replace w with (Z.succ (w - 1)) at 1 by lia. apply Z.pow_succ_r; lia. }
  rewrite Z.mod_small by lia. lia.
Qed.

Lemma int64_small (x : Z) : - 2 ^ 63 <= x < 2 ^ 63 -> int64 x = x.
Proof. intros H. apply wrapS_small; [lia|exact H]. Qed.

Lemma int8_small (x : Z) : - 128 <= x < 128 -> int8 x = x.
Proof. intros H. apply wrapS_small; [lia|]. change (2 ^ (8 - 1)) with 128. lia. Qed.

(** ** Bytes and little-endian integers *)

Lemma byte_range (b : byte) : 0 <= byte.unsigned b < 256.
Proof. apply byte.unsigned_range. Qed.

Lemma lor_shiftl_add (a b k : Z) :
  0 <= k -> 0 <= a < 2 ^ k -> Z.lor a (Z.shiftl b k) = a + b * 2 ^ k.
Proof.
  intros Hk Ha.
  rewrite Z.shiftl_mul_pow2 by lia.
  rewrite <- Z.lxor_lor, <- Z.add_nocarry_lxor; try reflexivity.
  all: apply Z.bits_inj'; intros n Hn; rewrite Z.land_spec, Z.bits_0.
  all: destruct (Z.ltb_spec n k).
  all: try (rewrite Z.mul_pow2_bits_low by lia; apply andb_false_r).
  all: rewrite <- (Z.mod_small a (2 ^ k)) by lia.
  all: rewrite Z.mod_pow2_bits_high by lia; reflexivity.
Qed.

Lemma le_combine_cons (b : byte) (t : list byte) :
  le_combine (b :: t) = byte.unsigned b + 256 * le_combine t.
Proof.
  change (le_combine (b :: t)) with (Z.lor (byte.unsigned b) (Z.shiftl (le_combine t) 8)).
  rewrite lor_shiftl_add; [lia|lia|].
  pose proof (byte_range b). change (2 ^ 8) with 256. lia.
Qed.

Lemma le_combine_snoc (a : list byte) (b : byte) :
  le_combine (a ++ [b]) = le_combine a + 2 ^ (8 * Z.of_nat (length a)) * byte.unsigned b.
Proof.
  induction a as [|x t IH].
  - cbn [app length]. rewrite le_combine_cons. change (le_combine []) with 0.
    change (2 ^ (8 * Z.of_nat 0)) with 1. lia.
  - cbn [app length]. rewrite !le_combine_cons, IH.
    rewrite Nat2Z.inj_succ.
    replace (8 * Z.succ (Z.of_nat (length t))) with (8 + 8 * Z.of_nat (length t)) by lia.
    rewrite Z.pow_add_r by lia. change (2 ^ 8) with 256. ring.
Qed.

Lemma firstn_succ_nth {A : Type} (d : A) (n : nat) (a : list A) :
  (n < length a)%nat -> firstn (S n) a = firstn n a ++ [nth n a d].
Proof.
  revert n; induction a as [|x t IH]; intros [|n] H; cbn in *; try lia; auto.
  f_equal. apply IH. lia.
Qed.

Lemma le_combine_lt (a : list byte) : 0 <= le_combine a < 2 ^ (8 * Z.of_nat (length a)).
Proof. apply le_combine_bound. Qed.

(** ** The Montgomery-domain model *)

Lemma l_pos : 0 < l.
Proof. reflexivity. Qed.

Lemma fiat_R_Rinv : (fiat_R * fiat_Rinv) mod l = 1.
Proof. vm_compute. reflexivity. Qed.

(** The integer a scalar denotes. *)
Definition Scalar_value (x : Scalar) : Z := fiat_sc255_from_montgomery (s x).

Lemma Scalar_value_range (x : Scalar) : 0 <= Scalar_value x < l.
Proof. apply Z.mod_pos_bound, l_pos. Qed.

Lemma from_to_montgomery (x : Z) :
  fiat_sc255_from_montgomery (fiat_sc255_to_montgomery x) = x mod l.
Proof.
  unfold fiat_sc255_from_montgomery, fiat_sc255_to_montgomery.
  rewrite Z.mul_mod_idemp_l by (pose proof l_pos; lia).
  rewrite <- Z.mul_assoc, <- Z.mul_mod_idemp_r by (pose proof l_pos; lia).
  rewrite fiat_R_Rinv. f_equal. lia.
Qed.

Lemma from_montgomery_add (a b : Z) :
  fiat_sc255_from_montgomery (fiat_sc255_add a b)
  = (fiat_sc255_from_montgomery a + fiat_sc255_from_montgomery b) mod l.
Proof.
  unfold fiat_sc255_from_montgomery, fiat_sc255_add.
  rewrite Z.mul_mod_idemp_l by (pose proof l_pos; lia).
  rewrite <- Z.add_mod by (pose proof l_pos; lia). f_equal. ring.
Qed.

Lemma from_montgomery_mul (a b : Z) :
  fiat_sc255_from_montgomery (fiat_sc255_mul a b)
  = (fiat_sc255_from_montgomery a * fiat_sc255_from_montgomery b) mod l.
Proof.
  unfold fiat_sc255_from_montgomery, fiat_sc255_mul.
  rewrite Z.mul_mod_idemp_l by (pose proof l_pos; lia).
  rewrite <- Z.mul_mod by (pose proof l_pos; lia). f_equal. ring.
Qed.

Lemma le_combine_Scalar_Bytes (x : Scalar) :
  le_combine (Scalar_Bytes x) = Scalar_value x.
Proof.
  unfold Scalar_Bytes, Scalar_bytes, fiat_sc255_to_bytes.
  rewrite le_combine_split. apply Z.mod_small.
  pose proof (Scalar_value_range x). unfold Scalar_value in *.
  assert (l < 2 ^ (Z.of_nat 32 * 8)) by (vm_compute; reflexivity). lia.
Qed.

Lemma length_Scalar_Bytes (x : Scalar) : length (Scalar_Bytes x) = 32%nat.
Proof. apply length_le_split. Qed.

(** ** MultiplyAdd *)

Lemma MultiplyAdd_no_alias_z (sp x y z : ptr) (h : Heap Scalar) :
  z <> sp ->
  let '(r, h') := Scalar_MultiplyAdd sp x y z h in
  r = sp /\
  Scalar_value (load sp h')
  = (Scalar_value (load x h) * Scalar_value (load y h) + Scalar_value (load z h)) mod l.
Proof.
  intros Hz. unfold Scalar_MultiplyAdd, Scalar_Multiply, Scalar_Add.
  split; [reflexivity|].
  rewrite !load_store_same, (load_store_other sp z) by exact Hz.
  unfold Scalar_value; cbn [s].
  rewrite from_montgomery_add, from_montgomery_mul.
  rewrite Z.add_mod_idemp_l by (pose proof l_pos; lia). reflexivity.
Qed.

Lemma MultiplyAdd_alias_z (sp x y : ptr) (h : Heap Scalar) :
  let '(r, h') := Scalar_MultiplyAdd sp x y sp h in
  r = sp /\
  Scalar_value (load sp h')
  = (2 * (Scalar_value (load x h) * Scalar_value (load y h))) mod l.
Proof.
  unfold Scalar_MultiplyAdd, Scalar_Multiply, Scalar_Add.
  split; [reflexivity|].
  rewrite !load_store_same.
  unfold Scalar_value; cbn [s].
  rewrite from_montgomery_add, from_montgomery_mul.
  rewrite <- Z.add_mod by (pose proof l_pos; lia). f_equal. ring.
Qed.

(** A heap with the scalars 1, 2 and 3 at the locations 0, 1 and 2. *)
Definition heap123 : Heap Scalar :=
  mkHeap 3 (fun p => mkScalar (fiat_sc255_to_montgomery (Z.of_nat p + 1))).

(** C3: [MultiplyAdd] does not compute [x * y + z] when [z] is the receiver:
    with the receiver holding 1, [x] holding 2 and [y] holding 3, the call
    [s.MultiplyAdd(x, y, s)] leaves [2 * (2 * 3) = 12] in the receiver, not
    [2 * 3 + 1 = 7]: [Multiply] overwrites the receiver before [Add] reads
    [z] from it. *)
Theorem MultiplyAdd_alias_z_example :
  let '(r, h') := Scalar_MultiplyAdd 0%nat 1%nat 2%nat 0%nat heap123 in
  Scalar_value (load 1%nat heap123) = 2 /\
  Scalar_value (load 2%nat heap123) = 3 /\
  Scalar_value (load 0%nat heap123) = 1 /\
  Scalar_value (load r h') = 12 /\
  Scalar_value (load r h') <> (2 * 3 + 1) mod l.
Proof. vm_compute. repeat split; congruence. Qed.

(** ** Canonical decoding *)

(** The scan from the most significant byte decides the order of the two
    little-endian integers. *)
Lemma isReduced_loop_spec (n : nat) (a : list byte) :
  (n <= length a)%nat -> (n <= length scMinusOneBytes)%nat ->
  isReduced_loop n a = (le_combine (firstn n a) <=? le_combine (firstn n scMinusOneBytes)).
Proof.
  induction n as [|i IH]; intros Ha Hm.
  - reflexivity.
  - cbn [isReduced_loop]. unfold at_.
    rewrite (firstn_succ_nth Byte.x00 i a), (firstn_succ_nth Byte.x00 i scMinusOneBytes) by lia.
    rewrite !le_combine_snoc, !length_firstn, !Nat.min_l by lia.
    pose proof (le_combine_lt (firstn i a)) as Ba.
    pose proof (le_combine_lt (firstn i scMinusOneBytes)) as Bm.
    rewrite length_firstn, Nat.min_l in Ba, Bm by lia.
    pose proof (byte_range (nth i a Byte.x00)) as Ra.
    pose proof (byte_range (nth i scMinusOneBytes Byte.x00)) as Rm.
    set (P := 2 ^ (8 * Z.of_nat i)) in *.
    set (x := byte.unsigned (nth i a Byte.x00)) in *.
    set (y := byte.unsigned (nth i scMinusOneBytes Byte.x00)) in *.
    destruct (Z.ltb_spec y x) as [Hlt|Hge].
    + symmetry. apply Z.leb_gt. nia.
    + destruct (Z.ltb_spec x y) as [Hlt'|Hge'].
      * symmetry. apply Z.leb_le. nia.
      * assert (x = y) by lia. rewrite IH by lia.
        destruct (Z.leb_spec (le_combine (firstn i a)) (le_combine (firstn i scMinusOneBytes)));
          symmetry; [apply Z.leb_le|apply Z.leb_gt]; nia.
Qed.

Lemma le_combine_scMinusOneBytes : le_combine scMinusOneBytes = l - 1.
Proof. vm_compute. reflexivity. Qed.

Lemma isReduced_spec (a : list byte) :
  isReduced a = true <-> length a = 32%nat /\ le_combine a < l.
Proof.
  unfold isReduced.
  destruct (Nat.eqb_spec (length a) 32) as [E|E]; cbn [negb].
  - rewrite isReduced_loop_spec by (try rewrite E; cbn; lia).
    rewrite E. rewrite <- E at 1. rewrite firstn_all.
    change (firstn 32 scMinusOneBytes) with scMinusOneBytes.
    rewrite le_combine_scMinusOneBytes, Z.leb_le. intuition lia.
  - split; [discriminate|]. intros [H _]. contradiction.
Qed.

Lemma copy_same_length {A : Type} (dst src : list A) :
  length src = length dst -> copy dst src = src.
Proof.
  intros E. unfold copy. rewrite <- E, firstn_all, skipn_all2 by lia.
  apply app_nil_r.
Qed.

(** The three encodings named by the spec. *)
Definition enc_l : list byte := le_split 32 l.
Definition enc_l_plus_1 : list byte := le_split 32 (l + 1).
Definition enc_all_ones : list byte := le_split 32 (2 ^ 256 - 1).

(** C6: [SetCanonicalBytes] succeeds exactly on the 32-byte strings that
    denote an integer below [l], and then the receiver holds that integer;
    on every failure it returns nil with an error and leaves the heap (so
    the receiver) as it was; a wrong length and a non-canonical value give
    the two distinct errors; the encodings of [l], [l + 1] and [2^256 - 1]
    are rejected with the invalid-encoding error. *)
Theorem SetCanonicalBytes_spec (sp : ptr) (x : list byte) (h : Heap Scalar) :
  let '(r, e, h') := Scalar_SetCanonicalBytes sp x h in
  ((r = Some sp /\ e = None) <-> (length x = 32%nat /\ le_combine x < l)) /\
  (r = Some sp -> Scalar_value (load sp h') = le_combine x /\ Scalar_Bytes (load sp h') = x) /\
  (r <> Some sp -> r = None /\ e <> None /\ h' = h) /\
  (length x <> 32%nat -> e = Some "invalid scalar length"%string) /\
  (length x = 32%nat -> l <= le_combine x -> e = Some "invalid scalar encoding"%string) /\
  Scalar_SetCanonicalBytes sp enc_l h = (None, Some "invalid scalar encoding"%string, h) /\
  Scalar_SetCanonicalBytes sp enc_l_plus_1 h = (None, Some "invalid scalar encoding"%string, h) /\
  Scalar_SetCanonicalBytes sp enc_all_ones h = (None, Some "invalid scalar encoding"%string, h).
Proof.
  unfold Scalar_SetCanonicalBytes.
  destruct (Nat.eqb_spec (length x) 32) as [E|E]; cbn [negb].
  - rewrite copy_same_length by (rewrite E; reflexivity).
    destruct (isReduced x) eqn:R; cbn [negb].
    + apply isReduced_spec in R. destruct R as [_ R].
      repeat split; intros; try tauto; try congruence; try lia.
      * unfold Scalar_value. rewrite load_store_same; cbn [s].
        unfold fiat_sc255_from_bytes. rewrite from_to_montgomery.
        apply Z.mod_small. pose proof (le_combine_lt x). lia.
      * unfold Scalar_Bytes, Scalar_bytes. rewrite load_store_same; cbn [s].
        unfold fiat_sc255_from_bytes, fiat_sc255_to_bytes. rewrite from_to_montgomery.
        rewrite Z.mod_small by (pose proof (le_combine_lt x); lia).
        rewrite <- E. apply split_le_combine.
    + assert (N : ~ (length x = 32%nat /\ le_combine x < l)).
      { rewrite <- isReduced_spec, R. discriminate. }
      repeat split; intros; try tauto; try congruence; try discriminate; try lia.
      all: try (destruct H; discriminate).
      all: vm_compute; reflexivity.
  - repeat split; intros; try tauto; try congruence; try discriminate; try lia.
    all: try (destruct H; discriminate).
    all: try (destruct H; contradiction).
    all: vm_compute; reflexivity.
Qed.

(** ** The wide reduction: intervals for the limbs *)

(** The integer a vector of limbs denotes in radix [2^21]. *)
Definition val21 (S : list Z) : Z := fold_right (fun x acc => x + 2 ^ 21 * acc) 0 S.

(** An interval for every limb; the transformers below follow the three
    kinds of step and fail when a 64-bit operation could wrap around. *)
Definition bnd : Type := (Z * Z)%type.

Definition inb (x : Z) (b : bnd) : Prop := fst b <= x <= snd b.

Definition inbs (S : list Z) (B : list bnd) : Prop := Forall2 inb S B.

Definition fits64 (b : bnd) : bool := (- 2 ^ 63 <=? fst b) && (snd b <? 2 ^ 63).

Definition a_mulc (b : bnd) (c : Z) : bnd :=
  (Z.min (fst b * c) (snd b * c), Z.max (fst b * c) (snd b * c)).

Definition a_add (b1 b2 : bnd) : bnd := (fst b1 + fst b2, snd b1 + snd b2).

Definition a_sub (b1 b2 : bnd) : bnd := (fst b1 - snd b2, snd b1 - fst b2).

Definition a_shr (b : bnd) (n : Z) : bnd := (Z.shiftr (fst b) n, Z.shiftr (snd b) n).

Definition obind {A B : Type} (m : option A) (f : A -> option B) : option B :=
  match m with Some a => f a | None => None end.

Definition a_addmul (i k : nat) (c : Z) (B : list bnd) : option (list bnd) :=
  match nth_error B i, nth_error B k with
  | Some bi, Some bk =>
      let p := a_mulc bk c in
      let r := a_add bi p in
      if fits64 p && fits64 r && negb (Nat.eqb i k) then Some (upd i r B) else None
  | _, _ => None
  end.

Definition a_submul (i k : nat) (c : Z) (B : list bnd) : option (list bnd) :=
  match nth_error B i, nth_error B k with
  | Some bi, Some bk =>
      let p := a_mulc bk c in
      let r := a_sub bi p in
      if fits64 p && fits64 r && negb (Nat.eqb i k) then Some (upd i r B) else None
  | _, _ => None
  end.

Definition a_fold (k : nat) (B : list bnd) : option (list bnd) :=
  if (k <? 12)%nat || (length B <=? k)%nat then None
  else
    obind (a_addmul (k - 12) k 666643 B) (fun B =>
    obind (a_addmul (k - 11) k 470296 B) (fun B =>
    obind (a_addmul (k - 10) k 654183 B) (fun B =>
    obind (a_submul (k - 9) k 997805 B) (fun B =>
    obind (a_addmul (k - 8) k 136657 B) (fun B =>
    obind (a_submul (k - 7) k 683901 B) (fun B =>
    Some (upd k (0, 0) B))))))).

Definition a_carry (offset : Z) (rng : bnd) (i : nat) (B : list bnd) : option (list bnd) :=
  match nth_error B i, nth_error B (i + 1) with
  | Some bi, Some bj =>
      let a := a_add bi (offset, offset) in
      let c := a_shr a 21 in
      let r := a_add bj c in
      let sh := a_mulc c (2 ^ 21) in
      if fits64 a && fits64 r && fits64 sh && fits64 (a_sub bi sh)
      then Some (upd i rng (upd (i + 1) r B))
      else None
  | _, _ => None
  end.

Definition a_exec (o : step) (B : list bnd) : option (list bnd) :=
  match o with
  | Fold k => a_fold k B
  | CarryRound i => a_carry (2 ^ 20) (- 2 ^ 20, 2 ^ 20 - 1) i B
  | CarryFloor i => a_carry 0 (0, 2 ^ 21 - 1) i B
  end.

Fixpoint a_run (p : list step) (B : list bnd) : option (list bnd) :=
  match p with
  | [] => Some B
  | o :: p => obind (a_exec o B) (a_run p)
  end.

(** *** Vectors of limbs *)

Lemma val21_upd (i : nat) (v : Z) (S : list Z) :
  (i < length S)%nat ->
  val21 (upd i v S) = val21 S + (v - nth i S 0) * 2 ^ (21 * Z.of_nat i).
Proof.
  revert i; induction S as [|x t IH]; intros [|i] H; cbn [length] in H; try lia.
  - cbn. lia.
  - cbn [upd nth val21 fold_right]. fold (val21 (upd i v t)). fold (val21 t).
    rewrite IH by lia.
    rewrite Nat2Z.inj_succ.
    replace (21 * Z.succ (Z.of_nat i)) with (21 + 21 * Z.of_nat i) by lia.
    rewrite Z.pow_add_r by lia. ring.
Qed.

Lemma inbs_length (S : list Z) (B : list bnd) : inbs S B -> length S = length B.
Proof. apply Forall2_length. Qed.

Lemma inbs_nth (S : list Z) (B : list bnd) (i : nat) (b : bnd) :
  inbs S B -> nth_error B i = Some b -> inb (nth i S 0) b /\ (i < length S)%nat.
Proof.
  intros H; revert i; induction H as [|x y S B Hxy H IH]; intros [|i] E; cbn in *;
    try discriminate.
  - injection E as <-. split; [assumption|lia].
  - destruct (IH i E). split; [assumption|lia].
Qed.

Lemma inbs_upd (S : list Z) (B : list bnd) (i : nat) (v : Z) (b : bnd) :
  inbs S B -> inb v b -> inbs (upd i v S) (upd i b B).
Proof.
  intros H Hv; revert i; induction H as [|x y S B Hxy H IH]; intros [|i]; cbn;
    constructor; auto; apply IH.
Qed.

Lemma fits64_int64 (x : Z) (b : bnd) : inb x b -> fits64 b = true -> int64 x = x.
Proof.
  unfold inb, fits64. intros H E. apply andb_true_iff in E.
  destruct E as [E1 E2]. apply Z.leb_le in E1. apply Z.ltb_lt in E2.
  apply int64_small. lia.
Qed.

Lemma a_mulc_sound (x c : Z) (b : bnd) : inb x b -> inb (x * c) (a_mulc b c).
Proof.
  unfold inb, a_mulc; cbn [fst snd]. intros H.
  destruct (Z.le_ge_cases 0 c) as [Hc|Hc].
  - rewrite Z.min_l, Z.max_r by nia. nia.
  - rewrite Z.min_r, Z.max_l by nia. nia.
Qed.

Lemma a_add_sound (x y : Z) (b1 b2 : bnd) :
  inb x b1 -> inb y b2 -> inb (x + y) (a_add b1 b2).
Proof. unfold inb, a_add; cbn [fst snd]. lia. Qed.

Lemma a_sub_sound (x y : Z) (b1 b2 : bnd) :
  inb x b1 -> inb y b2 -> inb (x - y) (a_sub b1 b2).
Proof. unfold inb, a_sub; cbn [fst snd]. lia. Qed.

Lemma a_shr_sound (x n : Z) (b : bnd) : 0 <= n -> inb x b -> inb (Z.shiftr x n) (a_shr b n).
Proof.
  unfold inb, a_shr; cbn [fst snd]. intros Hn H.
  rewrite !Z.shiftr_div_pow2 by lia.
  split; apply Z.div_le_mono; try lia; apply Z.pow_pos_nonneg; lia.
Qed.

(** *** One statement of a fold *)

Lemma a_addmul_sound (i k : nat) (c : Z) (S : list Z) (B B' : list bnd) :
  inbs S B -> a_addmul i k c B = Some B' ->
  inbs (addmul i k c S) B' /\
  val21 (addmul i k c S) = val21 S + nth k S 0 * c * 2 ^ (21 * Z.of_nat i) /\
  nth k (addmul i k c S) 0 = nth k S 0.
Proof.
  intros HS. unfold a_addmul.
  destruct (nth_error B i) as [bi|] eqn:Ei; [|discriminate].
  destruct (nth_error B k) as [bk|] eqn:Ek; [|discriminate].
  destruct (fits64 (a_mulc bk c) && fits64 (a_add bi (a_mulc bk c)) && negb (i =? k)%nat) eqn:C;
    [|discriminate].
  intros E; injection E as <-.
  apply andb_true_iff in C; destruct C as [C Cne].
  apply andb_true_iff in C; destruct C as [C1 C2].
  apply negb_true_iff, Nat.eqb_neq in Cne.
  destruct (inbs_nth _ _ _ _ HS Ei) as [Hi Li].
  destruct (inbs_nth _ _ _ _ HS Ek) as [Hk Lk].
  pose proof (a_mulc_sound _ c _ Hk) as Hp.
  pose proof (a_add_sound _ _ _ _ Hi Hp) as Hr.
  unfold addmul, add64, mul64.
  rewrite (fits64_int64 _ _ Hp C1), (fits64_int64 _ _ Hr C2).
  split; [|split].
  - apply inbs_upd; assumption.
  - rewrite val21_upd by assumption. ring.
  - apply nth_upd_other; assumption.
Qed.

Lemma a_submul_sound (i k : nat) (c : Z) (S : list Z) (B B' : list bnd) :
  inbs S B -> a_submul i k c B = Some B' ->
  inbs (submul i k c S) B' /\
  val21 (submul i k c S) = val21 S - nth k S 0 * c * 2 ^ (21 * Z.of_nat i) /\
  nth k (submul i k c S) 0 = nth k S 0.
Proof.
  intros HS. unfold a_submul.
  destruct (nth_error B i) as [bi|] eqn:Ei; [|discriminate].
  destruct (nth_error B k) as [bk|] eqn:Ek; [|discriminate].
  destruct (fits64 (a_mulc bk c) && fits64 (a_sub bi (a_mulc bk c)) && negb (i =? k)%nat) eqn:C;
    [|discriminate].
  intros E; injection E as <-.
  apply andb_true_iff in C; destruct C as [C Cne].
  apply andb_true_iff in C; destruct C as [C1 C2].
  apply negb_true_iff, Nat.eqb_neq in Cne.
  destruct (inbs_nth _ _ _ _ HS Ei) as [Hi Li].
  destruct (inbs_nth _ _ _ _ HS Ek) as [Hk Lk].
  pose proof (a_mulc_sound _ c _ Hk) as Hp.
  pose proof (a_sub_sound _ _ _ _ Hi Hp) as Hr.
  unfold submul, sub64, mul64.
  rewrite (fits64_int64 _ _ Hp C1), (fits64_int64 _ _ Hr C2).
  split; [|split].
  - apply inbs_upd; assumption.
  - rewrite val21_upd by assumption. ring.
  - apply nth_upd_other; assumption.
Qed.

(** The six constants are the limbs of [2^252 - l]. *)
Lemma fold_constants :
  666643 + 470296 * 2 ^ 21 + 654183 * 2 ^ 42 - 997805 * 2 ^ 63
  + 136657 * 2 ^ 84 - 683901 * 2 ^ 105 = 2 ^ 252 - l.
Proof. reflexivity. Qed.

(** A fold of limb [k] subtracts a multiple of [l] from the value. *)
Lemma a_fold_sound (k : nat) (S : list Z) (B B' : list bnd) :
  inbs S B -> a_fold k B = Some B' ->
  inbs (fold_limb k S) B' /\
  val21 (fold_limb k S) = val21 S - nth k S 0 * 2 ^ (21 * Z.of_nat (k - 12)) * l.
Proof.
  intros HS. unfold a_fold.
  destruct ((k <? 12)%nat || (length B <=? k)%nat) eqn:G; [discriminate|].
  apply orb_false_iff in G. destruct G as [G1 G2].
  apply Nat.ltb_ge in G1. apply Nat.leb_gt in G2.
  unfold obind.
  destruct (a_addmul (k - 12) k 666643 B) as [B1|] eqn:E1; [|discriminate].
  destruct (a_addmul (k - 11) k 470296 B1) as [B2|] eqn:E2; [|discriminate].
  destruct (a_addmul (k - 10) k 654183 B2) as [B3|] eqn:E3; [|discriminate].
  destruct (a_submul (k - 9) k 997805 B3) as [B4|] eqn:E4; [|discriminate].
  destruct (a_addmul (k - 8) k 136657 B4) as [B5|] eqn:E5; [|discriminate].
  destruct (a_submul (k - 7) k 683901 B5) as [B6|] eqn:E6; [|discriminate].
  intros E; injection E as <-.
  destruct (a_addmul_sound _ _ _ _ _ _ HS E1) as (H1 & V1 & N1).
  destruct (a_addmul_sound _ _ _ _ _ _ H1 E2) as (H2 & V2 & N2).
  destruct (a_addmul_sound _ _ _ _ _ _ H2 E3) as (H3 & V3 & N3).
  destruct (a_submul_sound _ _ _ _ _ _ H3 E4) as (H4 & V4 & N4).
  destruct (a_addmul_sound _ _ _ _ _ _ H4 E5) as (H5 & V5 & N5).
  destruct (a_submul_sound _ _ _ _ _ _ H5 E6) as (H6 & V6 & N6).
  unfold fold_limb. split.
  - apply inbs_upd; [assumption|]. unfold inb; cbn; lia.
  - rewrite val21_upd
      by (unfold addmul, submul; rewrite !length_upd, (inbs_length _ _ HS); exact G2).
    rewrite V6, V5, V4, V3, V2, V1, N6, N5, N4, N3, N2, N1.
    pose proof fold_constants as FC.
    replace (Z.of_nat (k - 11)) with (Z.of_nat (k - 12) + 1) by lia.
    replace (Z.of_nat (k - 10)) with (Z.of_nat (k - 12) + 2) by lia.
    replace (Z.of_nat (k - 9)) with (Z.of_nat (k - 12) + 3) by lia.
    replace (Z.of_nat (k - 8)) with (Z.of_nat (k - 12) + 4) by lia.
    replace (Z.of_nat (k - 7)) with (Z.of_nat (k - 12) + 5) by lia.
    replace (Z.of_nat k) with (Z.of_nat (k - 12) + 12) by lia.
    rewrite !Z.mul_add_distr_l, !Z.pow_add_r by lia.
    set (P := 2 ^ (21 * Z.of_nat (k - 12))). set (x := nth k S 0).
    change (21 * 1) with 21. change (21 * 2) with 42. change (21 * 3) with 63.
    change (21 * 4) with 84. change (21 * 5) with 105. change (21 * 12) with 252.
    replace l with (2 ^ 252 - (2 ^ 252 - l)) by ring. rewrite <- FC. ring.
Qed.

(** *** A carry *)

Lemma carry_residue (x off : Z) :
  let c := Z.shiftr (x + off) 21 in
  x - c * 2 ^ 21 = (x + off) mod 2 ^ 21 - off.
Proof.
  cbv zeta. rewrite Z.shiftr_div_pow2 by lia.
  pose proof (Z.div_mod (x + off) (2 ^ 21) ltac:(lia)). lia.
Qed.

Lemma a_carry_round_sound (i : nat) (S : list Z) (B B' : list bnd) :
  inbs S B -> a_carry (2 ^ 20) (- 2 ^ 20, 2 ^ 20 - 1) i B = Some B' ->
  inbs (carry_round i S) B' /\ val21 (carry_round i S) = val21 S.
Proof.
  intros HS. unfold a_carry.
  destruct (nth_error B i) as [bi|] eqn:Ei; [|discriminate].
  destruct (nth_error B (i + 1)) as [bj|] eqn:Ej; [|discriminate].
  match goal with |- (if ?c then _ else _) = _ -> _ => destruct c eqn:C; [|discriminate] end.
  intros E; injection E as <-.
  apply andb_true_iff in C; destruct C as [C C4].
  apply andb_true_iff in C; destruct C as [C C3].
  apply andb_true_iff in C; destruct C as [C1 C2].
  destruct (inbs_nth _ _ _ _ HS Ei) as [Hi Li].
  destruct (inbs_nth _ _ _ _ HS Ej) as [Hj Lj].
  assert (Hoff : inb (2 ^ 20) (2 ^ 20, 2 ^ 20)) by (unfold inb; cbn; lia).
  pose proof (a_add_sound _ _ _ _ Hi Hoff) as Ha.
  pose proof (a_shr_sound _ 21 _ ltac:(lia) Ha) as Hc.
  pose proof (a_add_sound _ _ _ _ Hj Hc) as Hr.
  pose proof (a_mulc_sound _ (2 ^ 21) _ Hc) as Hsh.
  pose proof (a_sub_sound _ _ _ _ Hi Hsh) as Hd.
  unfold carry_round, add64, sub64, shl64, shr64.
  rewrite (nth_upd_other (i + 1) i) by lia.
  change (int64 (Z.shiftl 1 20)) with (2 ^ 20).
  rewrite (fits64_int64 _ _ Ha C1).
  rewrite (fits64_int64 _ _ Hr C2).
  rewrite Z.shiftl_mul_pow2 by lia.
  rewrite (fits64_int64 _ _ Hsh C3).
  rewrite (fits64_int64 _ _ Hd C4).
  set (c := Z.shiftr (nth i S 0 + 2 ^ 20) 21) in *.
  split.
  - apply inbs_upd; [apply inbs_upd; assumption|].
    unfold c. rewrite (carry_residue (nth i S 0) (2 ^ 20)).
    pose proof (Z.mod_pos_bound (nth i S 0 + 2 ^ 20) (2 ^ 21) ltac:(lia)).
    unfold inb; cbn [fst snd]. lia.
  - rewrite !val21_upd by (rewrite ?length_upd; lia).
    rewrite (nth_upd_other (i + 1) i) by lia.
    rewrite Nat2Z.inj_add. change (Z.of_nat 1) with 1.
    rewrite Z.mul_add_distr_l, Z.pow_add_r by lia. change (21 * 1) with 21. ring.
Qed.

Lemma a_carry_floor_sound (i : nat) (S : list Z) (B B' : list bnd) :
  inbs S B -> a_carry 0 (0, 2 ^ 21 - 1) i B = Some B' ->
  inbs (carry_floor i S) B' /\ val21 (carry_floor i S) = val21 S.
Proof.
  intros HS. unfold a_carry.
  destruct (nth_error B i) as [bi|] eqn:Ei; [|discriminate].
  destruct (nth_error B (i + 1)) as [bj|] eqn:Ej; [|discriminate].
  match goal with |- (if ?c then _ else _) = _ -> _ => destruct c eqn:C; [|discriminate] end.
  intros E; injection E as <-.
  apply andb_true_iff in C; destruct C as [C C4].
  apply andb_true_iff in C; destruct C as [C C3].
  apply andb_true_iff in C; destruct C as [C1 C2].
  destruct (inbs_nth _ _ _ _ HS Ei) as [Hi Li].
  destruct (inbs_nth _ _ _ _ HS Ej) as [Hj Lj].
  assert (Hoff : inb 0 (0, 0)) by (unfold inb; cbn; lia).
  pose proof (a_add_sound _ _ _ _ Hi Hoff) as Ha.
  rewrite Z.add_0_r in Ha.
  pose proof (a_shr_sound _ 21 _ ltac:(lia) Ha) as Hc.
  pose proof (a_add_sound _ _ _ _ Hj Hc) as Hr.
  pose proof (a_mulc_sound _ (2 ^ 21) _ Hc) as Hsh.
  pose proof (a_sub_sound _ _ _ _ Hi Hsh) as Hd.
  unfold carry_floor, add64, sub64, shl64, shr64.
  rewrite (nth_upd_other (i + 1) i) by lia.
  rewrite (fits64_int64 _ _ Hr C2).
  rewrite Z.shiftl_mul_pow2 by lia.
  rewrite (fits64_int64 _ _ Hsh C3).
  rewrite (fits64_int64 _ _ Hd C4).
  set (c := Z.shiftr (nth i S 0) 21) in *.
  split.
  - apply inbs_upd; [apply inbs_upd; assumption|].
    pose proof (carry_residue (nth i S 0) 0) as R. cbv zeta in R.
    rewrite Z.add_0_r in R. fold c in R. rewrite R.
    pose proof (Z.mod_pos_bound (nth i S 0) (2 ^ 21) ltac:(lia)).
    unfold inb; cbn [fst snd]. lia.
  - rewrite !val21_upd by (rewrite ?length_upd; lia).
    rewrite (nth_upd_other (i + 1) i) by lia.
    rewrite Nat2Z.inj_add. change (Z.of_nat 1) with 1.
    rewrite Z.mul_add_distr_l, Z.pow_add_r by lia. change (21 * 1) with 21. ring.
Qed.

(** *** Runs of steps *)

Definition is_carry (o : step) : bool :=
  match o with Fold _ => false | _ => true end.

Lemma a_run_sound (p : list step) : forall (S : list Z) (B B' : list bnd),
  inbs S B -> a_run p B = Some B' ->
  inbs (run p S) B' /\ exists q, val21 (run p S) = val21 S - q * l.
Proof.
  induction p as [|o p IH]; intros S B B' HS E.
  - injection E as <-. split; [assumption|]. exists 0. change (run [] S) with S. lia.
  - cbn [a_run] in E. unfold obind in E.
    destruct (a_exec o B) as [B1|] eqn:E1; [|discriminate].
    assert (H1 : inbs (exec o S) B1 /\ exists q, val21 (exec o S) = val21 S - q * l).
    { destruct o; cbn [a_exec exec] in *.
      - destruct (a_fold_sound _ _ _ _ HS E1) as [H V]. split; [assumption|].
        exists (nth k S 0 * 2 ^ (21 * Z.of_nat (k - 12))). exact V.
      - destruct (a_carry_round_sound _ _ _ _ HS E1) as [H V]. split; [assumption|].
        exists 0. lia.
      - destruct (a_carry_floor_sound _ _ _ _ HS E1) as [H V]. split; [assumption|].
        exists 0. lia. }
    destruct H1 as [H1 [q1 V1]].
    destruct (IH _ _ _ H1 E) as [H2 [q2 V2]].
    split; [exact H2|]. exists (q1 + q2).
    change (run (o :: p) S) with (run p (exec o S)). lia.
Qed.

Lemma a_run_carry_sound (p : list step) : forall (S : list Z) (B B' : list bnd),
  forallb is_carry p = true ->
  inbs S B -> a_run p B = Some B' ->
  inbs (run p S) B' /\ val21 (run p S) = val21 S.
Proof.
  induction p as [|o p IH]; intros S B B' Hp HS E.
  - injection E as <-. split; [assumption|reflexivity].
  - cbn [a_run] in E. unfold obind in E.
    cbn [forallb] in Hp. apply andb_true_iff in Hp. destruct Hp as [Ho Hp].
    destruct (a_exec o B) as [B1|] eqn:E1; [|discriminate].
    assert (H1 : inbs (exec o S) B1 /\ val21 (exec o S) = val21 S).
    { destruct o; cbn [a_exec exec is_carry] in *; [discriminate| |].
      - apply (a_carry_round_sound _ _ _ _ HS E1).
      - apply (a_carry_floor_sound _ _ _ _ HS E1). }
    destruct H1 as [H1 V1].
    destruct (IH _ _ _ Hp H1 E) as [H2 V2].
    split; [exact H2|].
    change (run (o :: p) S) with (run p (exec o S)). lia.
Qed.

(** ** The wide reduction: reading the limbs *)

Lemma le_combine_skipn (k : nat) : forall a : list byte,
  le_combine (skipn k a) = le_combine a / 2 ^ (8 * Z.of_nat k).
Proof.
  induction k as [|k IH]; intros a.
  - cbn [skipn]. change (2 ^ (8 * Z.of_nat 0)) with 1. now rewrite Z.div_1_r.
  - destruct a as [|x t].
    + cbn [skipn]. change (le_combine []) with 0. now rewrite Z.div_0_l by (apply Z.pow_nonzero; lia).
    + cbn [skipn]. rewrite IH, le_combine_cons.
      rewrite Nat2Z.inj_succ.
      replace (8 * Z.succ (Z.of_nat k)) with (8 + 8 * Z.of_nat k) by lia.
      rewrite Z.pow_add_r, <- Z.div_div by lia.
      f_equal. pose proof (byte_range x). change (2 ^ 8) with 256.
      apply Z.div_unique with (r := byte.unsigned x); lia.
Qed.

Lemma shl64_byte (b : byte) (n : Z) :
  0 <= n <= 24 -> shl64 (byte.unsigned b) n = byte.unsigned b * 2 ^ n.
Proof.
  intros Hn. unfold shl64. rewrite Z.shiftl_mul_pow2 by lia.
  apply int64_small. pose proof (byte_range b).
  assert (0 < 2 ^ n <= 2 ^ 24) by (split; [apply Z.pow_pos_nonneg; lia|apply Z.pow_le_mono_r; lia]).
  change (2 ^ 24) with 16777216 in *. change (2 ^ 63) with 9223372036854775808. nia.
Qed.

Lemma load3_spec (a : list byte) :
  (3 <= length a)%nat -> load3 a = le_combine a mod 2 ^ 24.
Proof.
  destruct a as [|b0 [|b1 [|b2 t]]]; cbn [length]; try lia. intros _.
  change (2 ^ 24) with (2 ^ (8 * Z.of_nat 3)). rewrite <- le_combine_firstn.
  cbn [firstn]. rewrite !le_combine_cons. change (le_combine []) with 0.
  unfold load3, at_. cbn [nth]. rewrite !shl64_byte by lia.
  pose proof (byte_range b0). pose proof (byte_range b1). pose proof (byte_range b2).
  rewrite <- !Z.shiftl_mul_pow2 by lia.
  rewrite (lor_shiftl_add (byte.unsigned b0)) by lia.
  rewrite lor_shiftl_add; lia.
Qed.

Lemma load4_spec (a : list byte) :
  (4 <= length a)%nat -> load4 a = le_combine a mod 2 ^ 32.
Proof.
  destruct a as [|b0 [|b1 [|b2 [|b3 t]]]]; cbn [length]; try lia. intros _.
  change (2 ^ 32) with (2 ^ (8 * Z.of_nat 4)). rewrite <- le_combine_firstn.
  cbn [firstn]. rewrite !le_combine_cons. change (le_combine []) with 0.
  unfold load4, at_. cbn [nth]. rewrite !shl64_byte by lia.
  pose proof (byte_range b0). pose proof (byte_range b1). pose proof (byte_range b2).
  pose proof (byte_range b3).
  rewrite <- !Z.shiftl_mul_pow2 by lia.
  rewrite (lor_shiftl_add (byte.unsigned b0)) by lia.
  rewrite (lor_shiftl_add (byte.unsigned b0 + _)) by lia.
  rewrite lor_shiftl_add; lia.
Qed.

(** A window of 21 bits inside the bytes a load has read. *)
Lemma window21 (Q m sh : Z) :
  0 <= sh -> sh + 21 <= m ->
  Z.land 2097151 (shr64 (Q mod 2 ^ m) sh) = (Q / 2 ^ sh) mod 2 ^ 21.
Proof.
  intros Hsh Hm. unfold shr64.
  change 2097151 with (Z.ones 21).
  rewrite Z.land_comm, Z.land_ones by lia.
  rewrite <- Z.shiftr_div_pow2 by lia.
  rewrite <- !Z.land_ones by lia.
  Z.bitblast.
Qed.

Lemma limb_at (a : list byte) (m : Z) (k i : nat) (sh : Z) :
  0 <= sh -> sh + 21 <= m ->
  8 * Z.of_nat k + sh = 21 * Z.of_nat i ->
  Z.land 2097151 (shr64 ((le_combine a / 2 ^ (8 * Z.of_nat k)) mod 2 ^ m) sh)
  = (le_combine a / 2 ^ (21 * Z.of_nat i)) mod 2 ^ 21.
Proof.
  intros Hsh Hm E. rewrite window21 by assumption.
  rewrite Z.div_div, <- Z.pow_add_r, E by (try apply Z.pow_pos_nonneg; lia).
  reflexivity.
Qed.

(** The limbs of a non-negative integer: 23 of 21 bits and the rest. *)
Definition limbs_of (W : Z) : list Z :=
  map (fun i => (W / 2 ^ (21 * Z.of_nat i)) mod 2 ^ 21) (seq 0 23)
  ++ [W / 2 ^ (21 * Z.of_nat 23)].

Lemma scReduce_load_spec (a : list byte) :
  length a = 64%nat -> scReduce_load a = limbs_of (le_combine a).
Proof.
  intros L.
  assert (B : 0 <= le_combine a < 2 ^ 512).
  { pose proof (le_combine_lt a) as H. rewrite L in H. exact H. }
  unfold scReduce_load.
  change (load3 a) with (shr64 (load3 (skipn 0 a)) 0).
  change (load3 (skipn 21 a)) with (shr64 (load3 (skipn 21 a)) 0).
  change (load3 (skipn 42 a)) with (shr64 (load3 (skipn 42 a)) 0).
  rewrite !load3_spec, !load4_spec by (rewrite length_skipn, L; cbn; lia).
  rewrite !le_combine_skipn.
  unfold limbs_of. cbn [seq map app].
  repeat (f_equal; [apply limb_at; lia|]).
  f_equal. unfold shr64. rewrite Z.shiftr_div_pow2 by lia.
  rewrite Z.mod_small.
  - rewrite Z.div_div by lia. reflexivity.
  - split; [apply Z.div_pos; lia|].
    apply Z.div_lt_upper_bound; [lia|]. change (2 ^ (8 * Z.of_nat 60) * 2 ^ 32) with (2 ^ 512). lia.
Qed.

Lemma val21_app (a b : list Z) :
  val21 (a ++ b) = val21 a + 2 ^ (21 * Z.of_nat (length a)) * val21 b.
Proof.
  induction a as [|x t IH].
  - change (val21 ([] ++ b)) with (val21 b). change (val21 []) with 0.
    change (2 ^ (21 * Z.of_nat (length (@nil Z)))) with 1. lia.
  - cbn [app length val21 fold_right]. fold (val21 (t ++ b)). fold (val21 t).
    rewrite IH, Nat2Z.inj_succ.
    replace (21 * Z.succ (Z.of_nat (length t))) with (21 + 21 * Z.of_nat (length t)) by lia.
    rewrite Z.pow_add_r by lia. ring.
Qed.

Lemma val21_limbs (W : Z) (n : nat) :
  val21 (map (fun i => (W / 2 ^ (21 * Z.of_nat i)) mod 2 ^ 21) (seq 0 n))
  + 2 ^ (21 * Z.of_nat n) * (W / 2 ^ (21 * Z.of_nat n)) = W.
Proof.
  induction n as [|n IH].
  - cbn [seq map val21 fold_right]. change (2 ^ (21 * Z.of_nat 0)) with 1.
    rewrite Z.div_1_r. lia.
  - rewrite seq_S, map_app, val21_app, length_map, length_seq. cbn [Nat.add map].
    cbn [val21 fold_right].
    rewrite Nat2Z.inj_succ.
    replace (21 * Z.succ (Z.of_nat n)) with (21 * Z.of_nat n + 21) by lia.
    rewrite Z.pow_add_r, <- Z.div_div by (try apply Z.pow_pos_nonneg; lia).
    set (P := 2 ^ (21 * Z.of_nat n)) in *. set (q := W / P) in *.
    pose proof (Z.div_mod q (2 ^ 21) ltac:(lia)). nia.
Qed.

Lemma val21_limbs_of (W : Z) : val21 (limbs_of W) = W.
Proof.
  unfold limbs_of. rewrite val21_app, length_map, length_seq.
  cbn [val21 fold_right]. rewrite Z.mul_0_r, Z.add_0_r. apply val21_limbs.
Qed.

(** The intervals of the limbs just read. *)
Definition bounds_in : list bnd := repeat (0, 2 ^ 21 - 1) 23 ++ [(0, 2 ^ 29 - 1)].

Lemma limbs_of_bounds (W : Z) : 0 <= W < 2 ^ 512 -> inbs (limbs_of W) bounds_in.
Proof.
  intros HW. unfold limbs_of, bounds_in. apply Forall2_app.
  - cbn [seq map repeat].
    repeat (constructor;
            [unfold inb; cbn [fst snd];
             match goal with |- _ <= ?x mod ?m <= _ => pose proof (Z.mod_pos_bound x m ltac:(lia)) end;
             lia|]).
    constructor.
  - constructor; [|constructor]. unfold inb; cbn [fst snd]. split.
    + apply Z.div_pos; lia.
    + assert (W / 2 ^ (21 * Z.of_nat 23) < 2 ^ 29); [|lia].
      apply Z.div_lt_upper_bound; [lia|].
      change (2 ^ (21 * Z.of_nat 23) * 2 ^ 29) with (2 ^ 512). lia.
Qed.

(** ** The wide reduction: writing the bytes *)

Lemma byte_of_Z_mod (a b : Z) : a mod 256 = b mod 256 -> byte.of_Z a = byte.of_Z b.
Proof.
  intros E. apply byte.unsigned_inj. rewrite !byte.unsigned_of_Z. exact E.
Qed.

Lemma shiftr_drop_limb (x T n : Z) :
  0 <= x < 2 ^ 21 -> 21 <= n ->
  Z.shiftr (x + 2 ^ 21 * T) n = Z.shiftr T (n - 21).
Proof.
  intros Hx Hn. rewrite !Z.shiftr_div_pow2 by lia.
  replace n with (21 + (n - 21)) at 1 by lia.
  rewrite Z.pow_add_r, <- Z.div_div by (try apply Z.pow_pos_nonneg; lia).
  f_equal. symmetry. apply Z.div_unique with (r := x); lia.
Qed.

(** A byte that lies inside one limb. *)
Lemma byte_inside (x T a n : Z) :
  n = a -> 0 <= a -> a + 8 <= 21 ->
  (shr64 x a) mod 256 = (Z.shiftr (x + 2 ^ 21 * T) n) mod 256.
Proof.
  intros -> Ha Hb. unfold shr64. rewrite !Z.shiftr_div_pow2 by lia.
  replace (2 ^ 21 * T) with (2 ^ (21 - a - 8) * T * 256 * 2 ^ a).
  - rewrite Z.div_add by (apply Z.pow_nonzero; lia).
    rewrite Z.mod_add by lia. reflexivity.
  - assert (E : 2 ^ 21 = 2 ^ (21 - a - 8) * 2 ^ 8 * 2 ^ a).
    { rewrite <- !Z.pow_add_r by lia. f_equal. lia. }
    rewrite E. change (2 ^ 8) with 256. ring.
Qed.

(** A byte that straddles two limbs. *)
Lemma byte_across (x y T a b n : Z) :
  n = a -> a + b = 21 -> 13 < a -> 0 < b ->
  0 <= x < 2 ^ 21 -> 0 <= y < 2 ^ 22 ->
  (Z.lor (shr64 x a) (shl64 y b)) mod 256
  = (Z.shiftr (x + 2 ^ 21 * (y + 2 ^ 21 * T)) n) mod 256.
Proof.
  intros -> Hab Ha Hb Hx Hy. unfold shr64, shl64.
  assert (P : 2 ^ 21 = 2 ^ b * 2 ^ a) by (rewrite <- Z.pow_add_r by lia; f_equal; lia).
  assert (Pa : 0 < 2 ^ a) by (apply Z.pow_pos_nonneg; lia).
  assert (Pb : 0 < 2 ^ b <= 2 ^ 8) by (split; [apply Z.pow_pos_nonneg; lia|apply Z.pow_le_mono_r; lia]).
  rewrite Z.shiftl_mul_pow2 by lia.
  rewrite int64_small by (change (2 ^ 63) with 9223372036854775808; change (2 ^ 22) with 4194304 in Hy;
                          change (2 ^ 8) with 256 in Pb; nia).
  rewrite <- Z.shiftl_mul_pow2 by lia.
  rewrite lor_shiftl_add.
  2: lia.
  2: { rewrite Z.shiftr_div_pow2 by lia. split; [apply Z.div_pos; lia|].
       apply Z.div_lt_upper_bound; lia. }
  rewrite !Z.shiftr_div_pow2 by lia.
  replace (x + 2 ^ 21 * (y + 2 ^ 21 * T)) with (x + (y * 2 ^ b + 2 ^ (b + 13) * T * 256) * 2 ^ a).
  - rewrite Z.div_add by lia.
    replace (x / 2 ^ a + (y * 2 ^ b + 2 ^ (b + 13) * T * 256))
      with (x / 2 ^ a + y * 2 ^ b + (2 ^ (b + 13) * T) * 256) by ring.
    rewrite Z.mod_add by lia. reflexivity.
  - assert (Q : 2 ^ 21 * 2 ^ 21 = 2 ^ (b + 13) * 256 * 2 ^ a).
    { change 256 with (2 ^ 8). rewrite <- !Z.pow_add_r by lia. f_equal. lia. }
    replace (x + 2 ^ 21 * (y + 2 ^ 21 * T)) with (x + 2 ^ 21 * y + (2 ^ 21 * 2 ^ 21) * T) by ring.
    rewrite Q, P. ring.
Qed.

Lemma byte_first (x T : Z) : x mod 256 = (x + 2 ^ 21 * T) mod 256.
Proof.
  replace (x + 2 ^ 21 * T) with (x + (8192 * T) * 256)
    by (change (2 ^ 21) with (8192 * 256); ring).
  symmetry. apply Z.mod_add. lia.
Qed.

Lemma le_split_succ (n : nat) (w : Z) :
  le_split (S n) w = byte.of_Z w :: le_split n (Z.shiftr w 8).
Proof. reflexivity. Qed.

Ltac drop_limbs :=
  repeat match goal with
         | |- context [Z.shiftr (?x + 2 ^ 21 * ?T) ?n] =>
             rewrite (shiftr_drop_limb x T n) by lia
         end.

Lemma scReduce_store_spec (x0 x1 x2 x3 x4 x5 x6 x7 x8 x9 x10 x11 : Z) (rest : list Z) :
  0 <= x0 < 2 ^ 21 -> 0 <= x1 < 2 ^ 21 -> 0 <= x2 < 2 ^ 21 -> 0 <= x3 < 2 ^ 21 ->
  0 <= x4 < 2 ^ 21 -> 0 <= x5 < 2 ^ 21 -> 0 <= x6 < 2 ^ 21 -> 0 <= x7 < 2 ^ 21 ->
  0 <= x8 < 2 ^ 21 -> 0 <= x9 < 2 ^ 21 -> 0 <= x10 < 2 ^ 21 -> 0 <= x11 < 2 ^ 22 ->
  scReduce_store (x0 :: x1 :: x2 :: x3 :: x4 :: x5 :: x6 :: x7 :: x8 :: x9 :: x10 :: x11 :: rest)
  = le_split 32 (val21 [x0; x1; x2; x3; x4; x5; x6; x7; x8; x9; x10; x11]).
Proof.
  intros H0 H1 H2 H3 H4 H5 H6 H7 H8 H9 H10 H11.
  unfold scReduce_store. cbn [nth].
  rewrite !le_split_succ. change (le_split 0 _) with (@nil byte).
  rewrite !Z.shiftr_shiftr by lia.
  unfold val21. cbn [fold_right].
  f_equal.
  { apply byte_of_Z_mod. change (shr64 x0 0) with x0. apply byte_first. }
  repeat (f_equal;
          [apply byte_of_Z_mod; drop_limbs;
           first [ apply byte_inside; lia | apply byte_across; lia ] | ]).
  f_equal. apply byte_of_Z_mod. drop_limbs.
  rewrite Z.mul_0_r, Z.add_0_r. unfold shr64. f_equal; try f_equal; lia.
Qed.

(** ** The wide reduction: the whole routine *)

(** The steps before and after the last fold of limb 12. *)
Definition steps_pre : list step := firstn 48 scReduce_steps.
Definition steps_post : list step := skipn 49 scReduce_steps.

Lemma scReduce_steps_split : scReduce_steps = steps_pre ++ Fold 12 :: steps_post.
Proof. reflexivity. Qed.

(** Before the last fold the limbs 0..11 are reduced and limb 12 is 0 or -1. *)
Definition bounds_mid : list bnd :=
  repeat (0, 2 ^ 21 - 1) 12 ++ [(-1, 0)] ++ repeat (0, 0) 11.

Definition bounds_folded : list bnd :=
  [(-666643, 2097151); (-470296, 2097151); (-654183, 2097151); (0, 3094956);
   (-136657, 2097151); (0, 2781052)] ++ repeat (0, 2 ^ 21 - 1) 6 ++ repeat (0, 0) 12.

Definition bounds_out : list bnd :=
  repeat (0, 2 ^ 21 - 1) 11 ++ [(-1, 2 ^ 21)] ++ repeat (0, 0) 12.

Lemma a_run_pre : a_run steps_pre bounds_in = Some bounds_mid.
Proof. vm_compute. reflexivity. Qed.

Lemma a_fold_mid : a_fold 12 bounds_mid = Some bounds_folded.
Proof. vm_compute. reflexivity. Qed.

Lemma a_run_post : a_run steps_post bounds_folded = Some bounds_out.
Proof. vm_compute. reflexivity. Qed.

Lemma run_app (p q : list step) (S : list Z) : run (p ++ q) S = run q (run p S).
Proof. apply fold_left_app. Qed.

Lemma run_cons (o : step) (p : list step) (S : list Z) :
  run (o :: p) S = run p (exec o S).
Proof. reflexivity. Qed.

Lemma inbs_cons_inv (S : list Z) (b : bnd) (B : list bnd) :
  inbs S (b :: B) -> exists x S', S = x :: S' /\ inb x b /\ inbs S' B.
Proof. intros H. inversion H; subst. eauto. Qed.

Lemma inbs_nil_inv (S : list Z) : inbs S [] -> S = [].
Proof. intros H. inversion H. reflexivity. Qed.

Ltac split_limbs H :=
  repeat match type of H with
         | inbs _ (_ :: _) =>
             let x := fresh "x" in
             let S' := fresh "S" in
             let E := fresh "E" in
             let Hx := fresh "Hx" in
             apply inbs_cons_inv in H; destruct H as (x & S' & E & Hx & H);
             subst; unfold inb in Hx; cbn [fst snd] in Hx
         | inbs _ [] => apply inbs_nil_inv in H; subst
         end.

(** From the state before the last fold to the output bytes. *)
Lemma scReduce_tail (S1 : list Z) :
  inbs S1 bounds_mid ->
  let S3 := run steps_post (fold_limb 12 S1) in
  val21 S3 = val21 S1 - nth 12 S1 0 * l /\
  0 <= val21 S3 < l /\
  scReduce_store S3 = le_split 32 (val21 S3).
Proof.
  intros H1 S3.
  destruct (a_fold_sound _ _ _ _ H1 a_fold_mid) as [H2 V2].
  destruct (a_run_carry_sound steps_post _ _ _ eq_refl H2 a_run_post) as [H3 V3].
  fold S3 in H3, V3. clearbody S3.
  change (2 ^ (21 * Z.of_nat (12 - 12))) with 1 in V2. rewrite Z.mul_1_r in V2.
  assert (R : 0 <= val21 S3 < l).
  { rewrite V3, V2. clear - H1.
    unfold bounds_mid in H1. cbn [repeat app] in H1.
    split_limbs H1. cbn [nth].
    unfold val21. cbn [fold_right]. unfold l. lia. }
  split; [congruence|]. split; [exact R|].
  clear - H3 R.
  unfold bounds_out in H3. cbn [repeat app] in H3.
  split_limbs H3.
  assert (V : val21 [x; x0; x1; x2; x3; x4; x5; x6; x7; x8; x9; x10;
                     x11; x12; x13; x14; x15; x16; x17; x18; x19; x20; x21; x22]
              = val21 [x; x0; x1; x2; x3; x4; x5; x6; x7; x8; x9; x10]).
  { unfold val21; cbn [fold_right]. lia. }
  rewrite V in *.
  apply scReduce_store_spec; try lia.
  unfold val21 in R; cbn [fold_right] in R. unfold l in R. lia.
Qed.

Lemma scReduce_limbs (W : Z) :
  0 <= W < 2 ^ 512 ->
  scReduce_store (run scReduce_steps (limbs_of W)) = le_split 32 (W mod l).
Proof.
  intros HW.
  pose proof (limbs_of_bounds W HW) as H0.
  pose proof (val21_limbs_of W) as V0.
  rewrite scReduce_steps_split, run_app, run_cons.
  destruct (a_run_sound _ _ _ _ H0 a_run_pre) as [H1 [q V1]].
  generalize dependent (run steps_pre (limbs_of W)). intros S1 H1 V1.
  change (exec (Fold 12) S1) with (fold_limb 12 S1).
  destruct (scReduce_tail S1 H1) as (V3 & R & E).
  rewrite E. f_equal.
  apply Z.mod_unique with (q := q + nth 12 S1 0); [lia|].
  rewrite V3, V1, V0. ring.
Qed.

Lemma scReduce_spec (a : list byte) :
  length a = 64%nat -> scReduce a = le_split 32 (le_combine a mod l).
Proof.
  intros L. unfold scReduce. rewrite scReduce_load_spec by exact L.
  apply scReduce_limbs.
  pose proof (le_combine_lt a) as H. rewrite L in H. exact H.
Qed.

Lemma l_lt_256 : l < 2 ^ (Z.of_nat 32 * 8).
Proof. reflexivity. Qed.

Lemma le_combine_scReduce (a : list byte) :
  length a = 64%nat -> le_combine (scReduce a) = le_combine a mod l.
Proof.
  intros L. rewrite scReduce_spec by exact L. rewrite le_combine_split.
  apply Z.mod_small. pose proof (Z.mod_pos_bound (le_combine a) l l_pos).
  pose proof l_lt_256. lia.
Qed.

Lemma Scalar_Bytes_lift (r : list byte) :
  length r = 32%nat -> le_combine r < l ->
  Scalar_Bytes (mkScalar (fiat_sc255_to_montgomery (fiat_sc255_from_bytes r))) = r.
Proof.
  intros L R. unfold Scalar_Bytes, Scalar_bytes; cbn [s].
  unfold fiat_sc255_from_bytes, fiat_sc255_to_bytes. rewrite from_to_montgomery.
  rewrite Z.mod_small by (pose proof (le_combine_lt r); lia).
  rewrite <- L. apply split_le_combine.
Qed.

(** C1: on every 64-byte input [scReduce] writes the canonical 32-byte
    little-endian encoding of the input integer reduced modulo [l], and
    [SetUniformBytes] succeeds and leaves in the receiver the scalar whose
    [Bytes] are that encoding. *)
Theorem SetUniformBytes_reduces (sp : ptr) (x : list byte) (h : Heap Scalar) :
  length x = 64%nat ->
  scReduce x = le_split 32 (le_combine x mod l) /\
  length (scReduce x) = 32%nat /\
  le_combine (scReduce x) = le_combine x mod l /\
  exists h',
    Scalar_SetUniformBytes sp x h = (Some sp, None, h') /\
    Scalar_Bytes (load sp h') = scReduce x /\
    le_combine (Scalar_Bytes (load sp h')) = le_combine x mod l.
Proof.
  intros L.
  pose proof (scReduce_spec x L) as E.
  pose proof (le_combine_scReduce x L) as V.
  assert (L32 : length (scReduce x) = 32%nat) by (rewrite E; apply length_le_split).
  repeat split; try assumption.
  unfold Scalar_SetUniformBytes. rewrite L. cbn [Nat.eqb negb].
  rewrite copy_same_length by (rewrite L; reflexivity).
  eexists. split; [reflexivity|].
  rewrite load_store_same.
  assert (B : Scalar_Bytes (mkScalar (fiat_sc255_to_montgomery (fiat_sc255_from_bytes (scReduce x))))
              = scReduce x).
  { apply Scalar_Bytes_lift; [exact L32|]. rewrite V. apply Z.mod_pos_bound, l_pos. }
  rewrite B. split; [reflexivity|exact V].
Qed.

Definition input64 : list byte :=
  map (fun i => byte.of_Z (Z.of_nat i * 37 + 11)) (seq 0 64).

Lemma SetUniformBytes_reduces_witness :
  length input64 = 64%nat /\
  scReduce input64 = le_split 32 (le_combine input64 mod l).
Proof.
  split; [reflexivity|].
  exact (proj1 (SetUniformBytes_reduces 0%nat input64 (mkHeap 1 (fun _ => Scalar_zero)) eq_refl)).
Defined.

(** ** Clamped decoding *)

(** The clamping as the spec words it, on the 32 input bytes:
    [byte[0] &= 0xF8; byte[31] &= 0x3F; byte[31] |= 0x40]. *)
Definition clamp_spec (x : list byte) : list byte :=
  let x := upd 0 (byte.of_Z (Z.land (at_ x 0) 0xF8)) x in
  let x := upd 31 (byte.of_Z (Z.land (at_ x 31) 0x3F)) x in
  upd 31 (byte.of_Z (Z.lor (at_ x 31) 0x40)) x.

(** The clamped bytes as the low half of a 64-byte buffer whose high half
    is zero. *)
Definition clamp_wide_spec (x : list byte) : list byte :=
  clamp_spec x ++ repeat Byte.x00 32.

Ltac destruct_list x n :=
  lazymatch n with
  | O => destruct x as [|? ?]; [|discriminate]
  | S ?m => destruct x as [|? x]; [discriminate|]; destruct_list x m
  end.

Lemma clamp_wide_code (x : list byte) :
  length x = 32%nat ->
  or_at 31 64 (and_at 31 63 (and_at 0 248 (copy (repeat Byte.x00 64) x)))
  = clamp_wide_spec x.
Proof.
  intros L.
  do 32 (destruct x as [|? x]; [discriminate|]).
  destruct x; [|discriminate].
  reflexivity.
Qed.

Lemma length_clamp_spec (x : list byte) : length (clamp_spec x) = length x.
Proof. unfold clamp_spec. now rewrite !length_upd. Qed.

(** C8: on a 32-byte input [SetBytesWithClamping] clamps a copy of the
    input with the three masks, reduces the clamped bytes, extended by 32
    zero bytes, with [scReduce] and lifts the result into the receiver,
    which then denotes the clamped integer modulo [l]; the input value is
    not changed; on any other length it returns nil and an error and the
    heap, so the receiver, is unchanged. *)
Theorem SetBytesWithClamping_spec (sp : ptr) (x : list byte) (h : Heap Scalar) :
  (length x = 32%nat ->
   Scalar_SetBytesWithClamping sp x h
   = (Some sp, None,
      store sp (mkScalar (fiat_sc255_to_montgomery
                            (fiat_sc255_from_bytes (scReduce (clamp_wide_spec x))))) h) /\
   length (clamp_wide_spec x) = 64%nat /\
   le_combine (clamp_wide_spec x) = le_combine (clamp_spec x) /\
   forall h', snd (Scalar_SetBytesWithClamping sp x h) = h' ->
     Scalar_Bytes (load sp h') = le_split 32 (le_combine (clamp_spec x) mod l) /\
     Scalar_value (load sp h') = le_combine (clamp_spec x) mod l) /\
  (length x <> 32%nat ->
   Scalar_SetBytesWithClamping sp x h
   = (None, Some "edwards25519: invalid SetBytesWithClamping input length"%string, h)).
Proof.
  split; intros L.
  - assert (L64 : length (clamp_wide_spec x) = 64%nat).
    { unfold clamp_wide_spec. rewrite length_app, length_clamp_spec, L. reflexivity. }
    assert (V : le_combine (clamp_wide_spec x) = le_combine (clamp_spec x)).
    { apply le_combine_app_0. }
    assert (E : Scalar_SetBytesWithClamping sp x h
                = (Some sp, None,
                   store sp (mkScalar (fiat_sc255_to_montgomery
                     (fiat_sc255_from_bytes (scReduce (clamp_wide_spec x))))) h)).
    { unfold Scalar_SetBytesWithClamping. rewrite L. cbn [Nat.eqb negb].
      rewrite clamp_wide_code by exact L. reflexivity. }
    repeat split; try assumption.
    + subst h'. rewrite E. cbn [snd]. rewrite load_store_same.
      rewrite Scalar_Bytes_lift.
      * rewrite scReduce_spec by exact L64. now rewrite V.
      * rewrite scReduce_spec by exact L64. apply length_le_split.
      * rewrite le_combine_scReduce by exact L64. apply Z.mod_pos_bound, l_pos.
    + subst h'. rewrite E. cbn [snd]. rewrite load_store_same.
      unfold Scalar_value; cbn [s]. unfold fiat_sc255_from_bytes.
      rewrite from_to_montgomery, le_combine_scReduce by exact L64.
      rewrite Z.mod_mod by (pose proof l_pos; lia). now rewrite V.
  - unfold Scalar_SetBytesWithClamping.
    destruct (Nat.eqb_spec (length x) 32); [contradiction|reflexivity].
Qed.

Definition input32 : list byte :=
  map (fun i => byte.of_Z (Z.of_nat i * 91 + 200)) (seq 0 32).

Lemma SetBytesWithClamping_spec_witness :
  length input32 = 32%nat /\
  Scalar_SetBytesWithClamping 0%nat input32 (mkHeap 1 (fun _ => Scalar_zero))
  = (Some 0%nat, None,
     store 0%nat (mkScalar (fiat_sc255_to_montgomery
       (fiat_sc255_from_bytes (scReduce (clamp_wide_spec input32)))))
       (mkHeap 1 (fun _ => Scalar_zero))).
Proof.
  split; [reflexivity|].
  exact (proj1 (proj1 (SetBytesWithClamping_spec 0%nat input32
                         (mkHeap 1 (fun _ => Scalar_zero))) eq_refl)).
Defined.

(** ** Signed digits *)

(** The integer a list of digits denotes in radix [r]: the sum of
    [digit[i] * r^i]. *)
Definition digits_value (r : Z) (d : list Z) : Z :=
  fold_right (fun x acc => x + r * acc) 0 d.

Lemma digits_value_upd (r : Z) (i : nat) (v : Z) (d : list Z) :
  (i < length d)%nat ->
  digits_value r (upd i v d) = digits_value r d + (v - nth i d 0) * r ^ Z.of_nat i.
Proof.
  revert i; induction d as [|x t IH]; intros [|i] H; cbn [length] in H; try lia.
  - cbn [upd nth digits_value fold_right]. change (r ^ Z.of_nat 0) with 1. lia.
  - cbn [upd nth digits_value fold_right]. fold (digits_value r (upd i v t)).
    fold (digits_value r t). rewrite IH by lia.
    rewrite Nat2Z.inj_succ, Z.pow_succ_r by lia. ring.
Qed.

Lemma digits_value_app (r : Z) (a b : list Z) :
  digits_value r (a ++ b) = digits_value r a + r ^ Z.of_nat (length a) * digits_value r b.
Proof.
  induction a as [|x t IH].
  - change (digits_value r ([] ++ b)) with (digits_value r b).
    change (digits_value r []) with 0. change (r ^ Z.of_nat (length (@nil Z))) with 1. lia.
  - cbn [app length digits_value fold_right]. fold (digits_value r (t ++ b)).
    fold (digits_value r t). rewrite IH, Nat2Z.inj_succ, Z.pow_succ_r by lia. ring.
Qed.

Lemma digits_value_zeros (r : Z) (n : nat) : digits_value r (repeat 0 n) = 0.
Proof.
  induction n as [|n IH]; [reflexivity|].
  cbn [repeat digits_value fold_right]. fold (digits_value r (repeat 0 n)). rewrite IH. lia.
Qed.

(** *** Arrays *)

Lemma get_ok {A : Type} (a : list A) (i : nat) (d : A) :
  (i < length a)%nat -> get a (Z.of_nat i) = Ok (nth i a d).
Proof.
  intros H. unfold get.
  destruct (Z.leb_spec 0 (Z.of_nat i)); [|lia].
  destruct (Z.ltb_spec (Z.of_nat i) (Z.of_nat (length a))); [|lia].
  cbn [andb]. rewrite Nat2Z.id.
  destruct (nth_error a i) eqn:E.
  - f_equal. symmetry. now apply nth_error_nth.
  - apply nth_error_None in E. lia.
Qed.

Lemma set_ok {A : Type} (a : list A) (i : nat) (v : A) :
  (i < length a)%nat -> set a (Z.of_nat i) v = Ok (upd i v a).
Proof.
  intros H. unfold set.
  destruct (Z.leb_spec 0 (Z.of_nat i)); [|lia].
  destruct (Z.ltb_spec (Z.of_nat i) (Z.of_nat (length a))); [|lia].
  cbn [andb]. now rewrite Nat2Z.id.
Qed.

Lemma get_panic {A : Type} (a : list A) (i : Z) :
  i < 0 \/ Z.of_nat (length a) <= i -> get a i = Panic index_error.
Proof.
  intros H. unfold get.
  destruct (Z.leb_spec 0 i); destruct (Z.ltb_spec i (Z.of_nat (length a))); cbn [andb];
    try reflexivity; lia.
Qed.

Lemma upd_app_here {A : Type} (a : list A) (x v : A) (t : list A) :
  upd (length a) v (a ++ x :: t) = a ++ v :: t.
Proof. induction a as [|y a IH]; cbn; [reflexivity|now rewrite IH]. Qed.

(** *** The unsigned radix-16 digits *)

Definition nibbles (b : list byte) : list Z :=
  flat_map (fun x => [byte.unsigned x mod 16; byte.unsigned x / 16]) b.

Lemma length_nibbles (b : list byte) : length (nibbles b) = (2 * length b)%nat.
Proof.
  induction b as [|x t IH]; [reflexivity|].
  cbn [nibbles flat_map app length]. fold (nibbles t). rewrite IH. lia.
Qed.

Lemma nibbles_snoc (b : list byte) (x : byte) :
  nibbles (b ++ [x]) = nibbles b ++ [byte.unsigned x mod 16; byte.unsigned x / 16].
Proof. unfold nibbles. rewrite flat_map_app. cbn [flat_map app]. reflexivity. Qed.

Lemma digits_value_nibbles (b : list byte) : digits_value 16 (nibbles b) = le_combine b.
Proof.
  induction b as [|x t IH]; [reflexivity|].
  rewrite le_combine_cons. cbn [nibbles flat_map app digits_value fold_right].
  fold (nibbles t). fold (digits_value 16 (nibbles t)). rewrite IH.
  pose proof (Z.div_mod (byte.unsigned x) 16 ltac:(lia)). lia.
Qed.

Lemma nibbles_range (b : list byte) : Forall (fun v => 0 <= v <= 15) (nibbles b).
Proof.
  induction b as [|x t IH]; [constructor|].
  cbn [nibbles flat_map app]. pose proof (byte_range x).
  constructor; [pose proof (Z.mod_pos_bound (byte.unsigned x) 16 ltac:(lia)); lia|].
  constructor; [|exact IH].
  split; [apply Z.div_pos; lia|].
  assert (byte.unsigned x / 16 < 16) by (apply Z.div_lt_upper_bound; lia). lia.
Qed.

Lemma low_nibble (x : byte) : int8 (Z.land (byte.unsigned x) 15) = byte.unsigned x mod 16.
Proof.
  change 15 with (Z.ones 4). rewrite Z.land_ones by lia. change (2 ^ 4) with 16.
  apply int8_small. pose proof (Z.mod_pos_bound (byte.unsigned x) 16 ltac:(lia)). lia.
Qed.

Lemma high_nibble (x : byte) :
  int8 (Z.land (Z.shiftr (byte.unsigned x) 4) 15) = byte.unsigned x / 16.
Proof.
  change 15 with (Z.ones 4). rewrite Z.land_ones, Z.shiftr_div_pow2 by lia.
  change (2 ^ 4) with 16. pose proof (byte_range x).
  assert (0 <= byte.unsigned x / 16 < 16).
  { split; [apply Z.div_pos; lia|apply Z.div_lt_upper_bound; lia]. }
  rewrite Z.mod_small by lia. apply int8_small. lia.
Qed.

Lemma radix16_split_spec (b : list byte) (n : nat) :
  (n <= length b)%nat -> (n <= 32)%nat ->
  radix16_split n b (repeat 0 64)
  = Ok (nibbles (firstn n b) ++ repeat 0 (64 - 2 * n)).
Proof.
  induction n as [|n IH]; intros Hb Hn.
  - reflexivity.
  - cbn [radix16_split]. rewrite IH by lia. cbn [bind].
    rewrite (get_ok b n Byte.x00) by lia. cbn [bind].
    assert (Ln : length (nibbles (firstn n b)) = (2 * n)%nat).
    { rewrite length_nibbles, length_firstn. lia. }
    replace (64 - 2 * n)%nat with (S (S (64 - 2 * S n))) by lia.
    cbn [repeat].
    replace (2 * Z.of_nat n) with (Z.of_nat (length (nibbles (firstn n b)))) by lia.
    rewrite set_ok by (rewrite length_app; cbn [length]; lia).
    cbn [bind]. rewrite upd_app_here.
    set (u := int8 (Z.land (byte.unsigned (nth n b Byte.x00)) 15)).
    replace (Z.of_nat (length (nibbles (firstn n b))) + 1)
      with (Z.of_nat (length (nibbles (firstn n b) ++ [u]))) by (rewrite length_app; cbn [length]; lia).
    change (nibbles (firstn n b) ++ u :: 0 :: repeat 0 (64 - 2 * S n))
      with (nibbles (firstn n b) ++ [u] ++ 0 :: repeat 0 (64 - 2 * S n)).
    rewrite app_assoc.
    rewrite set_ok by (rewrite !length_app; cbn [length]; lia).
    rewrite upd_app_here. f_equal.
    rewrite (firstn_succ_nth Byte.x00) by lia.
    rewrite nibbles_snoc, <- !app_assoc. cbn [app].
    unfold u. now rewrite low_nibble, high_nibble.
Qed.

(** *** Recentring *)

(** The state after [n] iterations of the recentring loop: digits below [n]
    are final, digit [n] carries at most one more than it started with, and
    the digits above are untouched. *)
Definition recentred (n : nat) (d0 d : list Z) : Prop :=
  length d = length d0 /\
  digits_value 16 d = digits_value 16 d0 /\
  (forall i, (i < n)%nat -> - 8 <= nth i d 0 <= 7) /\
  (nth n d0 0 <= nth n d 0 <= nth n d0 0 + 1) /\
  (forall i, (n < i)%nat -> nth i d 0 = nth i d0 0).

Lemma radix16_recenter_spec (d0 : list Z) (n : nat) :
  Forall (fun v => 0 <= v <= 15) d0 -> (n < length d0)%nat ->
  exists d, radix16_recenter n d0 = Ok d /\ recentred n d0 d.
Proof.
  intros R0. induction n as [|n IH]; intros Hn.
  - exists d0. split; [reflexivity|]. unfold recentred. repeat split; intros; lia.
  - destruct IH as (d & E & L & V & Hlo & Hat & Hhi); [lia|].
    cbn [radix16_recenter]. rewrite E. cbn [bind].
    rewrite !(get_ok d n 0) by lia. cbn [bind].
    assert (Rn : 0 <= nth n d0 0 <= 15).
    { apply (proj1 (Forall_forall _ d0) R0). apply nth_In. lia. }
    assert (Rs : 0 <= nth (S n) d0 0 <= 15).
    { apply (proj1 (Forall_forall _ d0) R0). apply nth_In. lia. }
    set (x := nth n d 0) in *.
    unfold add8, sub8, shl8, shr8.
    rewrite (int8_small (x + 8)) by lia.
    set (carry := Z.shiftr (x + 8) 4).
    assert (C : carry = (x + 8) / 16) by (unfold carry; now rewrite Z.shiftr_div_pow2 by lia).
    assert (Cr : 0 <= carry <= 1).
    { rewrite C. split; [apply Z.div_pos; lia|].
      assert ((x + 8) / 16 < 2) by (apply Z.div_lt_upper_bound; lia). lia. }
    rewrite Z.shiftl_mul_pow2 by lia. change (2 ^ 4) with 16.
    rewrite (int8_small (carry * 16)) by lia.
    assert (Xr : - 8 <= x - carry * 16 <= 7).
    { pose proof (Z.div_mod (x + 8) 16 ltac:(lia)) as DM.
      pose proof (Z.mod_pos_bound (x + 8) 16 ltac:(lia)). rewrite <- C in DM. lia. }
    rewrite (int8_small (x - carry * 16)) by lia.
    rewrite set_ok by lia. cbn [bind].
    replace (Z.of_nat n + 1) with (Z.of_nat (S n)) by lia.
    rewrite (get_ok _ (S n) 0) by (rewrite length_upd; lia). cbn [bind].
    rewrite nth_upd_other by lia.
    rewrite (Hhi (S n)) by lia.
    rewrite (int8_small (nth (S n) d0 0 + carry)) by lia.
    rewrite set_ok by (rewrite length_upd; lia).
    eexists. split; [reflexivity|].
    unfold recentred. rewrite !length_upd. split; [exact L|]. split; [|split; [|split]].
    + rewrite !digits_value_upd by (rewrite ?length_upd; lia).
      rewrite nth_upd_other by lia. rewrite (Hhi (S n)) by lia. fold x.
      rewrite V, Nat2Z.inj_succ, Z.pow_succ_r by lia. ring.
    + intros i Hi. destruct (Nat.eq_dec i n) as [->|Hne].
      * rewrite nth_upd_other by lia. rewrite nth_upd_same by lia. exact Xr.
      * rewrite !nth_upd_other by lia. apply Hlo. lia.
    + rewrite nth_upd_same by (rewrite length_upd; lia). lia.
    + intros i Hi. rewrite !nth_upd_other by lia. apply Hhi. lia.
Qed.

(** *** The whole decomposition *)

Lemma nth_nibbles_high (b : list byte) : forall i : nat,
  (i < length b)%nat -> nth (2 * i + 1) (nibbles b) 0 = at_ b i / 16.
Proof.
  induction b as [|x t IH]; intros i Hi; cbn [length] in Hi; [lia|].
  destruct i as [|i].
  - reflexivity.
  - replace (2 * S i + 1)%nat with (S (S (2 * i + 1))) by lia.
    cbn [nibbles flat_map app nth]. fold (nibbles t). rewrite IH by lia. reflexivity.
Qed.

Lemma signedRadix16_bytes_spec (b : list byte) :
  length b = 32%nat -> at_ b 31 <= 127 ->
  exists d,
    signedRadix16_bytes b = Ok d /\
    length d = 64%nat /\
    digits_value 16 d = le_combine b /\
    (forall i, (i < 63)%nat -> - 8 <= nth i d 0 <= 7) /\
    at_ b 31 / 16 <= nth 63 d 0 <= at_ b 31 / 16 + 1.
Proof.
  intros L T. unfold signedRadix16_bytes.
  change (get b 31) with (get b (Z.of_nat 31)). rewrite (get_ok b 31 Byte.x00) by lia. cbn [bind].
  fold (at_ b 31). destruct (Z.ltb_spec 127 (at_ b 31)) as [|_]; [lia|].
  rewrite radix16_split_spec by lia. cbn [bind].
  change (64 - 2 * 32)%nat with 0%nat. cbn [repeat]. rewrite app_nil_r.
  replace (firstn 32 b) with b by (rewrite <- L; symmetry; apply firstn_all).
  destruct (radix16_recenter_spec (nibbles b) 63 (nibbles_range b))
    as (d & E & Ld & V & Hlo & Hat & _).
  { rewrite length_nibbles, L. cbn. lia. }
  exists d. split; [exact E|].
  rewrite length_nibbles, L in Ld. rewrite digits_value_nibbles in V.
  repeat split; try assumption; try (apply Hlo; assumption).
  all: pose proof (nth_nibbles_high b 31 ltac:(lia)) as N; change (2 * 31 + 1)%nat with 63%nat in N.
  all: lia.
Qed.

Lemma digits_value_lower (a : list Z) :
  Forall (fun v => - 8 <= v) a -> - 16 ^ Z.of_nat (length a) < digits_value 16 a.
Proof.
  induction 1 as [|x t Hx Ht IH].
  - cbn. lia.
  - cbn [length digits_value fold_right]. fold (digits_value 16 t).
    rewrite Nat2Z.inj_succ, Z.pow_succ_r by lia. lia.
Qed.

Lemma firstn_nth_Forall {A : Type} (P : A -> Prop) (d : A) (n : nat) (a : list A) :
  (n <= length a)%nat -> (forall i, (i < n)%nat -> P (nth i a d)) -> Forall P (firstn n a).
Proof.
  revert a; induction n as [|n IH]; intros a Hn H; [constructor|].
  destruct a as [|x t]; cbn [length] in Hn; [lia|].
  cbn [firstn]. constructor.
  - apply (H 0%nat). lia.
  - apply IH; [lia|]. intros i Hi. apply (H (S i)). lia.
Qed.

Lemma firstn_skipn_nth {A : Type} (d : A) (n : nat) (a : list A) :
  length a = S n -> a = firstn n a ++ [nth n a d].
Proof.
  intros L. rewrite <- (firstn_succ_nth d) by lia. rewrite <- L. symmetry. apply firstn_all.
Qed.

(** The last digit of a value below [2^253] is small. *)
Lemma last_digit_small (d : list Z) :
  length d = 64%nat ->
  (forall i, (i < 63)%nat -> - 8 <= nth i d 0 <= 7) ->
  digits_value 16 d < 2 ^ 253 -> nth 63 d 0 <= 2.
Proof.
  intros L Hlo V.
  rewrite (firstn_skipn_nth 0 63 d L), digits_value_app in V.
  rewrite length_firstn, L in V. change (Init.Nat.min 63 64) with 63%nat in V.
  pose proof (digits_value_lower (firstn 63 d)) as B.
  rewrite length_firstn, L in B. change (Init.Nat.min 63 64) with 63%nat in B.
  specialize (B (firstn_nth_Forall _ 0 63 d ltac:(lia) (fun i Hi => proj1 (Hlo i Hi)))).
  cbn [digits_value fold_right] in V.
  change (16 ^ Z.of_nat 63) with (2 ^ 252) in *. lia.
Qed.

Lemma Scalar_Bytes_canonical (x : Scalar) : le_combine (Scalar_Bytes x) < l.
Proof. rewrite le_combine_Scalar_Bytes. apply Scalar_value_range. Qed.

Lemma top_byte_le (b : list byte) :
  length b = 32%nat -> le_combine b < 2 ^ 253 -> at_ b 31 <= 31.
Proof.
  intros L V.
  rewrite (firstn_skipn_nth Byte.x00 31 b L), le_combine_snoc in V.
  rewrite length_firstn, L in V. change (Init.Nat.min 31 32) with 31%nat in V.
  pose proof (le_combine_lt (firstn 31 b)) as B. fold (at_ b 31) in V.
  change (2 ^ (8 * Z.of_nat 31)) with (2 ^ 248) in V. lia.
Qed.

Lemma Scalar_Bytes_top_clear (x : Scalar) : at_ (Scalar_Bytes x) 31 <= 127.
Proof.
  pose proof (top_byte_le (Scalar_Bytes x) (length_Scalar_Bytes x)) as H.
  pose proof (Scalar_Bytes_canonical x). unfold l in *. lia.
Qed.

(** C4: for a scalar whose encoding has the top bit clear, [signedRadix16]
    returns 64 digits, each in [-8, 7], whose radix-16 value is the integer
    the encoding denotes. *)
Theorem signedRadix16_correct (x : Scalar) :
  at_ (Scalar_Bytes x) 31 <= 127 ->
  exists d,
    Scalar_signedRadix16 x = Ok d /\
    length d = 64%nat /\
    Forall (fun v => - 8 <= v <= 7) d /\
    digits_value 16 d = le_combine (Scalar_Bytes x).
Proof.
  intros T. unfold Scalar_signedRadix16.
  destruct (signedRadix16_bytes_spec _ (length_Scalar_Bytes x) T)
    as (d & E & L & V & Hlo & Hat).
  exists d. repeat split; try assumption.
  rewrite (firstn_skipn_nth 0 63 d L). apply Forall_app. split.
  - apply (firstn_nth_Forall _ 0); [lia|exact Hlo].
  - constructor; [|constructor].
    pose proof (Scalar_Bytes_canonical x) as C. rewrite <- V in C.
    assert (nth 63 d 0 <= 2) by (apply last_digit_small; try assumption; unfold l in C; lia).
    assert (0 <= at_ (Scalar_Bytes x) 31 / 16).
    { apply Z.div_pos; [|lia]. unfold at_. apply byte_range. }
    lia.
Qed.

Definition scalar_example : Scalar :=
  mkScalar (fiat_sc255_to_montgomery 123456789123456789123456789123456789).

Lemma signedRadix16_correct_witness :
  at_ (Scalar_Bytes scalar_example) 31 <= 127 /\
  exists d,
    Scalar_signedRadix16 scalar_example = Ok d /\
    length d = 64%nat /\
    Forall (fun v => - 8 <= v <= 7) d /\
    digits_value 16 d = le_combine (Scalar_Bytes scalar_example).
Proof.
  assert (H : at_ (Scalar_Bytes scalar_example) 31 <= 127) by (vm_compute; discriminate).
  split; [exact H|]. exact (signedRadix16_correct scalar_example H).
Defined.

(** ** The non-adjacent form *)

(** The 64-bit word [i] of a non-negative integer. *)
Definition word64_of (n i : Z) : Z := (n / 2 ^ (64 * i)) mod 2 ^ 64.

Lemma int8_sub_wrap (a b : Z) : sub8 (int8 a) (int8 b) = int8 (a - b).
Proof.
  unfold sub8, int8, wrapS. change (2 ^ (8 - 1)) with 128. change (2 ^ 8) with 256.
  Z.div_mod_to_equations. lia.
Qed.

(** The window the loop reads at [pos = 64 q + r] holds the [w] bits of [n]
    from [pos] on, in both branches. *)
Lemma naf_window (n q r w : Z) :
  0 <= q -> 0 <= r < 64 -> 0 <= w <= 8 ->
  Z.land (if r <? 64 - w
          then Z.shiftr (word64_of n q) r
          else Z.lor (Z.shiftr (word64_of n q) r)
                     (uint64 (Z.shiftl (word64_of n (1 + q)) (64 - r))))
         (Z.ones w)
  = (n / 2 ^ (64 * q + r)) mod 2 ^ w.
Proof.
  intros Hq Hr Hw. unfold word64_of, uint64.
  rewrite <- !Z.shiftr_div_pow2 by lia.
  rewrite <- !Z.land_ones by lia.
  destruct (Z.ltb_spec r (64 - w)).
  - Z.bitblast.
  - Z.bitblast.
Qed.

(** The five 64-bit words the loop reads; the fifth is zero. *)
Definition naf_words (n : Z) : list Z :=
  [word64_of n 0; word64_of n 1; word64_of n 2; word64_of n 3; 0].

Lemma le_combine_window (b : list byte) (k m : nat) :
  le_combine (firstn m (skipn k b))
  = (le_combine b / 2 ^ (8 * Z.of_nat k)) mod 2 ^ (8 * Z.of_nat m).
Proof. now rewrite le_combine_firstn, le_combine_skipn. Qed.

Lemma naf_digits_spec (b : list byte) :
  length b = 32%nat ->
  naf_digits 4 b (repeat 0 5) = Ok (naf_words (le_combine b)).
Proof.
  intros L. cbn [naf_digits repeat bind]. unfold LittleEndian_Uint64.
  rewrite !length_skipn, L. cbn [Nat.mul Nat.add Nat.sub Nat.ltb Nat.leb bind].
  rewrite !le_combine_window. reflexivity.
Qed.

Lemma nth_naf_words (n : Z) (q : nat) :
  0 <= n < 2 ^ 256 -> (q <= 4)%nat -> nth q (naf_words n) 0 = word64_of n (Z.of_nat q).
Proof.
  intros Hn Hq. do 4 (destruct q as [|q]; [reflexivity|]).
  destruct q; [|lia]. cbn [naf_words nth]. unfold word64_of.
  change (2 ^ (64 * Z.of_nat 4)) with (2 ^ 256).
  rewrite Z.div_small by lia. reflexivity.
Qed.

(** A digit of a width-[w] non-adjacent form. *)
Definition naf_digit_ok (w v : Z) : Prop :=
  v = 0 \/ (v mod 2 = 1 /\ - 2 ^ (w - 1) < v < 2 ^ (w - 1)).

(** The state of the loop at [pos]: the digits written so far, the pending
    carry and the bits of [n] from [pos] on add up to [n]. *)
Record naf_inv (w n pos carry : Z) (naf : list Z) : Prop := {
  inv_carry : 0 <= carry <= 1;
  inv_bound : (carry + n / 2 ^ pos) * 2 ^ pos <= 2 ^ 255;
  inv_value : digits_value 2 naf + 2 ^ pos * (carry + n / 2 ^ pos) = n;
  inv_length : length naf = 256%nat;
  inv_rest : forall i, pos <= Z.of_nat i -> nth i naf 0 = 0;
  inv_digits : Forall (naf_digit_ok w) naf
}.

Lemma Forall_upd {A : Type} (P : A -> Prop) (i : nat) (v : A) (a : list A) :
  Forall P a -> P v -> Forall P (upd i v a).
Proof.
  intros H Hv; revert i; induction H as [|x t Hx Ht IH]; intros [|i]; cbn;
    constructor; auto.
Qed.

(** The step on an even window. *)
Lemma naf_inv_even (w n pos carry : Z) (naf : list Z) :
  0 <= n -> 0 <= pos -> 1 <= w ->
  naf_inv w n pos carry naf ->
  (carry + (n / 2 ^ pos) mod 2 ^ w) mod 2 = 0 ->
  naf_inv w n (pos + 1) carry naf.
Proof.
  intros Hn Hp Hw [Ic Ib Iv Il Ir Id] E.
  assert (P : 0 < 2 ^ pos) by (apply Z.pow_pos_nonneg; lia).
  set (a := n / 2 ^ pos) in *.
  assert (A : n / 2 ^ (pos + 1) = a / 2).
  { unfold a. rewrite Z.pow_add_r, <- Z.div_div by lia. reflexivity. }
  assert (M : (a mod 2 ^ w) mod 2 = a mod 2).
  { apply Z.mod_mod_divide.
    exists (2 ^ (w - 1)). replace w with ((w - 1) + 1) at 1 by lia.
    rewrite Z.pow_add_r by lia. reflexivity. }
  assert (C : carry + a = 2 * (carry + a / 2)).
  { rewrite <- Zplus_mod_idemp_r, M in E.
    pose proof (Z.div_mod a 2 ltac:(lia)). pose proof (Z.mod_pos_bound a 2 ltac:(lia)).
    pose proof (Z.div_mod (carry + a mod 2) 2 ltac:(lia)). lia. }
  constructor; try assumption.
  - rewrite A, Z.pow_add_r by lia. change (2 ^ 1) with 2. nia.
  - rewrite A, Z.pow_add_r by lia. change (2 ^ 1) with 2. nia.
  - intros i Hi. apply Ir. lia.
Qed.

(** The step on an odd window [window]: the digit written and the new
    carry. *)
Lemma naf_inv_odd (w n pos carry : Z) (naf : list Z) (digit carry' : Z) :
  0 <= n -> 0 <= pos < 256 -> 2 <= w <= 8 ->
  naf_inv w n pos carry naf ->
  let window := carry + (n / 2 ^ pos) mod 2 ^ w in
  window mod 2 = 1 ->
  (window < 2 ^ (w - 1) /\ digit = window /\ carry' = 0) \/
  (2 ^ (w - 1) <= window /\ digit = window - 2 ^ w /\ carry' = 1) ->
  naf_inv w n (pos + w) carry' (upd (Z.to_nat pos) digit naf).
Proof.
  intros Hn Hp Hw [Ic Ib Iv Il Ir Id] window Odd Br.
  assert (P : 0 < 2 ^ pos) by (apply Z.pow_pos_nonneg; lia).
  assert (W : 2 ^ w = 2 * 2 ^ (w - 1)).
  { replace w with (1 + (w - 1)) at 1 by lia. rewrite Z.pow_add_r by lia. reflexivity. }
  assert (W1 : 0 < 2 ^ (w - 1)) by (apply Z.pow_pos_nonneg; lia).
  assert (W1e : (2 ^ (w - 1)) mod 2 = 0).
  { replace (w - 1) with (1 + (w - 2)) by lia. rewrite Z.pow_add_r by lia.
    change (2 ^ 1) with 2. rewrite Z.mul_comm. apply Z.mod_mul. lia. }
  set (a := n / 2 ^ pos) in *.
  assert (A0 : 0 <= a) by (apply Z.div_pos; lia).
  assert (A : n / 2 ^ (pos + w) = a / 2 ^ w).
  { unfold a. rewrite Z.pow_add_r, <- Z.div_div by lia. reflexivity. }
  pose proof (Z.div_mod a (2 ^ w) ltac:(lia)) as DM.
  pose proof (Z.mod_pos_bound a (2 ^ w) ltac:(lia)) as MB.
  assert (Q0 : 0 <= a / 2 ^ w) by (apply Z.div_pos; lia).
  set (q := a / 2 ^ w) in *. set (m := a mod 2 ^ w) in *.
  fold m in window.
  assert (Wev : (2 ^ (w - 1)) = 2 * (2 ^ (w - 1) / 2)).
  { pose proof (Z.div_mod (2 ^ (w - 1)) 2 ltac:(lia)). lia. }
  assert (Wodd : window = 2 * (window / 2) + 1).
  { pose proof (Z.div_mod window 2 ltac:(lia)). lia. }
  assert (Wne : window <> 2 ^ (w - 1)) by lia.
  assert (Wlt : window < 2 ^ w).
  { unfold window. destruct (Z.eq_dec (carry + m) (2 ^ w)) as [E|]; [|lia].
    exfalso. unfold window in Wodd. rewrite E, W in Wodd. lia. }
  assert (D : carry + a = digit + 2 ^ w * (carry' + q)).
  { destruct Br as [(_ & -> & ->)|(_ & -> & ->)]; unfold window; lia. }
  assert (Dr : - 2 ^ (w - 1) < digit < 2 ^ (w - 1)).
  { destruct Br as [(? & -> & _)|(? & -> & _)]; lia. }
  assert (Dodd : digit mod 2 = 1).
  { destruct Br as [(_ & -> & _)|(_ & -> & _)]; [exact Odd|].
    rewrite W. replace (window - 2 * 2 ^ (w - 1)) with (window + (- 2 ^ (w - 1)) * 2) by ring.
    rewrite Z.mod_add by lia. exact Odd. }
  assert (L : (Z.to_nat pos < length naf)%nat) by lia.
  assert (C' : 0 <= carry' <= 1) by (destruct Br as [(_ & _ & ->)|(_ & _ & ->)]; lia).
  constructor.
  - exact C'.
  - rewrite A, Z.pow_add_r by lia. fold q.
    destruct (Z.le_gt_cases (pos + w) 255) as [Hle|Hgt].
    + assert (E : 2 ^ 255 = 2 ^ (255 - pos - w) * (2 ^ pos * 2 ^ w)).
      { rewrite <- !Z.pow_add_r by lia. f_equal. lia. }
      assert (K : 0 < 2 ^ (255 - pos - w)) by (apply Z.pow_pos_nonneg; lia).
      rewrite E in *. set (k := 2 ^ (255 - pos - w)) in *.
      assert (carry' + q <= k); [|nia].
      assert ((carry + a) <= k * 2 ^ w) by nia.
      nia.
    + assert (E : 2 ^ 255 * 2 ^ (pos + w - 1 - 255) = 2 ^ pos * 2 ^ (w - 1)).
      { rewrite <- !Z.pow_add_r by lia. f_equal. lia. }
      assert (K : 0 < 2 ^ (pos + w - 1 - 255)) by (apply Z.pow_pos_nonneg; lia).
      set (k := 2 ^ (pos + w - 1 - 255)) in *.
      assert (M : carry + a <= 2 ^ (w - 1)) by nia.
      assert (carry' + q = 0); [|nia].
      destruct Br as [(? & ? & ->)|(? & ? & ->)]; unfold window in *; nia.
  - rewrite digits_value_upd by exact L.
    rewrite (Ir (Z.to_nat pos)) by lia. rewrite Z2Nat.id by lia.
    rewrite A, Z.pow_add_r by lia. fold q.
    replace (digits_value 2 naf + (digit - 0) * 2 ^ pos + 2 ^ pos * 2 ^ w * (carry' + q))
      with (digits_value 2 naf + 2 ^ pos * (digit + 2 ^ w * (carry' + q))) by ring.
    rewrite <- D. exact Iv.
  - rewrite length_upd. exact Il.
  - intros i Hi. rewrite nth_upd_other by lia. apply Ir. lia.
  - apply Forall_upd; [exact Id|]. right. split; assumption.
Qed.

Lemma get_naf_words (n q : Z) :
  0 <= n < 2 ^ 256 -> 0 <= q <= 4 -> get (naf_words n) q = Ok (word64_of n q).
Proof.
  intros Hn Hq. rewrite <- (Z2Nat.id q) by lia.
  rewrite (get_ok _ _ 0) by (cbn [naf_words length]; lia).
  rewrite nth_naf_words by (try assumption; lia). reflexivity.
Qed.

(** The bits the loop reads at [pos]. *)
Lemma naf_loop_bitBuf (n w pos : Z) :
  0 <= n < 2 ^ 256 -> 0 <= pos < 256 -> 2 <= w <= 8 ->
  exists bitBuf,
    (if pos mod 64 <? 64 - w
     then bind (get (naf_words n) (pos / 64))
               (fun d => Ok (Z.shiftr d (pos mod 64)))
     else bind (get (naf_words n) (pos / 64))
               (fun d => bind (get (naf_words n) (1 + pos / 64))
                 (fun d' => Ok (Z.lor (Z.shiftr d (pos mod 64))
                                      (uint64 (Z.shiftl d' (64 - pos mod 64)))))))
    = Ok bitBuf /\
    Z.land bitBuf (Z.ones w) = (n / 2 ^ pos) mod 2 ^ w.
Proof.
  intros Hn Hp Hw.
  pose proof (Z.div_mod pos 64 ltac:(lia)) as DM.
  pose proof (Z.mod_pos_bound pos 64 ltac:(lia)) as MB.
  assert (Q : 0 <= pos / 64 <= 3).
  { split; [apply Z.div_pos; lia|]. assert (pos / 64 < 4) by (apply Z.div_lt_upper_bound; lia). lia. }
  pose proof (naf_window n (pos / 64) (pos mod 64) w ltac:(lia) ltac:(lia) ltac:(lia)) as NW.
  rewrite <- DM in NW.
  rewrite !get_naf_words by (try assumption; lia). cbn [bind].
  destruct (pos mod 64 <? 64 - w); eexists; (split; [reflexivity|exact NW]).
Qed.

Lemma uint64_window (n w pos carry : Z) :
  0 <= n -> 0 <= pos -> 2 <= w <= 8 -> 0 <= carry <= 1 ->
  uint64 (carry + (n / 2 ^ pos) mod 2 ^ w) = carry + (n / 2 ^ pos) mod 2 ^ w.
Proof.
  intros Hn Hp Hw Hc. unfold uint64. apply Z.mod_small.
  pose proof (Z.mod_pos_bound (n / 2 ^ pos) (2 ^ w) ltac:(apply Z.pow_pos_nonneg; lia)).
  assert (2 ^ w <= 2 ^ 8) by (apply Z.pow_le_mono_r; lia).
  change (2 ^ 8) with 256 in *. change (2 ^ 64) with 18446744073709551616. lia.
Qed.

Lemma naf_inv_done (w n pos carry : Z) (naf : list Z) :
  0 <= n -> 256 <= pos -> naf_inv w n pos carry naf -> digits_value 2 naf = n.
Proof.
  intros Hn Hp [Ic Ib Iv Il Ir Id].
  assert (P : 2 ^ 256 <= 2 ^ pos) by (apply Z.pow_le_mono_r; lia).
  assert (Q : 0 <= n / 2 ^ pos) by (apply Z.div_pos; lia).
  set (m := carry + n / 2 ^ pos) in *.
  assert (M : m = 0).
  { destruct (Z.eq_dec m 0) as [|Hne]; [assumption|]. exfalso.
    assert (1 * 2 ^ pos <= m * 2 ^ pos) by (apply Z.mul_le_mono_nonneg_r; lia).
    assert (2 ^ 255 < 2 ^ 256) by reflexivity. lia. }
  rewrite M, Z.mul_0_r, Z.add_0_r in Iv. exact Iv.
Qed.

Lemma naf_loop_spec (n w : Z) :
  0 <= n < 2 ^ 255 -> 2 <= w <= 8 ->
  forall (fuel : nat) (pos carry : Z) (naf : list Z),
    0 <= pos -> 256 <= pos + Z.of_nat fuel ->
    naf_inv w n pos carry naf ->
    exists r,
      naf_loop fuel w (naf_words n) (2 ^ w) (Z.ones w) pos carry naf = Ok r /\
      length r = 256%nat /\
      digits_value 2 r = n /\
      Forall (naf_digit_ok w) r.
Proof.
  intros Hn Hw.
  assert (Hn' : 0 <= n < 2 ^ 256) by lia.
  assert (W : 2 ^ w = 2 * 2 ^ (w - 1)).
  { replace w with (1 + (w - 1)) at 1 by lia. rewrite Z.pow_add_r by lia. reflexivity. }
  assert (W1 : 0 < 2 ^ (w - 1) <= 128).
  { split; [apply Z.pow_pos_nonneg; lia|]. change 128 with (2 ^ 7). apply Z.pow_le_mono_r; lia. }
  induction fuel as [|fuel IH]; intros pos carry naf Hp Hf Inv.
  - (* no fuel is needed once [pos] has reached 256 *)
    assert (256 <= pos) by lia.
    cbn [naf_loop]. destruct (Z.ltb_spec pos 256) as [|_]; [lia|]. cbn [negb].
    exists naf. split; [reflexivity|]. split; [apply (inv_length _ _ _ _ _ Inv)|].
    split; [apply (naf_inv_done w n pos carry); try assumption; lia|].
    apply (inv_digits _ _ _ _ _ Inv).
  - cbn [naf_loop]. destruct (Z.ltb_spec pos 256) as [Hlt|Hge]; cbn [negb].
    + destruct (naf_loop_bitBuf n w pos Hn' ltac:(lia) Hw) as (bitBuf & Eb & Lb).
      rewrite Eb. cbn [bind]. cbv zeta. rewrite Lb.
      rewrite (uint64_window n w pos carry) by (try apply (inv_carry _ _ _ _ _ Inv); lia).
      set (window := carry + (n / 2 ^ pos) mod 2 ^ w).
      pose proof (Z.mod_pos_bound (n / 2 ^ pos) (2 ^ w) ltac:(lia)) as MB.
      pose proof (inv_carry _ _ _ _ _ Inv) as Ic.
      change 1 with (Z.ones 1) at 1. rewrite Z.land_ones by lia. change (2 ^ 1) with 2.
      destruct (Z.eqb_spec (window mod 2) 0) as [Ev|Od].
      * apply IH; [lia|lia|]. apply naf_inv_even; try assumption; lia.
      * assert (Odd : window mod 2 = 1).
        { pose proof (Z.mod_pos_bound window 2 ltac:(lia)). lia. }
        assert (H2 : 2 ^ w / 2 = 2 ^ (w - 1)).
        { rewrite W, Z.mul_comm, Z.div_mul by lia. reflexivity. }
        rewrite H2.
        assert (Lp : (Z.to_nat pos < length naf)%nat).
        { rewrite (inv_length _ _ _ _ _ Inv). lia. }
        assert (Sp : forall v, set naf pos v = Ok (upd (Z.to_nat pos) v naf)).
        { intros v. pose proof (set_ok naf (Z.to_nat pos) v Lp) as Hs.
          rewrite Z2Nat.id in Hs by lia. exact Hs. }
        destruct (Z.ltb_spec window (2 ^ (w - 1))) as [Lo|Hi].
        -- rewrite Sp. cbn [bind].
           rewrite int8_small by (unfold window in *; lia).
           apply IH; [lia|lia|].
           apply (naf_inv_odd w n pos carry naf window 0); try assumption; try lia.
        -- rewrite Sp. cbn [bind].
           rewrite int8_sub_wrap.
           assert (Wlt : window < 2 ^ w).
           { destruct (Z.eq_dec window (2 ^ w)) as [E|]; [|unfold window in *; lia].
             exfalso. rewrite E, W, Z.mul_comm, Z.mod_mul in Odd by lia. lia. }
           rewrite int8_small by lia.
           apply IH; [lia|lia|].
           apply (naf_inv_odd w n pos carry naf (window - 2 ^ w) 1); try assumption; try lia.
    + exists naf. split; [reflexivity|]. split; [apply (inv_length _ _ _ _ _ Inv)|].
      split; [apply (naf_inv_done w n pos carry); try assumption; lia|].
      apply (inv_digits _ _ _ _ _ Inv).
Qed.

Lemma naf_inv_init (w n : Z) :
  0 <= n < 2 ^ 255 -> naf_inv w n 0 0 (repeat 0 256).
Proof.
  intros Hn. change (2 ^ 0) with 1. constructor.
  - lia.
  - change (2 ^ 0) with 1. rewrite Z.div_1_r. lia.
  - rewrite digits_value_zeros. change (2 ^ 0) with 1. rewrite Z.div_1_r. lia.
  - apply repeat_length.
  - intros i _. apply nth_repeat.
  - apply Forall_forall. intros v Hv. apply repeat_spec in Hv. left. exact Hv.
Qed.

Lemma top_bit_clear_bound (b : list byte) :
  length b = 32%nat -> at_ b 31 <= 127 -> 0 <= le_combine b < 2 ^ 255.
Proof.
  intros L T. pose proof (le_combine_lt b) as B. split; [lia|].
  rewrite (firstn_skipn_nth Byte.x00 31 b L), le_combine_snoc.
  rewrite length_firstn, L. change (Init.Nat.min 31 32) with 31%nat.
  pose proof (le_combine_lt (firstn 31 b)) as B'.
  rewrite length_firstn, L in B'. change (Init.Nat.min 31 32) with 31%nat in B'.
  fold (at_ b 31). change (2 ^ (8 * Z.of_nat 31)) with (2 ^ 248) in *.
  change (2 ^ 255) with (2 ^ 248 * 128). nia.
Qed.

Lemma nonAdjacentForm_bytes_spec (b : list byte) (w : Z) :
  length b = 32%nat -> at_ b 31 <= 127 -> 2 <= w <= 8 ->
  exists naf,
    nonAdjacentForm_bytes b w = Ok naf /\
    length naf = 256%nat /\
    digits_value 2 naf = le_combine b /\
    Forall (naf_digit_ok w) naf.
Proof.
  intros L T Hw. unfold nonAdjacentForm_bytes.
  change (get b 31) with (get b (Z.of_nat 31)). rewrite (get_ok b 31 Byte.x00) by lia.
  cbn [bind]. fold (at_ b 31).
  destruct (Z.ltb_spec 127 (at_ b 31)) as [|_]; [lia|].
  destruct (Z.ltb_spec w 2) as [|_]; [lia|].
  destruct (Z.ltb_spec 8 w) as [|_]; [lia|].
  rewrite naf_digits_spec by exact L. cbn [bind].
  assert (P : 2 ^ w <= 2 ^ 8) by (apply Z.pow_le_mono_r; lia).
  assert (P0 : 0 < 2 ^ w) by (apply Z.pow_pos_nonneg; lia).
  assert (E1 : uint64 (Z.shiftl 1 w) = 2 ^ w).
  { unfold uint64. rewrite Z.shiftl_mul_pow2, Z.mul_1_l by lia. apply Z.mod_small.
    change (2 ^ 8) with 256 in P. change (2 ^ 64) with 18446744073709551616. lia. }
  rewrite E1.
  assert (E2 : uint64 (2 ^ w - 1) = Z.ones w).
  { rewrite Z.ones_equiv. unfold uint64. apply Z.mod_small.
    change (2 ^ 8) with 256 in P. change (2 ^ 64) with 18446744073709551616. lia. }
  rewrite E2.
  apply naf_loop_spec; try assumption; try lia.
  - apply top_bit_clear_bound; assumption.
  - apply naf_inv_init. apply top_bit_clear_bound; assumption.
Qed.

Lemma naf_digit_ok_odd (w v : Z) :
  naf_digit_ok w v -> v <> 0 -> Z.odd v = true /\ Z.abs v < 2 ^ (w - 1).
Proof.
  intros [->|[Hodd Hr]] Hne; [contradiction|]. split; [|lia].
  rewrite Zmod_odd in Hodd. destruct (Z.odd v); [reflexivity|discriminate].
Qed.

(** C5: for a scalar whose encoding has the top bit clear and a width [w]
    from 2 to 8, [nonAdjacentForm] returns 256 digits whose binary value
    is the scalar's integer, and every nonzero digit is odd with absolute
    value below [2^(w-1)]. *)
Theorem nonAdjacentForm_correct (x : Scalar) (w : Z) :
  at_ (Scalar_Bytes x) 31 <= 127 -> 2 <= w <= 8 ->
  exists naf,
    Scalar_nonAdjacentForm x w = Ok naf /\
    length naf = 256%nat /\
    digits_value 2 naf = le_combine (Scalar_Bytes x) /\
    digits_value 2 naf = Scalar_value x /\
    Forall (fun v => v <> 0 -> Z.odd v = true /\ Z.abs v < 2 ^ (w - 1)) naf.
Proof.
  intros T Hw. unfold Scalar_nonAdjacentForm.
  destruct (nonAdjacentForm_bytes_spec _ w (length_Scalar_Bytes x) T Hw)
    as (naf & E & L & V & D).
  exists naf. repeat split; try assumption.
  - rewrite V. apply le_combine_Scalar_Bytes.
  - apply Forall_forall. intros v Hv. apply naf_digit_ok_odd.
    apply (proj1 (Forall_forall _ naf) D v Hv).
Qed.

Lemma nonAdjacentForm_correct_witness :
  at_ (Scalar_Bytes scalar_example) 31 <= 127 /\ 2 <= 5 <= 8 /\
  exists naf,
    Scalar_nonAdjacentForm scalar_example 5 = Ok naf /\
    length naf = 256%nat /\
    digits_value 2 naf = le_combine (Scalar_Bytes scalar_example) /\
    digits_value 2 naf = Scalar_value scalar_example /\
    Forall (fun v => v <> 0 -> Z.odd v = true /\ Z.abs v < 2 ^ (5 - 1)) naf.
Proof.
  assert (H : at_ (Scalar_Bytes scalar_example) 31 <= 127) by (vm_compute; discriminate).
  assert (Hw : 2 <= 5 <= 8) by lia.
  split; [exact H|]. split; [exact Hw|].
  exact (nonAdjacentForm_correct scalar_example 5 H Hw).
Defined.

(* ================================================================= *)
(** ** The curve: the affine group law *)

Declare Scope fe_scope.
Delimit Scope fe_scope with fe.

Section CurveProofs.
Context {F : Type} {FE : FieldElement F}.
Variable D : F.

Local Notation "0" := feZero : fe_scope.
Local Notation "1" := feOne : fe_scope.
Local Infix "+" := feAdd : fe_scope.
Local Infix "-" := feSub : fe_scope.
Local Infix "*" := feMul : fe_scope.
Local Notation "- x" := (feNeg x) : fe_scope.
Local Notation "x / y" := (feMul x (feInvert y)) : fe_scope.
Local Open Scope fe_scope.

Definition feDiv (a b : F) : F := a * feInvert b.

Lemma fe_field_div : field_theory 0 1 feAdd feMul feSub feNeg feDiv feInvert eq.
Proof. exact fe_field. Qed.

Add Field fe_fld : fe_field_div.

Lemma fe_eq_dec (a b : F) : {a = b} + {a <> b}.
Proof.
  destruct (Z.eq_dec (feEqual a b) 1%Z) as [E|E].
  - left. destruct (feEqual_spec a b) as [[H _]|[_ H]]; [exact H|]. rewrite H in E. discriminate.
  - right. destruct (feEqual_spec a b) as [[_ H]|[H _]]; [contradiction|exact H].
Qed.

Lemma feEqual_1 (a b : F) : feEqual a b = 1%Z <-> a = b.
Proof.
  destruct (feEqual_spec a b) as [[H E]|[H E]]; rewrite E; split; intros; try assumption;
    try reflexivity; try discriminate; contradiction.
Qed.

Lemma feEqual_01 (a b : F) : feEqual a b = 0%Z \/ feEqual a b = 1%Z.
Proof. destruct (feEqual_spec a b) as [[_ E]|[_ E]]; auto. Qed.

Lemma fe_integral (x y : F) : x * y = 0 -> x = 0 \/ y = 0.
Proof.
  intros H. destruct (fe_eq_dec x 0) as [|Hx]; [now left|right].
  transitivity (feInvert x * (x * y)).
  - field. exact Hx.
  - rewrite H. ring.
Qed.

Lemma fe_mul_nonzero (x y : F) : x <> 0 -> y <> 0 -> x * y <> 0.
Proof. intros Hx Hy H. destruct (fe_integral x y H); contradiction. Qed.

#[local] Ltac fe_unfold_ops :=
  cbv [equality eq_notation addition add_notation multiplication mul_notation
       subtraction sub_notation opposite opp_notation zero zero_notation
       one one_notation] in *.

#[local] Instance fe_ops : @Ring_ops F feZero feOne feAdd feMul feSub feNeg eq := {}.

#[local] Instance fe_ring : Ring (Ro := fe_ops).
Proof.
  constructor; try apply eq_equivalence;
    try (repeat intro; fe_unfold_ops; subst; reflexivity);
    intros; fe_unfold_ops; ring.
Qed.

#[local] Instance fe_cring : Cring (Rr := fe_ring).
Proof. intros x y; fe_unfold_ops; ring. Qed.

#[local] Instance fe_idom : Integral_domain (Rcr := fe_cring).
Proof.
  constructor.
  - intros x y H. apply fe_integral. exact H.
  - apply (F_1_neq_0 fe_field_div).
Qed.

(** The curve equation [-x^2 + y^2 = 1 + d x^2 y^2]. *)
Definition onCurve (P : F * F) : Prop :=
  - (fst P * fst P) + snd P * snd P = 1 + D * (fst P * fst P) * (snd P * snd P).

(** The addition law of the curve on affine points. *)
Definition eadd (P Q : F * F) : F * F :=
  let '(x1, y1) := P in
  let '(x2, y2) := Q in
  ((x1 * y2 + y1 * x2) / (1 + D * x1 * x2 * y1 * y2),
   (y1 * y2 + x1 * x2) / (1 - D * x1 * x2 * y1 * y2)).

Definition ezero : F * F := (0, 1).

(** The [n]-fold sum [P + (P + ... + (P + 0))]. *)
Fixpoint emul (n : nat) (P : F * F) : F * F :=
  match n with
  | O => ezero
  | S k => eadd P (emul k P)
  end.

Lemma IsOnCurve_spec (x y : F) : IsOnCurve D x y = true <-> onCurve (x, y).
Proof.
  unfold IsOnCurve, onCurve, feSquare; cbn [fst snd].
  rewrite Z.eqb_eq, feEqual_1. split; intros H.
  - transitivity (- (x * x) + y * y - (x * x * (y * y) * D + 1) + (1 + D * (x * x) * (y * y))).
    + ring.
    + rewrite H. ring.
  - rewrite H. ring.
Qed.

(** *** Equality is the cross-multiplication test *)

Lemma land_bits (a b : Z) :
  (a = 0 \/ a = 1)%Z -> (b = 0 \/ b = 1)%Z ->
  (Z.land a b = 1%Z <-> a = 1%Z /\ b = 1%Z) /\ (Z.land a b = 0 \/ Z.land a b = 1)%Z.
Proof. intros [-> | ->] [-> | ->]; cbn; intuition (auto; discriminate). Qed.

Lemma cross_affine (X1 Z1 X2 Z2 : F) :
  Z1 <> 0 -> Z2 <> 0 -> (X1 * Z2 = X2 * Z1 <-> X1 / Z1 = X2 / Z2).
Proof.
  intros N1 N2. split; intros H.
  - transitivity ((X1 * Z2) / (Z1 * Z2)); [field; split; assumption|].
    rewrite H. field; split; assumption.
  - transitivity ((X1 / Z1) * (Z1 * Z2)); [field; assumption|].
    rewrite H. field; assumption.
Qed.

Lemma cross_scale (X1 Y1 Z1 X2 Y2 Z2 : F) :
  Z1 <> 0 -> Z2 <> 0 ->
  (X1 * Z2 = X2 * Z1 /\ Y1 * Z2 = Y2 * Z1 <->
   exists c, c <> 0 /\ X2 = c * X1 /\ Y2 = c * Y1 /\ Z2 = c * Z1).
Proof.
  intros N1 N2. split.
  - intros [HX HY]. exists (Z2 / Z1). repeat split.
    + intros E. apply N2. transitivity ((Z2 / Z1) * Z1); [field; assumption|].
      rewrite E. ring.
    + transitivity ((X2 * Z1) / Z1); [field; assumption|]. rewrite <- HX. field; assumption.
    + transitivity ((Y2 * Z1) / Z1); [field; assumption|]. rewrite <- HY. field; assumption.
    + field; assumption.
  - intros (c & Nc & -> & -> & ->). split; ring.
Qed.

(** C10: [ExtendedGroupElement.Equal] (and [ProjP3.Equal]) returns 1 exactly
    when [X1 Z2 = X2 Z1] and [Y1 Z2 = Y2 Z1] hold in the field, and 0
    otherwise; for nonzero [Z] coordinates this is equality of the affine
    coordinates [X/Z], [Y/Z], that is, equality of the tuples [(X, Y, Z)] up
    to a nonzero common factor. *)
Theorem Equal_cross_multiplication (v u : ExtendedGroupElement) (v3 u3 : ProjP3) :
  (ExtendedGroupElement_Equal v u = 1%Z <->
     EGE_X v * EGE_Z u = EGE_X u * EGE_Z v /\ EGE_Y v * EGE_Z u = EGE_Y u * EGE_Z v) /\
  (ExtendedGroupElement_Equal v u = 0%Z \/ ExtendedGroupElement_Equal v u = 1%Z) /\
  (EGE_Z v <> 0 -> EGE_Z u <> 0 ->
     (ExtendedGroupElement_Equal v u = 1%Z <->
        EGE_X v / EGE_Z v = EGE_X u / EGE_Z u /\ EGE_Y v / EGE_Z v = EGE_Y u / EGE_Z u) /\
     (ExtendedGroupElement_Equal v u = 1%Z <->
        exists c, c <> 0 /\ EGE_X u = c * EGE_X v /\ EGE_Y u = c * EGE_Y v /\
                  EGE_Z u = c * EGE_Z v)) /\
  (ProjP3_Equal v3 u3 = 1%Z <->
     P3_X v3 * P3_Z u3 = P3_X u3 * P3_Z v3 /\ P3_Y v3 * P3_Z u3 = P3_Y u3 * P3_Z v3) /\
  (ProjP3_Equal v3 u3 = 0%Z \/ ProjP3_Equal v3 u3 = 1%Z) /\
  (P3_Z v3 <> 0 -> P3_Z u3 <> 0 ->
     (ProjP3_Equal v3 u3 = 1%Z <->
        P3_X v3 / P3_Z v3 = P3_X u3 / P3_Z u3 /\ P3_Y v3 / P3_Z v3 = P3_Y u3 / P3_Z u3) /\
     (ProjP3_Equal v3 u3 = 1%Z <->
        exists c, c <> 0 /\ P3_X u3 = c * P3_X v3 /\ P3_Y u3 = c * P3_Y v3 /\
                  P3_Z u3 = c * P3_Z v3)).
Proof.
  assert (E : ExtendedGroupElement_Equal v u = 1%Z <->
     EGE_X v * EGE_Z u = EGE_X u * EGE_Z v /\ EGE_Y v * EGE_Z u = EGE_Y u * EGE_Z v).
  { unfold ExtendedGroupElement_Equal; cbv zeta.
    rewrite (proj1 (land_bits _ _ (feEqual_01 _ _) (feEqual_01 _ _))).
    now rewrite !feEqual_1. }
  assert (E3 : ProjP3_Equal v3 u3 = 1%Z <->
     P3_X v3 * P3_Z u3 = P3_X u3 * P3_Z v3 /\ P3_Y v3 * P3_Z u3 = P3_Y u3 * P3_Z v3).
  { unfold ProjP3_Equal; cbv zeta.
    rewrite (proj1 (land_bits _ _ (feEqual_01 _ _) (feEqual_01 _ _))).
    now rewrite !feEqual_1. }
  split; [exact E|]. split.
  { unfold ExtendedGroupElement_Equal; cbv zeta.
    apply (land_bits _ _ (feEqual_01 _ _) (feEqual_01 _ _)). }
  split.
  { intros N1 N2. split.
    - rewrite E, <- !cross_affine by assumption. reflexivity.
    - rewrite E. apply cross_scale; assumption. }
  split; [exact E3|]. split.
  { unfold ProjP3_Equal; cbv zeta.
    apply (land_bits _ _ (feEqual_01 _ _) (feEqual_01 _ _)). }
  intros N1 N2. split.
  - rewrite E3, <- !cross_affine by assumption. reflexivity.
  - rewrite E3. apply cross_scale; assumption.
Qed.

(** *** Completeness: the denominators never vanish *)

Section Complete.
Hypothesis two_nonzero : 1 + 1 <> 0.
Hypothesis sqrt_minus_one : exists i : F, i * i = - (1).
Hypothesis D_nonsquare : forall x : F, x * x <> D.

Lemma D_nonzero : D <> 0.
Proof. intros H. apply (D_nonsquare 0). rewrite H. ring. Qed.

Lemma complete_aux (x1 y1 x2 y2 e : F) :
  onCurve (x1, y1) -> onCurve (x2, y2) ->
  e = D * x1 * x2 * y1 * y2 -> e * e = 1 -> False.
Proof.
  unfold onCurve; cbn [fst snd]. intros H1 H2 He Hee.
  destruct sqrt_minus_one as [i Hi].
  assert (Hx1 : x1 <> 0). { intros E. subst x1. subst e. apply (F_1_neq_0 fe_field_div). rewrite <- Hee. ring. }
  assert (Hy1 : y1 <> 0). { intros E. subst y1. subst e. apply (F_1_neq_0 fe_field_div). rewrite <- Hee. ring. }
  (* (y1 + e i x1)^2 = d x1^2 y1^2 (y2 + i x2)^2, and the same with -i *)
  assert (S1 : (y1 + e * i * x1) * (y1 + e * i * x1)
               = D * ((x1 * y1 * (y2 + i * x2)) * (x1 * y1 * (y2 + i * x2)))).
  { subst e. nsatz. }
  assert (S2 : (y1 - e * i * x1) * (y1 - e * i * x1)
               = D * ((x1 * y1 * (y2 - i * x2)) * (x1 * y1 * (y2 - i * x2)))).
  { subst e. nsatz. }
  destruct (fe_eq_dec (y2 + i * x2) 0) as [Z1|N1].
  - destruct (fe_eq_dec (y2 - i * x2) 0) as [Z2|N2].
    + assert (Y : (1 + 1) * y2 = 0).
      { transitivity ((y2 + i * x2) + (y2 - i * x2)); [ring|]. rewrite Z1, Z2. ring. }
      destruct (fe_integral _ _ Y) as [|Y2]; [contradiction|].
      subst y2. subst e. apply (F_1_neq_0 fe_field_div). rewrite <- Hee. ring.
    + apply (D_nonsquare ((y1 - e * i * x1) / (x1 * y1 * (y2 - i * x2)))).
      assert (N : x1 * y1 * (y2 - i * x2) <> 0) by (repeat apply fe_mul_nonzero; assumption).
      transitivity (((y1 - e * i * x1) * (y1 - e * i * x1))
                    / ((x1 * y1 * (y2 - i * x2)) * (x1 * y1 * (y2 - i * x2)))).
      * field; repeat split; assumption.
      * rewrite S2. field; repeat split; assumption.
  - apply (D_nonsquare ((y1 + e * i * x1) / (x1 * y1 * (y2 + i * x2)))).
    assert (N : x1 * y1 * (y2 + i * x2) <> 0) by (repeat apply fe_mul_nonzero; assumption).
    transitivity (((y1 + e * i * x1) * (y1 + e * i * x1))
                  / ((x1 * y1 * (y2 + i * x2)) * (x1 * y1 * (y2 + i * x2)))).
    + field; repeat split; assumption.
    + rewrite S1. field; repeat split; assumption.
Qed.

Lemma complete_plus (x1 y1 x2 y2 : F) :
  onCurve (x1, y1) -> onCurve (x2, y2) -> 1 + D * x1 * x2 * y1 * y2 <> 0.
Proof.
  intros H1 H2 E.
  apply (complete_aux x1 y1 x2 y2 (D * x1 * x2 * y1 * y2) H1 H2 eq_refl).
  transitivity ((1 + D * x1 * x2 * y1 * y2) * (D * x1 * x2 * y1 * y2 - 1) + 1); [ring|].
  rewrite E. ring.
Qed.

Lemma complete_minus (x1 y1 x2 y2 : F) :
  onCurve (x1, y1) -> onCurve (x2, y2) -> 1 - D * x1 * x2 * y1 * y2 <> 0.
Proof.
  intros H1 H2 E.
  apply (complete_aux x1 y1 x2 y2 (D * x1 * x2 * y1 * y2) H1 H2 eq_refl).
  transitivity (1 - (1 - D * x1 * x2 * y1 * y2) * (1 + D * x1 * x2 * y1 * y2)); [ring|].
  rewrite E. ring.
Qed.

(** *** The group law *)

Lemma div_eq (a b c d : F) : b <> 0 -> d <> 0 -> a * d = c * b -> a / b = c / d.
Proof.
  intros Hb Hd H.
  transitivity ((a * d) / (b * d)); [field; split; assumption|].
  rewrite H. field; split; assumption.
Qed.

Lemma eadd_comm (P Q : F * F) : eadd P Q = eadd Q P.
Proof.
  destruct P as [x1 y1], Q as [x2 y2]; unfold eadd. f_equal.
  - replace (D * x2 * x1 * y2 * y1) with (D * x1 * x2 * y1 * y2) by ring.
    f_equal. ring.
  - replace (D * x2 * x1 * y2 * y1) with (D * x1 * x2 * y1 * y2) by ring.
    f_equal. ring.
Qed.

Lemma eadd_0_r (P : F * F) : eadd P ezero = P.
Proof.
  destruct P as [x y]; unfold eadd, ezero. f_equal.
  - replace (1 + D * x * 0 * y * 1) with 1 by ring. field. apply (F_1_neq_0 fe_field_div).
  - replace (1 - D * x * 0 * y * 1) with 1 by ring. field. apply (F_1_neq_0 fe_field_div).
Qed.

Lemma eadd_0_l (P : F * F) : eadd ezero P = P.
Proof. rewrite eadd_comm. apply eadd_0_r. Qed.

Lemma onCurve_ezero : onCurve ezero.
Proof. unfold onCurve, ezero; cbn [fst snd]. ring. Qed.

Lemma eadd_onCurve (P Q : F * F) : onCurve P -> onCurve Q -> onCurve (eadd P Q).
Proof.
  destruct P as [x1 y1], Q as [x2 y2]. intros H1 H2.
  pose proof (complete_plus _ _ _ _ H1 H2) as Np.
  pose proof (complete_minus _ _ _ _ H1 H2) as Nm.
  unfold onCurve in *; cbn [fst snd eadd] in *.
  field_simplify_eq; [|split; assumption].
  nsatz.
Qed.

Lemma eadd_assoc (P Q R : F * F) :
  onCurve P -> onCurve Q -> onCurve R ->
  eadd (eadd P Q) R = eadd P (eadd Q R).
Proof.
  intros H1 H2 H3.
  pose proof (eadd_onCurve _ _ H1 H2) as H12.
  pose proof (eadd_onCurve _ _ H2 H3) as H23.
  destruct P as [x1 y1], Q as [x2 y2], R as [x3 y3].
  pose proof (complete_plus _ _ _ _ H1 H2) as Np12.
  pose proof (complete_minus _ _ _ _ H1 H2) as Nm12.
  pose proof (complete_plus _ _ _ _ H2 H3) as Np23.
  pose proof (complete_minus _ _ _ _ H2 H3) as Nm23.
  cbn [eadd] in H12, H23 |- *.
  set (x12 := (x1 * y2 + y1 * x2) / (1 + D * x1 * x2 * y1 * y2)) in *.
  set (y12 := (y1 * y2 + x1 * x2) / (1 - D * x1 * x2 * y1 * y2)) in *.
  set (x23 := (x2 * y3 + y2 * x3) / (1 + D * x2 * x3 * y2 * y3)) in *.
  set (y23 := (y2 * y3 + x2 * x3) / (1 - D * x2 * x3 * y2 * y3)) in *.
  pose proof (complete_plus _ _ _ _ H12 H3) as NpL.
  pose proof (complete_minus _ _ _ _ H12 H3) as NmL.
  pose proof (complete_plus _ _ _ _ H1 H23) as NpR.
  pose proof (complete_minus _ _ _ _ H1 H23) as NmR.
  unfold onCurve in H1, H2, H3; cbn [fst snd] in H1, H2, H3.
  clear H12 H23.
  f_equal; apply div_eq; try assumption; subst x12 y12 x23 y23;
    (field_simplify_eq; [|repeat split; assumption]); nsatz.
Qed.

Lemma emul_onCurve (n : nat) (P : F * F) : onCurve P -> onCurve (emul n P).
Proof.
  intros H. induction n; cbn [emul]; [apply onCurve_ezero|].
  apply eadd_onCurve; assumption.
Qed.

Lemma emul_add (n m : nat) (P : F * F) :
  onCurve P -> emul (n + m) P = eadd (emul n P) (emul m P).
Proof.
  intros H. induction n; cbn [emul Nat.add].
  - symmetry. apply eadd_0_l.
  - rewrite IHn. symmetry. apply eadd_assoc; try apply emul_onCurve; assumption.
Qed.

Lemma emul_1 (P : F * F) : emul 1 P = P.
Proof. cbn [emul]. apply eadd_0_r. Qed.

(** *** Extended coordinates *)

(** [p] holds extended coordinates of the affine point [P]:
    [X = x Z], [Y = y Z], [T = x y Z] with [Z <> 0]. *)
Definition represents (p : ExtendedGroupElement) (P : F * F) : Prop :=
  EGE_Z p <> 0 /\
  EGE_X p = fst P * EGE_Z p /\
  EGE_Y p = snd P * EGE_Z p /\
  EGE_T p = fst P * snd P * EGE_Z p.

Lemma EGE_zero_represents : represents EGE_zero ezero.
Proof.
  unfold represents, EGE_zero, ezero; cbn.
  repeat split; try ring. apply (F_1_neq_0 fe_field_div).
Qed.

Lemma EGE_add_represents (p q : ExtendedGroupElement) (P Q : F * F) :
  onCurve P -> onCurve Q -> represents p P -> represents q Q ->
  represents (EGE_add D p q) (eadd P Q).
Proof.
  destruct P as [x1 y1], Q as [x2 y2], p as [X1 Y1 Z1 T1], q as [X2 Y2 Z2 T2].
  intros H1 H2 (Nz1 & Ex1 & Ey1 & Et1) (Nz2 & Ex2 & Ey2 & Et2).
  pose proof (complete_plus _ _ _ _ H1 H2) as Np.
  pose proof (complete_minus _ _ _ _ H1 H2) as Nm.
  cbn [fst snd EGE_X EGE_Y EGE_Z EGE_T] in *. subst X1 Y1 T1 X2 Y2 T2.
  unfold represents, EGE_add, twoD, eadd; cbn [fst snd EGE_X EGE_Y EGE_Z EGE_T].
  assert (EF : (Z1 * Z2 + Z1 * Z2) - x1 * y1 * Z1 * (x2 * y2 * Z2) * (D + D)
               = (1 + 1) * Z1 * Z2 * (1 - D * x1 * x2 * y1 * y2)) by ring.
  assert (EG : (Z1 * Z2 + Z1 * Z2) + x1 * y1 * Z1 * (x2 * y2 * Z2) * (D + D)
               = (1 + 1) * Z1 * Z2 * (1 + D * x1 * x2 * y1 * y2)) by ring.
  rewrite EF, EG.
  repeat split.
  - repeat apply fe_mul_nonzero; assumption.
  - field; repeat split; assumption.
  - field; repeat split; assumption.
  - field; repeat split; assumption.
Qed.

Lemma EGE_double_represents (p : ExtendedGroupElement) (P : F * F) :
  onCurve P -> represents p P -> represents (EGE_double p) (eadd P P).
Proof.
  destruct P as [x y], p as [X Y Z T].
  intros H (Nz & Ex & Ey & Et).
  pose proof (complete_plus _ _ _ _ H H) as Np.
  pose proof (complete_minus _ _ _ _ H H) as Nm.
  unfold onCurve in H.
  cbn [fst snd EGE_X EGE_Y EGE_Z EGE_T] in *. subst X Y T.
  unfold represents, EGE_double, feSquare, eadd; cbn [fst snd EGE_X EGE_Y EGE_Z EGE_T].
  assert (EG : - (x * Z * (x * Z)) + y * Z * (y * Z)
               = Z * Z * (1 + D * x * x * y * y)).
  { transitivity (Z * Z * (- (x * x) + y * y)); [ring|]. rewrite H. ring. }
  assert (EF : - (x * Z * (x * Z)) + y * Z * (y * Z) - (Z * Z + Z * Z)
               = - (Z * Z * (1 - D * x * x * y * y))).
  { rewrite EG. ring. }
  rewrite EF, EG.
  repeat split.
  - apply fe_mul_nonzero; [|repeat apply fe_mul_nonzero; assumption].
    intros E. apply (fe_mul_nonzero (Z * Z) (1 - D * x * x * y * y));
      [apply fe_mul_nonzero; assumption|assumption|].
    transitivity (- - (Z * Z * (1 - D * x * x * y * y))); [ring|]. rewrite E. ring.
  - field; repeat split; assumption.
  - field; repeat split; assumption.
  - field; repeat split; assumption.
Qed.

Lemma represents_Equal (p q : ExtendedGroupElement) (P : F * F) :
  represents p P -> represents q P -> ExtendedGroupElement_Equal p q = 1%Z.
Proof.
  intros (_ & Ex1 & Ey1 & _) (_ & Ex2 & Ey2 & _).
  unfold ExtendedGroupElement_Equal; cbv zeta.
  apply (proj1 (land_bits _ _ (feEqual_01 _ _) (feEqual_01 _ _))).
  rewrite !feEqual_1, Ex1, Ey1, Ex2, Ey2. split; ring.
Qed.

Lemma represents_ToAffine (p : ExtendedGroupElement) (P : F * F) :
  represents p P ->
  ExtendedGroupElement_ToAffine p = (feToBig (fst P), feToBig (snd P)).
Proof.
  intros (Nz & Ex & Ey & _). unfold ExtendedGroupElement_ToAffine; cbv zeta.
  rewrite Ex, Ey. f_equal; f_equal; field; assumption.
Qed.

(** *** The ladder *)

Lemma ladder_bit (k : list byte) (i : Z) :
  length k = 32%nat -> (0 <= i < 256)%Z ->
  Z.land (Z.shiftr (at_ k (Z.to_nat (i / 8))) (Z.land i 7)) 1
  = ((le_combine k / 2 ^ i) mod 2)%Z.
Proof.
  intros L Hi.
  assert (Hj : (0 <= i / 8 < 32)%Z) by (split; [apply Z.div_pos|apply Z.div_lt_upper_bound]; lia).
  assert (B : at_ k (Z.to_nat (i / 8))
              = ((le_combine k / 2 ^ (8 * (i / 8))) mod 2 ^ 8)%Z).
  { pose proof (le_combine_window k (Z.to_nat (i / 8)) 1) as W.
    rewrite Z2Nat.id in W by lia. change (8 * Z.of_nat 1)%Z with 8%Z in W.
    rewrite <- W. unfold at_.
    assert (S : firstn 1 (skipn (Z.to_nat (i / 8)) k) = (nth (Z.to_nat (i / 8)) k Byte.x00 :: nil)).
    { rewrite <- (firstn_skipn (Z.to_nat (i / 8)) k) at 2.
      rewrite app_nth2 by (rewrite length_firstn; lia).
      rewrite length_firstn, Nat.min_l, Nat.sub_diag by lia.
      destruct (skipn (Z.to_nat (i / 8)) k) eqn:E; [|reflexivity].
      apply (f_equal (@length byte)) in E. rewrite length_skipn in E. cbn in E. lia. }
    rewrite S. change (le_combine (nth (Z.to_nat (i / 8)) k Byte.x00 :: nil))
      with (Z.lor (byte.unsigned (nth (Z.to_nat (i / 8)) k Byte.x00)) (Z.shiftl 0 8)).
    rewrite Z.shiftl_0_l, Z.lor_0_r. reflexivity. }
  rewrite B. change 7%Z with (Z.ones 3). rewrite Z.land_ones by lia.
  change 1%Z with (Z.ones 1) at 1. rewrite Z.land_ones by lia.
  change (2 ^ 3)%Z with 8%Z. change (2 ^ 1)%Z with 2%Z.
  pose proof (Z.mod_pos_bound i 8 ltac:(lia)) as Hr.
  rewrite <- !Z.bit0_mod. f_equal.
  rewrite Z.shiftr_spec by lia. rewrite Z.add_0_l.
  rewrite Z.mod_pow2_bits_low by lia.
  rewrite !Z.div_pow2_bits by lia. f_equal.
  pose proof (Z.div_mod i 8 ltac:(lia)). lia.
Qed.

Definition ladder_inv (r0 r1 : ptr) (P : F * F)
    (h0 h : Heap ExtendedGroupElement) (N : nat) : Prop :=
  represents (load r0 h) (emul N P) /\
  represents (load r1 h) (emul (S N) P) /\
  forall q, q <> r0 -> q <> r1 -> load q h = load q h0.

Lemma ladder_step (r0 r1 : ptr) (P : F * F) (k : list byte)
    (h0 h : Heap ExtendedGroupElement) (N : nat) (i : Z) :
  r0 <> r1 -> onCurve P -> ladder_inv r0 r1 P h0 h N ->
  exists b : nat,
    Z.of_nat b = Z.land (Z.shiftr (at_ k (Z.to_nat (i / 8))) (Z.land i 7)) 1 /\
    ladder_inv r0 r1 P h0 (ScalarMult_step D r0 r1 k h i) (2 * N + b) \/
  ((Z.land (Z.shiftr (at_ k (Z.to_nat (i / 8))) (Z.land i 7)) 1 <> 0)%Z /\
   (Z.land (Z.shiftr (at_ k (Z.to_nat (i / 8))) (Z.land i 7)) 1 <> 1)%Z).
Proof.
  intros Hne HP (R0 & R1 & Fr).
  pose proof (emul_onCurve N P HP) as C0.
  pose proof (emul_onCurve (S N) P HP) as C1.
  unfold ScalarMult_step; cbv zeta.
  destruct (Z.eqb_spec (Z.land (Z.shiftr (at_ k (Z.to_nat (i / 8))) (Z.land i 7)) 1) 0) as [E|E].
  - exists 0%nat. left. split; [symmetry; exact E|].
    unfold ExtendedGroupElement_Add, ExtendedGroupElement_Double.
    split; [|split].
    + rewrite load_store_same, load_store_other by exact Hne.
      replace (2 * N + 0)%nat with (N + N)%nat by lia.
      rewrite emul_add by exact HP. apply EGE_double_represents; assumption.
    + rewrite load_store_other, load_store_same by (intro; apply Hne; congruence).
      replace (S (2 * N + 0))%nat with (N + S N)%nat by lia.
      rewrite emul_add by exact HP. apply EGE_add_represents; assumption.
    + intros q Q0 Q1. rewrite !load_store_other by assumption. apply Fr; assumption.
  - destruct (Z.eq_dec (Z.land (Z.shiftr (at_ k (Z.to_nat (i / 8))) (Z.land i 7)) 1) 1) as [E1|E1].
    + exists 1%nat. left. split; [symmetry; exact E1|].
      unfold ExtendedGroupElement_Add, ExtendedGroupElement_Double.
      split; [|split].
      * rewrite load_store_other, load_store_same by exact Hne.
        replace (2 * N + 1)%nat with (N + S N)%nat by lia.
        rewrite emul_add by exact HP. apply EGE_add_represents; assumption.
      * rewrite load_store_same, load_store_other by (intro; apply Hne; congruence).
        replace (S (2 * N + 1))%nat with (S N + S N)%nat by lia.
        rewrite emul_add by exact HP. apply EGE_double_represents; assumption.
      * intros q Q0 Q1. rewrite !load_store_other by assumption. apply Fr; assumption.
    + exists 0%nat. right. split; assumption.
Qed.

Lemma ladder_loop (r0 r1 : ptr) (P : F * F) (k : list byte)
    (h0 : Heap ExtendedGroupElement) :
  r0 <> r1 -> onCurve P -> length k = 32%nat ->
  forall (m : nat) (h : Heap ExtendedGroupElement),
    (m <= 256)%nat ->
    ladder_inv r0 r1 P h0 h (Z.to_nat (le_combine k / 2 ^ Z.of_nat m)) ->
    ladder_inv r0 r1 P h0
      (fold_left (ScalarMult_step D r0 r1 k) (map Z.of_nat (rev (seq 0 m))) h)
      (Z.to_nat (le_combine k)).
Proof.
  intros Hne HP L. induction m as [|m IH]; intros h Hm I.
  - cbn [seq rev map fold_left]. change (2 ^ Z.of_nat 0)%Z with 1%Z in I.
    now rewrite Z.div_1_r in I.
  - rewrite seq_S, rev_app_distr. cbn [rev app map fold_left Nat.add].
    apply IH; [lia|].
    pose proof (le_combine_lt k) as [Hk _].
    destruct (ladder_step r0 r1 P k h0 h _ (Z.of_nat m) Hne HP I) as (b & [[Hb I']|[B0 B1]]).
    + rewrite ladder_bit in Hb by (try assumption; lia).
      replace (Z.to_nat (le_combine k / 2 ^ Z.of_nat m))
        with (2 * Z.to_nat (le_combine k / 2 ^ Z.of_nat (S m)) + b)%nat; [exact I'|].
      apply Nat2Z.inj. rewrite Nat2Z.inj_add, Nat2Z.inj_mul, Hb.
      rewrite !Z2Nat.id by (apply Z.div_pos; [assumption|apply Z.pow_pos_nonneg; lia]).
      change (Z.of_nat 2) with 2%Z.
      rewrite (Nat2Z.inj_succ m), Z.pow_succ_r by lia.
      rewrite (Z.mul_comm 2 (2 ^ Z.of_nat m)).
      rewrite <- Z.div_div by (try apply Z.pow_pos_nonneg; lia).
      pose proof (Z.div_mod (le_combine k / 2 ^ Z.of_nat m) 2 ltac:(lia)).
      lia.
    + exfalso. rewrite ladder_bit in B0, B1 by (try assumption; lia).
      pose proof (Z.mod_pos_bound (le_combine k / 2 ^ Z.of_nat m) 2 ltac:(lia)). lia.
Qed.

(** C2: [v.ScalarMult(u, k)] returns the receiver [v], which then holds
    extended coordinates of the [k]-fold sum of the point that [u] held,
    for every 32-byte little-endian [k] and every [u] holding a point of the
    curve, with [v] and [u] the same element or not; no element other than
    the receiver is changed. *)
Theorem ScalarMult_correct (v u : ptr) (k : list byte)
    (h : Heap ExtendedGroupElement) (P : F * F) :
  (v < next h)%nat -> (u < next h)%nat -> length k = 32%nat ->
  IsOnCurve D (fst P) (snd P) = true -> represents (load u h) P ->
  let '(r, h') := ExtendedGroupElement_ScalarMult D v u k h in
  r = v /\
  represents (load r h') (emul (Z.to_nat (le_combine k)) P) /\
  ExtendedGroupElement_ToAffine (load r h')
  = (feToBig (fst (emul (Z.to_nat (le_combine k)) P)),
     feToBig (snd (emul (Z.to_nat (le_combine k)) P))) /\
  forall q, (q < next h)%nat -> q <> v -> load q h' = load q h.
Proof.
  intros Hv Hu L HC HR.
  assert (HP : onCurve P) by (destruct P; apply IsOnCurve_spec; exact HC).
  unfold ExtendedGroupElement_ScalarMult, new, ExtendedGroupElement_Set,
    ExtendedGroupElement_Zero.
  set (h1 := mkHeap (S (next h))
               (fun q => if Nat.eqb q (next h) then EGE_new else cell h q)).
  set (h3 := store v EGE_zero (store (next h) (load u h1) h1)).
  assert (Hne : v <> next h) by lia.
  assert (Lu : load u h1 = load u h).
  { unfold load, h1; cbn. destruct (Nat.eqb_spec u (next h)); [lia|reflexivity]. }
  assert (I0 : ladder_inv v (next h) P h h3
                 (Z.to_nat (le_combine k / 2 ^ Z.of_nat 256))).
  { pose proof (le_combine_lt k) as Hk. rewrite L in Hk.
    rewrite Z.div_small by exact Hk. change (Z.to_nat 0) with 0%nat.
    unfold h3. split; [|split].
    - rewrite load_store_same. apply EGE_zero_represents.
    - rewrite load_store_other, load_store_same by (intro; apply Hne; congruence).
      rewrite Lu, emul_1. exact HR.
    - intros q Q0 Q1. rewrite !load_store_other by assumption.
      unfold load, h1; cbn. destruct (Nat.eqb_spec q (next h)); [contradiction|reflexivity]. }
  pose proof (ladder_loop v (next h) P k h Hne HP L 256 h3 (le_n _) I0) as (R0 & _ & Fr).
  split; [reflexivity|]. split; [exact R0|]. split.
  - apply represents_ToAffine. exact R0.
  - intros q Hq Qv. apply Fr; [exact Qv|lia].
Qed.

(** *** Doubling is adding a point to itself *)

Definition completed_x (c : ProjP1xP1) : F := P1xP1_X c / P1xP1_Z c.
Definition completed_y (c : ProjP1xP1) : F := P1xP1_Y c / P1xP1_T c.

(** C7: for [u] holding a point of the curve (so with nonzero [Z]),
    [v.Double(u)] and [w.Add(u, u)] leave equal group elements in [v] and
    [w]: [Equal] returns 1 and the affine coordinates agree; and the completed
    [Double] of the projective form of the point has the same affine
    coordinates [X/Z], [Y/T] as the completed [Add] of the point and its own
    cached form. *)
Theorem Double_agrees_with_Add (v w u : ptr) (h : Heap ExtendedGroupElement)
    (P : F * F) :
  IsOnCurve D (fst P) (snd P) = true -> represents (load u h) P ->
  let d := load v (snd (ExtendedGroupElement_Double v u h)) in
  let a := load w (snd (ExtendedGroupElement_Add D w u u h)) in
  let p3 := mkProjP3 (EGE_X (load u h)) (EGE_Y (load u h))
                     (EGE_Z (load u h)) (EGE_T (load u h)) in
  let cd := ProjP1xP1_Double (ProjP2_FromP3 p3) in
  let ca := ProjP1xP1_Add p3 (ProjCached_FromP3 D p3) in
  (EGE_Z d <> 0 /\ EGE_Z a <> 0 /\
   ExtendedGroupElement_Equal d a = 1%Z /\
   ExtendedGroupElement_ToAffine d = ExtendedGroupElement_ToAffine a /\
   represents d (eadd P P) /\ represents a (eadd P P)) /\
  (P1xP1_Z cd <> 0 /\ P1xP1_T cd <> 0 /\ P1xP1_Z ca <> 0 /\ P1xP1_T ca <> 0 /\
   completed_x cd = completed_x ca /\ completed_y cd = completed_y ca /\
   completed_x cd = fst (eadd P P) /\ completed_y cd = snd (eadd P P) /\
   ProjP3_Equal (ProjP3_FromP1xP1 cd) (ProjP3_FromP1xP1 ca) = 1%Z).
Proof.
  intros HC HR.
  assert (HP : onCurve P) by (destruct P; apply IsOnCurve_spec; exact HC).
  unfold ExtendedGroupElement_Double, ExtendedGroupElement_Add; cbn [snd].
  rewrite !load_store_same. cbv zeta.
  pose proof (EGE_double_represents _ _ HP HR) as Rd.
  pose proof (EGE_add_represents _ _ _ _ HP HP HR HR) as Ra.
  split.
  { split; [apply Rd|]. split; [apply Ra|]. split; [exact (represents_Equal _ _ _ Rd Ra)|].
    split; [|split; assumption].
    rewrite (represents_ToAffine _ _ Rd), (represents_ToAffine _ _ Ra). reflexivity. }
  destruct P as [x y], (load u h) as [X Y Z T].
  destruct HR as (Nz & Ex & Ey & Et).
  pose proof (complete_plus _ _ _ _ HP HP) as Np.
  pose proof (complete_minus _ _ _ _ HP HP) as Nm.
  unfold onCurve in HP.
  cbn [fst snd EGE_X EGE_Y EGE_Z EGE_T] in *. subst X Y T.
  unfold completed_x, completed_y, ProjP3_Equal, ProjP3_FromP1xP1, ProjP1xP1_Double,
    ProjP1xP1_Add, ProjCached_FromP3, ProjP2_FromP3, twoD, feSquare, eadd;
    cbn [fst snd P3_X P3_Y P3_Z P3_T P2_X P2_Y P2_Z PC_YplusX PC_YminusX PC_Z PC_T2d
         P1xP1_X P1xP1_Y P1xP1_Z P1xP1_T].
  assert (Ecz : y * Z * (y * Z) - x * Z * (x * Z) = Z * Z * (1 + D * x * x * y * y)).
  { transitivity (Z * Z * (- (x * x) + y * y)); [ring|]. rewrite HP. ring. }
  assert (Ect : Z * Z + Z * Z - (y * Z * (y * Z) - x * Z * (x * Z))
                = Z * Z * (1 - D * x * x * y * y)).
  { rewrite Ecz. ring. }
  assert (Eaz : Z * Z + Z * Z + x * y * Z * (x * y * Z * (D + D))
                = (1 + 1) * (Z * Z * (1 + D * x * x * y * y))) by ring.
  assert (Eat : Z * Z + Z * Z - x * y * Z * (x * y * Z * (D + D))
                = (1 + 1) * (Z * Z * (1 - D * x * x * y * y))) by ring.
  rewrite Ect, Ecz, Eaz, Eat.
  assert (Nzp : Z * Z * (1 + D * x * x * y * y) <> 0) by (repeat apply fe_mul_nonzero; assumption).
  assert (Nzm : Z * Z * (1 - D * x * x * y * y) <> 0) by (repeat apply fe_mul_nonzero; assumption).
  split; [exact Nzp|]. split; [exact Nzm|].
  split; [apply fe_mul_nonzero; assumption|]. split; [apply fe_mul_nonzero; assumption|].
  split; [field; repeat split; assumption|].
  split; [field; repeat split; assumption|].
  split; [field; repeat split; assumption|].
  split; [field; repeat split; assumption|].
  apply (proj1 (land_bits _ _ (feEqual_01 _ _) (feEqual_01 _ _))).
  rewrite !feEqual_1. split; ring.
Qed.

End Complete.
End CurveProofs.

(* ================================================================= *)
(** ** A small instance: the curve over the integers modulo 13 *)

(** The statements about the curve hold over any field in which 2 is not 0,
    -1 is a square and [d] is not.  The integers modulo 13 with [d = 2] are
    such a field; [(2, 4)] is a point of that curve. *)

Module Field13.
Import Stdlib.Zmod.Zmod.

Lemma prime_13 : Z.prime 13.
Proof.
  apply prime_alt. apply prime_intro; [lia|]. intros n Hn.
  apply rel_prime_iff_coprime. unfold Z.coprime.
  assert (C : n = 1 \/ n = 2 \/ n = 3 \/ n = 4 \/ n = 5 \/ n = 6 \/ n = 7 \/ n = 8 \/
              n = 9 \/ n = 10 \/ n = 11 \/ n = 12) by lia.
  repeat (destruct C as [->|C]; [reflexivity|]). subst n. reflexivity.
Qed.

Lemma feEqual_spec_13 (a b : Zmod 13) :
  (a = b /\ (if Zmod.eqb a b then 1 else 0) = 1) \/
  (a <> b /\ (if Zmod.eqb a b then 1 else 0) = 0).
Proof. destruct (Zmod.eqb_spec a b); [left|right]; split; auto. Qed.

Definition FE13 : FieldElement (Zmod 13) :=
  {| feZero := Zmod.zero;
     feOne := Zmod.one;
     feAdd := Zmod.add;
     feSub := Zmod.sub;
     feMul := Zmod.mul;
     feNeg := Zmod.opp;
     feInvert := Zmod.inv;
     feEqual := fun a b => if Zmod.eqb a b then 1 else 0;
     feFromBig := Zmod.of_Z 13;
     feToBig := Zmod.to_Z;
     fe_field := Zmod.field_theory 13 prime_13;
     feEqual_spec := feEqual_spec_13 |}.

Definition D13 : Zmod 13 := Zmod.of_Z 13 2.

Definition point13 : Zmod 13 * Zmod 13 := (Zmod.of_Z 13 2, Zmod.of_Z 13 4).

Lemma Zmod13_neq (a b : Zmod 13) : Zmod.eqb a b = false -> a <> b.
Proof. intros E H. destruct (Zmod.eqb_spec a b); [discriminate|contradiction]. Qed.

Lemma two_nonzero_13 :
  @feAdd _ FE13 (@feOne _ FE13) (@feOne _ FE13) <> @feZero _ FE13.
Proof. apply Zmod13_neq. reflexivity. Qed.

Lemma sqrt_minus_one_13 :
  exists i : Zmod 13, @feMul _ FE13 i i = @feNeg _ FE13 (@feOne _ FE13).
Proof. exists (Zmod.of_Z 13 5). apply Zmod.to_Z_inj. reflexivity. Qed.

Lemma D_nonsquare_13 (x : Zmod 13) : @feMul _ FE13 x x <> D13.
Proof.
  apply Zmod13_neq.
  pose proof (Zmod.in_elements x ltac:(lia)) as H.
  revert x H. apply Forall_forall.
  repeat constructor.
Qed.

(** The heap with one element, holding [point13] in extended coordinates. *)
Definition heap13 : Heap (@ExtendedGroupElement _) :=
  mkHeap 1 (fun _ => @mkExtendedGroupElement (Zmod 13)
                        (Zmod.of_Z 13 2) (Zmod.of_Z 13 4) (Zmod.of_Z 13 1) (Zmod.of_Z 13 8)).

Lemma represents_13 : @represents _ FE13 (load 0%nat heap13) point13.
Proof.
  split; [apply Zmod13_neq; reflexivity|].
  repeat split; apply Zmod.to_Z_inj; reflexivity.
Qed.

End Field13.

Definition scalar13 : list byte := Byte.x0b :: repeat Byte.x00 31.

Lemma ScalarMult_correct_witness :
  let FE := Field13.FE13 in
  let h := Field13.heap13 in
  let P := Field13.point13 in
  let n := Z.to_nat (le_combine scalar13) in
  ((0 < next h)%nat /\ length scalar13 = 32%nat /\
   IsOnCurve Field13.D13 (fst P) (snd P) = true /\ represents (load 0%nat h) P) /\
  let '(r, h') := ExtendedGroupElement_ScalarMult Field13.D13 0%nat 0%nat scalar13 h in
  r = 0%nat /\
  represents (load r h') (emul Field13.D13 n P) /\
  ExtendedGroupElement_ToAffine (load r h')
  = (feToBig (fst (emul Field13.D13 n P)), feToBig (snd (emul Field13.D13 n P))) /\
  forall q, (q < next h)%nat -> q <> 0%nat -> load q h' = load q h.
Proof.
  intros FE h P n.
  split; [split; [apply Nat.lt_0_succ|split; [reflexivity|split; [reflexivity|exact Field13.represents_13]]]|].
  exact (@ScalarMult_correct _ Field13.FE13 Field13.D13 Field13.two_nonzero_13
           Field13.sqrt_minus_one_13 Field13.D_nonsquare_13
           0%nat 0%nat scalar13 Field13.heap13 Field13.point13
           (Nat.lt_0_succ 0) (Nat.lt_0_succ 0) eq_refl eq_refl Field13.represents_13).
Defined.

Lemma Double_agrees_with_Add_witness :
  let FE := Field13.FE13 in
  let h := Field13.heap13 in
  let P := Field13.point13 in
  let d := load 0%nat (snd (ExtendedGroupElement_Double 0%nat 0%nat h)) in
  let a := load 0%nat (snd (ExtendedGroupElement_Add Field13.D13 0%nat 0%nat 0%nat h)) in
  let p3 := mkProjP3 (EGE_X (load 0%nat h)) (EGE_Y (load 0%nat h))
                     (EGE_Z (load 0%nat h)) (EGE_T (load 0%nat h)) in
  let cd := ProjP1xP1_Double (ProjP2_FromP3 p3) in
  let ca := ProjP1xP1_Add p3 (ProjCached_FromP3 Field13.D13 p3) in
  (IsOnCurve Field13.D13 (fst P) (snd P) = true /\ represents (load 0%nat h) P) /\
  (EGE_Z d <> feZero /\ EGE_Z a <> feZero /\
   ExtendedGroupElement_Equal d a = 1 /\
   ExtendedGroupElement_ToAffine d = ExtendedGroupElement_ToAffine a /\
   represents d (eadd Field13.D13 P P) /\ represents a (eadd Field13.D13 P P)) /\
  (P1xP1_Z cd <> feZero /\ P1xP1_T cd <> feZero /\
   P1xP1_Z ca <> feZero /\ P1xP1_T ca <> feZero /\
   completed_x cd = completed_x ca /\ completed_y cd = completed_y ca /\
   completed_x cd = fst (eadd Field13.D13 P P) /\
   completed_y cd = snd (eadd Field13.D13 P P) /\
   ProjP3_Equal (ProjP3_FromP1xP1 cd) (ProjP3_FromP1xP1 ca) = 1).
Proof.
  intros FE h P.
  split; [split; [reflexivity|exact Field13.represents_13]|].
  exact (@Double_agrees_with_Add _ Field13.FE13 Field13.D13 Field13.two_nonzero_13
           Field13.sqrt_minus_one_13 Field13.D_nonsquare_13
           0%nat 0%nat 0%nat Field13.heap13 Field13.point13
           eq_refl Field13.represents_13).
Defined.

(* ================================================================= *)
(** ** The fatal programmer errors *)

Lemma nonAdjacentForm_bytes_panics (b : list byte) (w : Z) :
  length b = 32%nat ->
  ((exists msg, nonAdjacentForm_bytes b w = Panic msg) <->
   (w < 2 \/ 8 < w \/ 127 < at_ b 31)).
Proof.
  intros L. split.
  - intros [msg H].
    destruct (Z.ltb_spec 127 (at_ b 31)) as [|T]; [auto|].
    destruct (Z.ltb_spec w 2) as [|W2]; [auto|].
    destruct (Z.ltb_spec 8 w) as [|W8]; [auto|].
    destruct (nonAdjacentForm_bytes_spec b w L T ltac:(lia)) as (naf & E & _).
    rewrite E in H. discriminate.
  - intros H. unfold nonAdjacentForm_bytes.
    change (get b 31) with (get b (Z.of_nat 31)). rewrite (get_ok b 31 Byte.x00) by lia.
    cbn [bind]. fold (at_ b 31).
    destruct (Z.ltb_spec 127 (at_ b 31)) as [|T]; [eexists; reflexivity|].
    destruct (Z.ltb_spec w 2) as [|W2]; [eexists; reflexivity|].
    destruct (Z.ltb_spec 8 w) as [|W8]; [eexists; reflexivity|].
    lia.
Qed.

Lemma signedRadix16_bytes_panics (b : list byte) :
  length b = 32%nat ->
  ((exists msg, signedRadix16_bytes b = Panic msg) <-> 127 < at_ b 31).
Proof.
  intros L. split.
  - intros [msg H].
    destruct (Z.ltb_spec 127 (at_ b 31)) as [|T]; [auto|].
    destruct (signedRadix16_bytes_spec b L T) as (d & E & _).
    rewrite E in H. discriminate.
  - intros H. unfold signedRadix16_bytes.
    change (get b 31) with (get b (Z.of_nat 31)). rewrite (get_ok b 31 Byte.x00) by lia.
    cbn [bind]. fold (at_ b 31).
    destruct (Z.ltb_spec 127 (at_ b 31)) as [|T]; [eexists; reflexivity|lia].
Qed.

(** C9: [nonAdjacentForm] panics exactly when [w < 2], [w > 8] or byte 31 of
    the encoding exceeds 127; [signedRadix16] panics exactly when byte 31 of
    the encoding exceeds 127; [DoubleZ1] panics exactly when its operand's
    [Z] is not the one of the field, and returns a value otherwise.  The
    first two are stated for the method body on any 32-byte encoding and
    for the method on a scalar. *)
Theorem panics_iff_precondition_violated {F : Type} {FE : FieldElement F} :
  (forall (b : list byte) (w : Z), length b = 32%nat ->
     ((exists msg, nonAdjacentForm_bytes b w = Panic msg) <->
      (w < 2 \/ 8 < w \/ 127 < at_ b 31))) /\
  (forall (x : Scalar) (w : Z),
     (exists msg, Scalar_nonAdjacentForm x w = Panic msg) <->
     (w < 2 \/ 8 < w \/ 127 < at_ (Scalar_Bytes x) 31)) /\
  (forall b : list byte, length b = 32%nat ->
     ((exists msg, signedRadix16_bytes b = Panic msg) <-> 127 < at_ b 31)) /\
  (forall x : Scalar,
     (exists msg, Scalar_signedRadix16 x = Panic msg) <->
     127 < at_ (Scalar_Bytes x) 31) /\
  (forall u : ProjectiveGroupElement,
     (exists msg, ProjectiveGroupElement_DoubleZ1 u = Panic msg) <->
     PGE_Z u <> feOne) /\
  (forall u : ProjectiveGroupElement,
     PGE_Z u = feOne -> exists r, ProjectiveGroupElement_DoubleZ1 u = Ok r).
Proof.
  split; [exact nonAdjacentForm_bytes_panics|].
  split; [intros x w; apply nonAdjacentForm_bytes_panics, length_Scalar_Bytes|].
  split; [exact signedRadix16_bytes_panics|].
  split; [intros x; apply signedRadix16_bytes_panics, length_Scalar_Bytes|].
  split.
  - intros u. unfold ProjectiveGroupElement_DoubleZ1.
    destruct (feEqual_spec (PGE_Z u) feOne) as [[E ->]|[E ->]]; cbn [Z.eqb Pos.eqb negb].
    + split; [intros [msg H]; discriminate|intros H; contradiction].
    + split; [intros _; exact E|intros _; eexists; reflexivity].
  - intros u E. unfold ProjectiveGroupElement_DoubleZ1.
    destruct (feEqual_spec (PGE_Z u) feOne) as [[_ ->]|[N _]]; [|contradiction].
    cbn [Z.eqb Pos.eqb negb]. eexists; reflexivity.
Qed.

(* ================================================================= *)
(** * Further properties of the scalar code *)

(** ** Arithmetic on the heap *)

Lemma from_montgomery_sub (a b : Z) :
  fiat_sc255_from_montgomery (fiat_sc255_sub a b)
  = (fiat_sc255_from_montgomery a - fiat_sc255_from_montgomery b) mod l.
Proof.
  unfold fiat_sc255_from_montgomery, fiat_sc255_sub.
  rewrite Z.mul_mod_idemp_l by (pose proof l_pos; lia).
  rewrite <- Zminus_mod. f_equal. ring.
Qed.

Lemma from_montgomery_opp (a : Z) :
  fiat_sc255_from_montgomery (fiat_sc255_opp a)
  = (- fiat_sc255_from_montgomery a) mod l.
Proof.
  unfold fiat_sc255_from_montgomery, fiat_sc255_opp.
  rewrite Z.mul_mod_idemp_l by (pose proof l_pos; lia).
  rewrite <- (Z.sub_0_l (_ mod l)), <- (Z.mod_0_l l) at 1 by (pose proof l_pos; lia).
  rewrite <- Zminus_mod. f_equal. ring.
Qed.

(** X1: [Add], [Subtract], [Multiply] and [Negate] return the receiver, leave in
    it the sum, difference, product and opposite modulo [l] of the values the
    operands held before the call, whether or not an operand is the receiver
    itself, and change no other scalar. *)
Theorem Scalar_arithmetic_alias_safe (sp x y : ptr) (h : Heap Scalar) :
  let vx := Scalar_value (load x h) in
  let vy := Scalar_value (load y h) in
  (fst (Scalar_Add sp x y h) = sp /\
   Scalar_value (load sp (snd (Scalar_Add sp x y h))) = (vx + vy) mod l) /\
  (fst (Scalar_Subtract sp x y h) = sp /\
   Scalar_value (load sp (snd (Scalar_Subtract sp x y h))) = (vx - vy) mod l) /\
  (fst (Scalar_Multiply sp x y h) = sp /\
   Scalar_value (load sp (snd (Scalar_Multiply sp x y h))) = (vx * vy) mod l) /\
  (fst (Scalar_Negate sp x h) = sp /\
   Scalar_value (load sp (snd (Scalar_Negate sp x h))) = (- vx) mod l) /\
  forall q, q <> sp ->
    load q (snd (Scalar_Add sp x y h)) = load q h /\
    load q (snd (Scalar_Subtract sp x y h)) = load q h /\
    load q (snd (Scalar_Multiply sp x y h)) = load q h /\
    load q (snd (Scalar_Negate sp x h)) = load q h.
Proof.
  cbv zeta. unfold Scalar_Add, Scalar_Subtract, Scalar_Multiply, Scalar_Negate; cbn [fst snd].
  rewrite !load_store_same. unfold Scalar_value; cbn [s].
  rewrite from_montgomery_add, from_montgomery_sub, from_montgomery_mul, from_montgomery_opp.
  repeat split; try reflexivity; apply load_store_other; assumption.
Qed.

(** X2: [MultiplyAdd] leaves [x * y + z] modulo [l] in the receiver whenever [z]
    is not the receiver; [x] and [y] may be the receiver.  No other scalar
    changes. *)
Theorem MultiplyAdd_z_not_receiver (sp x y z : ptr) (h : Heap Scalar) :
  z <> sp ->
  let '(r, h') := Scalar_MultiplyAdd sp x y z h in
  r = sp /\
  Scalar_value (load sp h')
  = (Scalar_value (load x h) * Scalar_value (load y h) + Scalar_value (load z h)) mod l /\
  forall q, q <> sp -> load q h' = load q h.
Proof.
  intros Hz. pose proof (MultiplyAdd_no_alias_z sp x y z h Hz) as H.
  unfold Scalar_MultiplyAdd, Scalar_Multiply, Scalar_Add in *.
  destruct H as [H1 H2]. split; [exact H1|]. split; [exact H2|].
  intros q Hq. rewrite !load_store_other by exact Hq. reflexivity.
Qed.

(** The receiver is also the operand [x]: location 0 holds 1 and is both,
    [y] is location 1 and [z] location 2. *)
Lemma MultiplyAdd_z_not_receiver_witness :
  2%nat <> 0%nat /\
  let '(r, h') := Scalar_MultiplyAdd 0%nat 0%nat 1%nat 2%nat heap123 in
  r = 0%nat /\
  Scalar_value (load 0%nat h')
  = (Scalar_value (load 0%nat heap123) * Scalar_value (load 1%nat heap123)
     + Scalar_value (load 2%nat heap123)) mod l /\
  forall q, q <> 0%nat -> load q h' = load q heap123.
Proof.
  assert (H : 2%nat <> 0%nat) by discriminate.
  split; [exact H|]. exact (MultiplyAdd_z_not_receiver 0%nat 0%nat 1%nat 2%nat heap123 H).
Defined.

(** ** Decoding errors *)

(** X3: [SetUniformBytes] succeeds exactly on inputs of 64 bytes; on any other
    length it returns nil with the length error and changes nothing. *)
Theorem SetUniformBytes_length (sp : ptr) (x : list byte) (h : Heap Scalar) :
  let '(r, e, h') := Scalar_SetUniformBytes sp x h in
  ((r = Some sp /\ e = None) <-> length x = 64%nat) /\
  (length x <> 64%nat ->
   r = None /\
   e = Some "edwards25519: invalid SetUniformBytes input length"%string /\
   h' = h).
Proof.
  unfold Scalar_SetUniformBytes.
  destruct (Nat.eqb_spec (length x) 64) as [E|E]; cbn [negb].
  - split; [tauto|]. intros N. contradiction.
  - split; [|auto]. split; [intros [H _]; discriminate|intros H; contradiction].
Qed.

(** ** Encoding *)

Lemma list_byte_eqb_eq (a b : list byte) : list_byte_eqb a b = true <-> a = b.
Proof.
  unfold list_byte_eqb. revert b. induction a as [|x a IH]; intros [|y b]; cbn;
    try (split; [discriminate|discriminate]); [tauto|].
  specialize (IH b). rewrite !andb_true_iff in *. rewrite Nat.eqb_eq in *.
  destruct (Byte.eqb x y) eqn:E.
  - apply Byte.byte_dec_bl in E. subst y. split.
    + intros [L [_ A]]. f_equal. apply IH. auto.
    + intros H. injection H as ->. repeat split; auto; apply IH; reflexivity.
  - split; [intros [_ [H _]]; discriminate|].
    intros H. injection H as -> ->. rewrite (Byte.byte_dec_lb eq_refl) in E. discriminate.
Qed.

Lemma Scalar_Bytes_inj (x t : Scalar) :
  Scalar_Bytes x = Scalar_Bytes t <-> Scalar_value x = Scalar_value t.
Proof.
  split; intros H.
  - rewrite <- !le_combine_Scalar_Bytes. now rewrite H.
  - unfold Scalar_Bytes, Scalar_bytes, fiat_sc255_to_bytes. fold (Scalar_value x) (Scalar_value t).
    now rewrite H.
Qed.

Lemma Scalar_Equal_1 (x t : Scalar) :
  Scalar_Equal x t = 1 <-> Scalar_value x = Scalar_value t.
Proof.
  unfold Scalar_Equal, ConstantTimeCompare; cbv zeta.
  pose proof (list_byte_eqb_eq (Scalar_Bytes x) (Scalar_Bytes t)) as E.
  rewrite Scalar_Bytes_inj in E.
  destruct (list_byte_eqb (Scalar_Bytes x) (Scalar_Bytes t)).
  - split; intros; [tauto|reflexivity].
  - split; [discriminate|]. intros H. assert (false = true) by tauto. discriminate.
Qed.

Lemma Scalar_Equal_01 (x t : Scalar) : Scalar_Equal x t = 0 \/ Scalar_Equal x t = 1.
Proof.
  unfold Scalar_Equal, ConstantTimeCompare; cbv zeta.
  destruct (list_byte_eqb (Scalar_Bytes x) (Scalar_Bytes t)); auto.
Qed.

(** X4: [Equal] returns 1 when the two scalars denote the same integer modulo
    [l] and 0 otherwise, whatever their internal representation. *)
Theorem Scalar_Equal_spec (x t : Scalar) :
  (Scalar_Equal x t = 1 <-> Scalar_value x = Scalar_value t) /\
  (Scalar_Equal x t = 0 <-> Scalar_value x <> Scalar_value t) /\
  Scalar_Equal x t = Scalar_Equal t x.
Proof.
  pose proof (Scalar_Equal_1 x t) as E. pose proof (Scalar_Equal_1 t x) as E'.
  split; [exact E|]. split.
  - destruct (Scalar_Equal_01 x t) as [Z|Z]; rewrite Z in *.
    + split; [|reflexivity]. intros _ N. apply E in N. discriminate.
    + split; [discriminate|]. intros N. exfalso. apply N, E. reflexivity.
  - destruct (Scalar_Equal_01 x t) as [Z|Z], (Scalar_Equal_01 t x) as [Z'|Z'];
      rewrite Z, Z' in *; try reflexivity; exfalso.
    + assert (H : Scalar_value t = Scalar_value x) by (apply E'; reflexivity).
      symmetry in H. apply E in H. discriminate.
    + assert (H : Scalar_value x = Scalar_value t) by (apply E; reflexivity).
      symmetry in H. apply E' in H. discriminate.
Qed.

(** X5: [Bytes] is always the canonical encoding: 32 bytes denoting the value,
    which is below [l]; decoding it with [SetCanonicalBytes] succeeds and
    gives a scalar with the same bytes, equal to the first. *)
Theorem Bytes_SetCanonicalBytes_roundtrip (sp : ptr) (x : Scalar) (h : Heap Scalar) :
  length (Scalar_Bytes x) = 32%nat /\
  0 <= le_combine (Scalar_Bytes x) < l /\
  isReduced (Scalar_Bytes x) = true /\
  exists h',
    Scalar_SetCanonicalBytes sp (Scalar_Bytes x) h = (Some sp, None, h') /\
    Scalar_Bytes (load sp h') = Scalar_Bytes x /\
    Scalar_Equal (load sp h') x = 1 /\
    forall q, q <> sp -> load q h' = load q h.
Proof.
  pose proof (length_Scalar_Bytes x) as L.
  pose proof (Scalar_Bytes_canonical x) as C.
  pose proof (le_combine_lt (Scalar_Bytes x)) as [P _].
  assert (R : isReduced (Scalar_Bytes x) = true) by (apply isReduced_spec; auto).
  split; [exact L|]. split; [lia|]. split; [exact R|].
  unfold Scalar_SetCanonicalBytes. rewrite L. cbn [Nat.eqb negb].
  rewrite copy_same_length by (rewrite L; reflexivity).
  rewrite R. cbn [negb].
  eexists. split; [reflexivity|].
  rewrite load_store_same.
  assert (B : Scalar_Bytes (mkScalar (fiat_sc255_to_montgomery
                                        (fiat_sc255_from_bytes (Scalar_Bytes x))))
              = Scalar_Bytes x) by (apply Scalar_Bytes_lift; assumption).
  split; [exact B|]. split.
  - apply Scalar_Equal_1. apply Scalar_Bytes_inj. exact B.
  - intros q Hq. apply load_store_other. exact Hq.
Qed.

(** ** The wide reduction on reduced input *)

Lemma firstn_32_reduced (a : list byte) :
  length a = 64%nat -> le_combine a < 2 ^ 256 ->
  le_split 32 (le_combine a) = firstn 32 a.
Proof.
  intros L R.
  assert (L32 : length (firstn 32 a) = 32%nat) by (rewrite length_firstn; lia).
  rewrite <- (split_le_combine (firstn 32 a)), L32. f_equal.
  rewrite le_combine_firstn. symmetry. apply Z.mod_small.
  pose proof (le_combine_lt a). change (8 * Z.of_nat 32) with 256. lia.
Qed.

(** X6: [scReduce] returns the low 32 bytes of an input that already denotes an
    integer below [l]; so reducing its own output, extended by 32 zero
    bytes, changes nothing. *)
Theorem scReduce_reduced_input (a : list byte) :
  length a = 64%nat ->
  (le_combine a < l -> scReduce a = firstn 32 a) /\
  scReduce (scReduce a ++ repeat Byte.x00 32) = scReduce a.
Proof.
  intros L. split.
  - intros R. rewrite scReduce_spec by exact L.
    pose proof (le_combine_lt a) as [P _].
    rewrite Z.mod_small by lia.
    apply firstn_32_reduced; [exact L|]. pose proof l_lt_256. lia.
  - pose proof (le_combine_scReduce a L) as V.
    assert (L32 : length (scReduce a) = 32%nat).
    { rewrite scReduce_spec by exact L. apply length_le_split. }
    assert (L64 : length (scReduce a ++ repeat Byte.x00 32) = 64%nat).
    { rewrite length_app, L32, repeat_length. reflexivity. }
    rewrite (scReduce_spec _ L64), le_combine_app_0, V.
    rewrite Z.mod_mod by (pose proof l_pos; lia).
    symmetry. apply scReduce_spec. exact L.
Qed.

Lemma scReduce_reduced_input_witness :
  length input64 = 64%nat /\
  (le_combine input64 < l -> scReduce input64 = firstn 32 input64) /\
  scReduce (scReduce input64 ++ repeat Byte.x00 32) = scReduce input64.
Proof. split; [reflexivity|]. exact (scReduce_reduced_input input64 eq_refl). Defined.

(** ** The integer that clamping gives *)

Lemma clamp_low_byte (b : byte) :
  byte.unsigned (byte.of_Z (Z.land (byte.unsigned b) 248))
  = byte.unsigned b - byte.unsigned b mod 8.
Proof. destruct b; reflexivity. Qed.

Lemma clamp_high_byte (b : byte) :
  byte.unsigned (byte.of_Z (Z.lor (byte.unsigned (byte.of_Z (Z.land (byte.unsigned b) 63))) 64))
  = byte.unsigned b mod 64 + 64.
Proof. destruct b; reflexivity. Qed.

Lemma clamp_spec_shape (b0 b31 : byte) (mid : list byte) :
  length mid = 30%nat ->
  clamp_spec (b0 :: mid ++ [b31])
  = byte.of_Z (Z.land (byte.unsigned b0) 248)
    :: mid ++ [byte.of_Z (Z.lor (byte.unsigned (byte.of_Z (Z.land (byte.unsigned b31) 63))) 64)].
Proof.
  intros L. destruct_list mid 30%nat. reflexivity.
Qed.

Lemma clamp_value (x : list byte) :
  length x = 32%nat ->
  le_combine (clamp_spec x)
  = 2 ^ 254 + le_combine x mod 2 ^ 254 - le_combine x mod 8.
Proof.
  intros L. destruct x as [|b0 t]; [discriminate|].
  assert (Lt : length t = 31%nat) by (cbn in L; lia).
  rewrite (firstn_skipn_nth Byte.x00 30 t Lt).
  set (mid := firstn 30 t). set (b31 := nth 30 t Byte.x00).
  assert (Lm : length mid = 30%nat) by (unfold mid; rewrite length_firstn; lia).
  rewrite clamp_spec_shape by exact Lm.
  rewrite !le_combine_cons, !le_combine_snoc, Lm, clamp_low_byte, clamp_high_byte.
  pose proof (le_combine_lt mid) as Hm. rewrite Lm in Hm.
  pose proof (byte_range b0) as H0. pose proof (byte_range b31) as H31.
  change (2 ^ (8 * Z.of_nat 30)) with (2 ^ 240) in *.
  generalize dependent (le_combine mid). generalize dependent (byte.unsigned b0).
  generalize dependent (byte.unsigned b31). clear. intros c Hc a Ha m Hm.
  assert (E8 : (a + 256 * (m + 2 ^ 240 * c)) mod 8 = a mod 8).
  { replace (a + 256 * (m + 2 ^ 240 * c)) with (a + (32 * (m + 2 ^ 240 * c)) * 8) by ring.
    apply Z.mod_add. lia. }
  assert (E254 : (a + 256 * (m + 2 ^ 240 * c)) mod 2 ^ 254
                 = a + 256 * (m + 2 ^ 240 * (c mod 64))).
  { rewrite (Z.div_mod c 64) at 1 by lia.
    replace (a + 256 * (m + 2 ^ 240 * (64 * (c / 64) + c mod 64)))
      with ((a + 256 * (m + 2 ^ 240 * (c mod 64))) + (c / 64) * 2 ^ 254).
    2:{ change (2 ^ 254) with (256 * 2 ^ 240 * 64). ring. }
    rewrite Z.mod_add by (apply Z.pow_nonzero; lia).
    apply Z.mod_small.
    pose proof (Z.mod_pos_bound c 64 ltac:(lia)).
    change (2 ^ 254) with (256 * 2 ^ 240 * 64). change (2 ^ 240) with (Z.pow_pos 2 240) in *.
    nia. }
  rewrite E8, E254. change (2 ^ 254) with (256 * 2 ^ 240 * 64). ring.
Qed.

(** X7: On a 32-byte input denoting [n], [SetBytesWithClamping] leaves in the
    receiver the integer [2^254 + n mod 2^254 - n mod 8] reduced modulo [l]:
    bits 0, 1, 2 and 255 of the input are cleared and bit 254 is set before
    the reduction. *)
Theorem SetBytesWithClamping_value (sp : ptr) (x : list byte) (h : Heap Scalar) :
  length x = 32%nat ->
  let n := le_combine x in
  let c := 2 ^ 254 + n mod 2 ^ 254 - n mod 8 in
  (c mod 8 = 0 /\ 2 ^ 254 <= c < 2 ^ 255) /\
  Scalar_value (load sp (snd (Scalar_SetBytesWithClamping sp x h))) = c mod l.
Proof.
  intros L n c. split.
  - subst c. pose proof (Z.mod_pos_bound n (2 ^ 254) ltac:(lia)) as B.
    pose proof (Z.mod_pos_bound n 8 ltac:(lia)) as B8.
    assert (M : (n mod 2 ^ 254) mod 8 = n mod 8).
    { apply Z.mod_mod_divide. exists (2 ^ 251). reflexivity. }
    assert (D8 : (2 ^ 254 + n mod 2 ^ 254 - n mod 8) mod 8 = 0).
    { rewrite <- M.
      rewrite (Z.div_mod (n mod 2 ^ 254) 8) at 1 by lia.
      replace (2 ^ 254 + (8 * (n mod 2 ^ 254 / 8) + (n mod 2 ^ 254) mod 8)
               - (n mod 2 ^ 254) mod 8)
        with ((2 ^ 251 + n mod 2 ^ 254 / 8) * 8)
        by (change (2 ^ 254) with (2 ^ 251 * 8); ring).
      apply Z.mod_mul. lia. }
    split; [exact D8|].
    assert (n mod 8 <= n mod 2 ^ 254).
    { rewrite <- M. apply Z.mod_le; lia. }
    change (2 ^ 255) with (2 ^ 254 + 2 ^ 254). lia.
  - unfold Scalar_SetBytesWithClamping. rewrite L. cbn [Nat.eqb negb snd].
    rewrite clamp_wide_code by exact L.
    rewrite load_store_same. unfold Scalar_value; cbn [s].
    unfold fiat_sc255_from_bytes. rewrite from_to_montgomery.
    assert (L64 : length (clamp_wide_spec x) = 64%nat).
    { unfold clamp_wide_spec. rewrite length_app, length_clamp_spec, L. reflexivity. }
    rewrite le_combine_scReduce by exact L64.
    rewrite Z.mod_mod by (pose proof l_pos; lia).
    unfold clamp_wide_spec. rewrite le_combine_app_0, clamp_value by exact L.
    reflexivity.
Qed.

Lemma SetBytesWithClamping_value_witness :
  length input32 = 32%nat /\
  let n := le_combine input32 in
  let c := 2 ^ 254 + n mod 2 ^ 254 - n mod 8 in
  (c mod 8 = 0 /\ 2 ^ 254 <= c < 2 ^ 255) /\
  Scalar_value (load 0%nat (snd (Scalar_SetBytesWithClamping 0%nat input32 heap123))) = c mod l.
Proof.
  split; [reflexivity|]. exact (SetBytesWithClamping_value 0%nat input32 heap123 eq_refl).
Defined.

(** ** Non-adjacency of the non-adjacent form *)

(** Two nonzero digits are at least [w] positions apart. *)
Definition naf_gap (w : Z) (naf : list Z) : Prop :=
  forall i j : nat, (i < j)%nat -> nth i naf 0 <> 0 -> nth j naf 0 <> 0 ->
    Z.of_nat i + w <= Z.of_nat j.

(** The digits written before the position [pos] of the loop. *)
Definition naf_sep (w pos : Z) (naf : list Z) : Prop :=
  (forall i : nat, pos <= Z.of_nat i -> nth i naf 0 = 0) /\
  (forall i : nat, nth i naf 0 <> 0 -> Z.of_nat i + w <= pos) /\
  naf_gap w naf.

Lemma naf_sep_skip (w pos : Z) (naf : list Z) :
  naf_sep w pos naf -> naf_sep w (pos + 1) naf.
Proof.
  intros (A & B & C). split; [|split]; [| |exact C].
  - intros i Hi. apply A. lia.
  - intros i Hi. specialize (B i Hi). lia.
Qed.

Lemma naf_sep_write (w pos v : Z) (naf : list Z) :
  1 <= w -> 0 <= pos ->
  naf_sep w pos naf -> naf_sep w (pos + w) (upd (Z.to_nat pos) v naf).
Proof.
  intros Hw Hp (A & B & C).
  assert (O : forall i : nat, i <> Z.to_nat pos ->
                nth i (upd (Z.to_nat pos) v naf) 0 = nth i naf 0).
  { intros i Hi. apply nth_upd_other. congruence. }
  split; [|split].
  - intros i Hi. rewrite O by lia. apply A. lia.
  - intros i Hi. destruct (Nat.eq_dec i (Z.to_nat pos)) as [->|N]; [lia|].
    rewrite O in Hi by exact N. specialize (B i Hi). lia.
  - intros i j Hij Hi Hj.
    destruct (Nat.eq_dec j (Z.to_nat pos)) as [->|Nj].
    + rewrite O in Hi by lia. specialize (B i Hi). lia.
    + rewrite O in Hj by exact Nj.
      destruct (Nat.eq_dec i (Z.to_nat pos)) as [->|Ni].
      * exfalso. apply Hj, A. lia.
      * rewrite O in Hi by exact Ni. apply C; assumption.
Qed.

Lemma naf_loop_gap (w : Z) (digits : list Z) (width windowMask : Z) :
  1 <= w ->
  forall (fuel : nat) (pos carry : Z) (naf r : list Z),
    0 <= pos -> naf_sep w pos naf ->
    naf_loop fuel w digits width windowMask pos carry naf = Ok r ->
    naf_gap w r.
Proof.
  intros Hw. induction fuel as [|fuel IH]; intros pos carry naf r Hp S E.
  - cbn [naf_loop] in E. destruct (pos <? 256); cbn [negb] in E; [discriminate|].
    injection E as <-. apply S.
  - cbn [naf_loop] in E. destruct (pos <? 256); cbn [negb] in E.
    2:{ injection E as <-. apply S. }
    match type of E with
    | bind ?m _ = _ => destruct m as [bitBuf|msg|]; cbn [bind] in E; try discriminate
    end.
    cbv zeta in E.
    destruct (Z.land (uint64 (carry + Z.land bitBuf windowMask)) 1 =? 0).
    + apply (IH (pos + 1) carry naf r); [lia|apply naf_sep_skip; exact S|exact E].
    + destruct (uint64 (carry + Z.land bitBuf windowMask) <? width / 2).
      * unfold set in E.
        destruct ((0 <=? pos) && (pos <? Z.of_nat (length naf)))%bool;
          cbn [bind] in E; [|discriminate].
        eapply (IH (pos + w)); [lia|apply naf_sep_write; eassumption|exact E].
      * unfold set in E.
        destruct ((0 <=? pos) && (pos <? Z.of_nat (length naf)))%bool;
          cbn [bind] in E; [|discriminate].
        eapply (IH (pos + w)); [lia|apply naf_sep_write; eassumption|exact E].
Qed.

Lemma naf_sep_init (w : Z) : 0 <= w -> naf_sep w 0 (repeat 0 256).
Proof.
  intros Hw.
  assert (Z0 : forall i : nat, nth i (repeat 0 256) 0 = 0).
  { intros i. destruct (Nat.lt_ge_cases i 256).
    - apply nth_repeat_lt. assumption.
    - apply nth_overflow. rewrite repeat_length. assumption. }
  split; [|split].
  - intros i _. apply Z0.
  - intros i Hi. exfalso. apply Hi, Z0.
  - intros i j _ Hi. exfalso. apply Hi, Z0.
Qed.

Lemma bind_Ok_inv {A B : Type} (m : outcome A) (f : A -> outcome B) (r : B) :
  bind m f = Ok r -> exists a, m = Ok a /\ f a = Ok r.
Proof. destruct m as [a|msg|]; cbn [bind]; intros H; try discriminate. exists a. auto. Qed.

Lemma nonAdjacentForm_bytes_gap (b : list byte) (w : Z) (naf : list Z) :
  1 <= w -> nonAdjacentForm_bytes b w = Ok naf -> naf_gap w naf.
Proof.
  intros Hw E. unfold nonAdjacentForm_bytes in E.
  apply bind_Ok_inv in E. destruct E as (b31 & _ & E).
  destruct (127 <? byte.unsigned b31); [discriminate|].
  destruct (w <? 2); [discriminate|].
  destruct (8 <? w); [discriminate|].
  apply bind_Ok_inv in E. destruct E as (digits & _ & E).
  exact (naf_loop_gap w _ _ _ Hw _ 0 _ _ _ (Z.le_refl 0) (naf_sep_init w ltac:(lia)) E).
Qed.

(** X8: For a window width [w] from 2 to 8, [nonAdjacentForm] returns digits in
    which any two nonzero digits are at least [w] positions apart: after a
    nonzero digit the next [w - 1] digits are zero. *)
Theorem nonAdjacentForm_non_adjacent (x : Scalar) (w : Z) :
  2 <= w <= 8 ->
  exists naf,
    Scalar_nonAdjacentForm x w = Ok naf /\
    (forall i j : nat, (i < j)%nat -> nth i naf 0 <> 0 -> nth j naf 0 <> 0 ->
       Z.of_nat i + w <= Z.of_nat j) /\
    (forall i k : nat, nth i naf 0 <> 0 -> (0 < k)%nat -> Z.of_nat k < w ->
       nth (i + k) naf 0 = 0).
Proof.
  intros Hw.
  destruct (nonAdjacentForm_bytes_spec (Scalar_Bytes x) w (length_Scalar_Bytes x)
              (Scalar_Bytes_top_clear x) Hw) as (naf & E & _).
  exists naf. split; [exact E|].
  assert (G : naf_gap w naf).
  { apply (nonAdjacentForm_bytes_gap (Scalar_Bytes x) w naf); [lia|exact E]. }
  split; [exact G|].
  intros i k Hi Hk Hkw.
  destruct (Z.eq_dec (nth (i + k) naf 0) 0) as [Z0|N]; [exact Z0|].
  specialize (G i (i + k)%nat ltac:(lia) Hi N). lia.
Qed.

Lemma nonAdjacentForm_non_adjacent_witness :
  2 <= 5 <= 8 /\
  exists naf,
    Scalar_nonAdjacentForm scalar_example 5 = Ok naf /\
    (forall i j : nat, (i < j)%nat -> nth i naf 0 <> 0 -> nth j naf 0 <> 0 ->
       Z.of_nat i + 5 <= Z.of_nat j) /\
    (forall i k : nat, nth i naf 0 <> 0 -> (0 < k)%nat -> Z.of_nat k < 5 ->
       nth (i + k) naf 0 = 0).
Proof.
  assert (H : 2 <= 5 <= 8) by lia.
  split; [exact H|]. exact (nonAdjacentForm_non_adjacent scalar_example 5 H).
Defined.

(* ================================================================= *)
(** * Further properties of the curve code *)

Section CurveMore.
Context {F : Type} {FE : FieldElement F}.
Variable D : F.

Local Notation "0" := feZero : fe_scope.
Local Notation "1" := feOne : fe_scope.
Local Infix "+" := feAdd : fe_scope.
Local Infix "-" := feSub : fe_scope.
Local Infix "*" := feMul : fe_scope.
Local Notation "- x" := (feNeg x) : fe_scope.
Local Notation "x / y" := (feMul x (feInvert y)) : fe_scope.
Local Open Scope fe_scope.

Add Field fe_fld_more : (@fe_field_div F FE).

(** The opposite of an affine point. *)
Definition eneg (P : F * F) : F * F := (- fst P, snd P).

(** [p] holds extended coordinates of [P], for the type [ProjP3]. *)
Definition represents3 (p : ProjP3) (P : F * F) : Prop :=
  P3_Z p <> 0 /\
  P3_X p = fst P * P3_Z p /\
  P3_Y p = snd P * P3_Z p /\
  P3_T p = fst P * snd P * P3_Z p.

(** [c] holds completed coordinates of [P]: [x = X/Z], [y = Y/T]. *)
Definition represents_completed (c : ProjP1xP1) (P : F * F) : Prop :=
  P1xP1_Z c <> 0 /\ P1xP1_T c <> 0 /\
  P1xP1_X c = fst P * P1xP1_Z c /\
  P1xP1_Y c = snd P * P1xP1_T c.

Lemma onCurve_eneg (P : F * F) : onCurve D P -> onCurve D (eneg P).
Proof.
  unfold onCurve, eneg; cbn [fst snd]. intros H.
  transitivity (- (fst P * fst P) + snd P * snd P); [ring|].
  rewrite H. ring.
Qed.

Lemma both_1 (a b c d : F) :
  a = b -> c = d -> Z.land (feEqual a b) (feEqual c d) = 1%Z.
Proof.
  intros H1 H2.
  apply (proj1 (land_bits _ _ (feEqual_01 _ _) (feEqual_01 _ _))).
  rewrite !feEqual_1. auto.
Qed.

(** ** Conversions between the coordinate systems *)

(** X9: The conversions from completed coordinates keep the point: for a
    completed point with nonzero [Z] and [T], [ProjP3.FromP1xP1] gives
    extended coordinates with [X/Z] and [Y/Z] equal to the completed [X/Z] and
    [Y/T] and with [T Z = X Y]; [ProjP2.FromP1xP1] gives the same [X], [Y], [Z]. *)
Theorem FromP1xP1_keeps_point (c : ProjP1xP1) :
  P1xP1_Z c <> 0 -> P1xP1_T c <> 0 ->
  let p3 := ProjP3_FromP1xP1 c in
  P3_Z p3 <> 0 /\
  P3_X p3 / P3_Z p3 = P1xP1_X c / P1xP1_Z c /\
  P3_Y p3 / P3_Z p3 = P1xP1_Y c / P1xP1_T c /\
  P3_T p3 * P3_Z p3 = P3_X p3 * P3_Y p3 /\
  ProjP2_FromP1xP1 c = ProjP2_FromP3 p3.
Proof.
  intros Nz Nt. destruct c as [X Y Z T]; cbn [P1xP1_X P1xP1_Y P1xP1_Z P1xP1_T] in *.
  unfold ProjP3_FromP1xP1, ProjP2_FromP1xP1, ProjP2_FromP3;
    cbn [P1xP1_X P1xP1_Y P1xP1_Z P1xP1_T P3_X P3_Y P3_Z P3_T].
  split; [apply fe_mul_nonzero; assumption|].
  split; [field; split; assumption|].
  split; [field; split; assumption|].
  split; [ring|reflexivity].
Qed.

(** X10: [ProjP3.FromP2] gives extended coordinates of the same point: the result
    satisfies [T Z = X Y], its [X : Y : Z] is that of the argument scaled by
    [Z], and dropping [T] again with [ProjP2.FromP3] gives a tuple
    cross-equal to the argument; converting any extended tuple to [ProjP2]
    and back gives a tuple that [Equal] accepts. *)
Theorem FromP2_FromP3_roundtrip (p : ProjP2) (v : ProjP3) :
  let q := ProjP3_FromP2 p in
  let p' := ProjP2_FromP3 q in
  P3_T q * P3_Z q = P3_X q * P3_Y q /\
  (P2_X p' = P2_Z p * P2_X p /\ P2_Y p' = P2_Z p * P2_Y p /\ P2_Z p' = P2_Z p * P2_Z p) /\
  (P2_Z p <> 0 -> P3_Z q <> 0) /\
  ProjP3_Equal (ProjP3_FromP2 (ProjP2_FromP3 v)) v = 1%Z.
Proof.
  destruct p as [X Y Z], v as [X' Y' Z' T'].
  unfold ProjP3_FromP2, ProjP2_FromP3, ProjP3_Equal, feSquare;
    cbn [P2_X P2_Y P2_Z P3_X P3_Y P3_Z P3_T].
  split; [ring|]. split; [repeat split; ring|].
  split; [intros N; apply fe_mul_nonzero; assumption|].
  apply both_1; ring.
Qed.

(** X11: For the legacy types, [ToExtended] after [ToProjective] gives an element
    that [Equal] accepts as the original; the extended element [ToExtended]
    builds satisfies [T Z = X Y] and, for a nonzero [Z], has the affine
    coordinates of its argument. *)
Theorem ToProjective_ToExtended_roundtrip (v : ExtendedGroupElement)
    (p : ProjectiveGroupElement) :
  ExtendedGroupElement_Equal
    (ProjectiveGroupElement_ToExtended (ExtendedGroupElement_ToProjective v)) v = 1%Z /\
  ExtendedGroupElement_ToProjective (ProjectiveGroupElement_ToExtended p)
  = mkProjectiveGroupElement (PGE_X p * PGE_Z p) (PGE_Y p * PGE_Z p) (PGE_Z p * PGE_Z p) /\
  (let e := ProjectiveGroupElement_ToExtended p in
   EGE_T e * EGE_Z e = EGE_X e * EGE_Y e) /\
  (PGE_Z p <> 0 ->
   ProjectiveGroupElement_ToAffine
     (ExtendedGroupElement_ToProjective (ProjectiveGroupElement_ToExtended p))
   = ProjectiveGroupElement_ToAffine p).
Proof.
  destruct v as [X Y Z T], p as [X' Y' Z'].
  unfold ProjectiveGroupElement_ToExtended, ExtendedGroupElement_ToProjective,
    ExtendedGroupElement_Equal, ProjectiveGroupElement_ToAffine, feSquare;
    cbn [EGE_X EGE_Y EGE_Z EGE_T PGE_X PGE_Y PGE_Z].
  split; [apply both_1; ring|]. split; [reflexivity|]. split; [ring|].
  intros N. f_equal; f_equal; field; assumption.
Qed.

(** X12: [FromAffine] builds coordinates with [Z = 1] of the point whose
    coordinates [FromBig] gives, and [ToAffine] returns [ToBig] of these
    coordinates. *)
Theorem FromAffine_ToAffine (x y : Z) :
  represents (ExtendedGroupElement_FromAffine x y) (feFromBig x, feFromBig y) /\
  EGE_Z (ExtendedGroupElement_FromAffine x y) = 1 /\
  ExtendedGroupElement_ToAffine (ExtendedGroupElement_FromAffine x y)
  = (feToBig (feFromBig x), feToBig (feFromBig y)) /\
  PGE_Z (ProjectiveGroupElement_FromAffine x y) = 1 /\
  ProjectiveGroupElement_ToAffine (ProjectiveGroupElement_FromAffine x y)
  = (feToBig (feFromBig x), feToBig (feFromBig y)) /\
  ExtendedGroupElement_ToProjective (ExtendedGroupElement_FromAffine x y)
  = ProjectiveGroupElement_FromAffine x y.
Proof.
  pose proof (F_1_neq_0 (@fe_field_div F FE)) as N1.
  unfold ExtendedGroupElement_FromAffine, ProjectiveGroupElement_FromAffine,
    ExtendedGroupElement_ToAffine, ProjectiveGroupElement_ToAffine,
    ExtendedGroupElement_ToProjective, represents;
    cbn [EGE_X EGE_Y EGE_Z EGE_T PGE_X PGE_Y PGE_Z fst snd].
  split; [repeat split; try ring; exact N1|].
  split; [reflexivity|].
  split; [f_equal; f_equal; field; exact N1|].
  split; [reflexivity|].
  split; [f_equal; f_equal; field; exact N1|reflexivity].
Qed.

(** X13: The zero values of the point types are converted into one another. *)
Theorem Zero_conversions :
  ProjP2_FromP3 ProjP3_Zero = ProjP2_Zero /\
  ProjP3_FromP2 ProjP2_Zero = ProjP3_Zero /\
  ProjP3_FromP1xP1 ProjP1xP1_Zero = ProjP3_Zero /\
  ProjP2_FromP1xP1 ProjP1xP1_Zero = ProjP2_Zero /\
  ProjCached_FromP3 D ProjP3_Zero = ProjCached_Zero /\
  AffineCached_FromP3 D ProjP3_Zero = AffineCached_Zero /\
  ExtendedGroupElement_ToProjective EGE_zero = ProjectiveGroupElement_Zero /\
  ProjectiveGroupElement_ToExtended ProjectiveGroupElement_Zero = EGE_zero.
Proof.
  pose proof (F_1_neq_0 (@fe_field_div F FE)) as N1.
  unfold ProjP2_FromP3, ProjP3_FromP2, ProjP3_FromP1xP1, ProjP2_FromP1xP1, ProjCached_FromP3,
    AffineCached_FromP3, ExtendedGroupElement_ToProjective, ProjectiveGroupElement_ToExtended,
    ProjP3_Zero, ProjP2_Zero, ProjP1xP1_Zero, ProjCached_Zero, AffineCached_Zero, EGE_zero,
    ProjectiveGroupElement_Zero, twoD, feSquare;
    cbn [P2_X P2_Y P2_Z P3_X P3_Y P3_Z P3_T P1xP1_X P1xP1_Y P1xP1_Z P1xP1_T
         EGE_X EGE_Y EGE_Z EGE_T PGE_X PGE_Y PGE_Z].
  repeat split; try reflexivity; f_equal; try ring; field; exact N1.
Qed.

(** ** Negation, subtraction and the mixed forms *)

(** X14: [ProjP3.Sub] is [ProjP3.Add] of the negated second operand, coordinate
    by coordinate; [ProjP3.Neg] undoes itself and negates the point held. *)
Theorem ProjP3_Sub_is_Add_Neg (p q : ProjP3) (Q : F * F) :
  ProjP3_Sub D p q = ProjP3_Add D p (ProjP3_Neg q) /\
  ProjP3_Neg (ProjP3_Neg q) = q /\
  (represents3 q Q -> represents3 (ProjP3_Neg q) (eneg Q)) /\
  (IsOnCurve D (fst Q) (snd Q) = true ->
   IsOnCurve D (fst (eneg Q)) (snd (eneg Q)) = true).
Proof.
  destruct p as [X1 Y1 Z1 T1], q as [X2 Y2 Z2 T2], Q as [x y].
  unfold ProjP3_Sub, ProjP3_Add, ProjP3_Neg, ProjP1xP1_Sub, ProjP1xP1_Add, ProjCached_FromP3,
    ProjP3_FromP1xP1, represents3, eneg, twoD;
    cbn [P3_X P3_Y P3_Z P3_T PC_YplusX PC_YminusX PC_Z PC_T2d
         P1xP1_X P1xP1_Y P1xP1_Z P1xP1_T fst snd].
  split; [f_equal; ring|]. split; [f_equal; ring|]. split.
  - intros (N & -> & -> & ->). repeat split; try ring. exact N.
  - intros H. apply IsOnCurve_spec. apply IsOnCurve_spec in H.
    exact (onCurve_eneg (x, y) H).
Qed.

(** X15: The mixed operations agree with the projective ones: for [q] with
    nonzero [Z], [AddAffine] (and [SubAffine]) of [p] and the affine cached
    form of [q] gives the completed coordinates of [Add] (and [Sub]) of [p] and
    the projective cached form of [q], each divided by [q]'s [Z]; so both
    convert to extended tuples that [Equal] accepts as equal. *)
Theorem AddAffine_agrees_with_Add (p q : ProjP3) :
  P3_Z q <> 0 ->
  let a := ProjP1xP1_Add p (ProjCached_FromP3 D q) in
  let m := ProjP1xP1_AddAffine p (AffineCached_FromP3 D q) in
  let a' := ProjP1xP1_Sub p (ProjCached_FromP3 D q) in
  let m' := ProjP1xP1_SubAffine p (AffineCached_FromP3 D q) in
  (P1xP1_X a = P3_Z q * P1xP1_X m /\ P1xP1_Y a = P3_Z q * P1xP1_Y m /\
   P1xP1_Z a = P3_Z q * P1xP1_Z m /\ P1xP1_T a = P3_Z q * P1xP1_T m /\
   ProjP3_Equal (ProjP3_FromP1xP1 m) (ProjP3_FromP1xP1 a) = 1%Z) /\
  (P1xP1_X a' = P3_Z q * P1xP1_X m' /\ P1xP1_Y a' = P3_Z q * P1xP1_Y m' /\
   P1xP1_Z a' = P3_Z q * P1xP1_Z m' /\ P1xP1_T a' = P3_Z q * P1xP1_T m' /\
   ProjP3_Equal (ProjP3_FromP1xP1 m') (ProjP3_FromP1xP1 a') = 1%Z).
Proof.
  intros N. destruct p as [X1 Y1 Z1 T1], q as [X2 Y2 Z2 T2].
  cbn [P3_Z] in N.
  unfold ProjP1xP1_Add, ProjP1xP1_AddAffine, ProjP1xP1_Sub, ProjP1xP1_SubAffine,
    ProjCached_FromP3, AffineCached_FromP3, ProjP3_Equal, ProjP3_FromP1xP1, twoD;
    cbn [P3_X P3_Y P3_Z P3_T PC_YplusX PC_YminusX PC_Z PC_T2d AC_YplusX AC_YminusX AC_T2d
         P1xP1_X P1xP1_Y P1xP1_Z P1xP1_T].
  assert (EX : (Y1 + X1) * (Y2 + X2) - (Y1 - X1) * (Y2 - X2)
               = Z2 * ((Y1 + X1) * ((Y2 + X2) / Z2) - (Y1 - X1) * ((Y2 - X2) / Z2)))
    by (field; exact N).
  assert (EY : (Y1 + X1) * (Y2 + X2) + (Y1 - X1) * (Y2 - X2)
               = Z2 * ((Y1 + X1) * ((Y2 + X2) / Z2) + (Y1 - X1) * ((Y2 - X2) / Z2)))
    by (field; exact N).
  assert (EZ : Z1 * Z2 + Z1 * Z2 + T1 * (T2 * (D + D))
               = Z2 * (Z1 + Z1 + T1 * (T2 * (D + D) / Z2))) by (field; exact N).
  assert (ET : Z1 * Z2 + Z1 * Z2 - T1 * (T2 * (D + D))
               = Z2 * (Z1 + Z1 - T1 * (T2 * (D + D) / Z2))) by (field; exact N).
  assert (EX' : (Y1 + X1) * (Y2 - X2) - (Y1 - X1) * (Y2 + X2)
                = Z2 * ((Y1 + X1) * ((Y2 - X2) / Z2) - (Y1 - X1) * ((Y2 + X2) / Z2)))
    by (field; exact N).
  assert (EY' : (Y1 + X1) * (Y2 - X2) + (Y1 - X1) * (Y2 + X2)
                = Z2 * ((Y1 + X1) * ((Y2 - X2) / Z2) + (Y1 - X1) * ((Y2 + X2) / Z2)))
    by (field; exact N).
  split.
  - split; [exact EX|]. split; [exact EY|]. split; [exact EZ|]. split; [exact ET|].
    rewrite EX, EY, EZ, ET. apply both_1; ring.
  - split; [exact EX'|]. split; [exact EY'|]. split; [exact ET|]. split; [exact EZ|].
    rewrite EX', EY', EZ, ET. apply both_1; ring.
Qed.

(** ** The legacy operations *)

(** X16: [Sub] writes the value of [Add] of the first operand and the negation of
    the second, whatever the receiver aliases; [Neg] undoes itself. *)
Theorem Sub_is_Add_Neg (v p1 p2 : ptr) (h : Heap ExtendedGroupElement) :
  fst (ExtendedGroupElement_Sub D v p1 p2 h) = v /\
  load v (snd (ExtendedGroupElement_Sub D v p1 p2 h))
  = EGE_add D (load p1 h) (EGE_neg (load p2 h)) /\
  load v (snd (ExtendedGroupElement_Neg v v (snd (ExtendedGroupElement_Neg v p1 h))))
  = load p1 h /\
  forall q, q <> v -> load q (snd (ExtendedGroupElement_Sub D v p1 p2 h)) = load q h.
Proof.
  unfold ExtendedGroupElement_Sub, ExtendedGroupElement_Neg; cbn [fst snd].
  rewrite !load_store_same.
  split; [reflexivity|]. split; [|split].
  - destruct (load p1 h) as [X1 Y1 Z1 T1], (load p2 h) as [X2 Y2 Z2 T2].
    unfold EGE_sub, EGE_add, EGE_neg, twoD; cbn [EGE_X EGE_Y EGE_Z EGE_T].
    f_equal; ring.
  - destruct (load p1 h) as [X1 Y1 Z1 T1].
    unfold EGE_neg; cbn [EGE_X EGE_Y EGE_Z EGE_T]. f_equal; ring.
  - intros q Hq. apply load_store_other. exact Hq.
Qed.

(** X17: [Add] is commutative as a function on coordinate tuples, and the zero
    element is neutral up to [Equal], for any tuples at all. *)
Theorem Add_comm_and_Zero (p q : ExtendedGroupElement) :
  EGE_add D p q = EGE_add D q p /\
  ExtendedGroupElement_Equal (EGE_add D p EGE_zero) p = 1%Z /\
  ExtendedGroupElement_Equal (EGE_add D EGE_zero p) p = 1%Z /\
  ExtendedGroupElement_Equal (EGE_double EGE_zero) EGE_zero = 1%Z /\
  EGE_neg EGE_zero = EGE_zero.
Proof.
  destruct p as [X1 Y1 Z1 T1], q as [X2 Y2 Z2 T2].
  unfold ExtendedGroupElement_Equal, EGE_add, EGE_double, EGE_neg, EGE_zero, twoD, feSquare;
    cbn [EGE_X EGE_Y EGE_Z EGE_T].
  split; [f_equal; ring|].
  split; [apply both_1; ring|]. split; [apply both_1; ring|].
  split; [apply both_1; ring|]. f_equal; ring.
Qed.

(** X18: For an element holding a point of the curve, adding its negation gives
    the zero element up to [Equal]. *)
Theorem Add_Neg_is_Zero (p : ExtendedGroupElement) (P : F * F) :
  IsOnCurve D (fst P) (snd P) = true -> represents p P ->
  ExtendedGroupElement_Equal (EGE_add D p (EGE_neg p)) EGE_zero = 1%Z /\
  ExtendedGroupElement_Equal (EGE_sub D p p) EGE_zero = 1%Z.
Proof.
  intros HC (Nz & Ex & Ey & Et).
  assert (HP : onCurve D P) by (destruct P; apply IsOnCurve_spec; exact HC).
  destruct P as [x y], p as [X Y Z T].
  unfold onCurve in HP. cbn [fst snd EGE_X EGE_Y EGE_Z EGE_T] in *. subst X Y T.
  assert (C : y * y * (Z * Z) - x * x * (Z * Z) = Z * Z + D * (x * y * Z) * (x * y * Z)).
  { transitivity (Z * Z * (- (x * x) + y * y)); [ring|]. rewrite HP. ring. }
  unfold ExtendedGroupElement_Equal, EGE_add, EGE_sub, EGE_neg, EGE_zero, twoD;
    cbn [EGE_X EGE_Y EGE_Z EGE_T].
  split; apply both_1; try ring.
  - match goal with
    | |- ?G * ?H * 1 = 1 * (?F' * ?G) => assert (HF : H = F')
    end.
    { transitivity ((1 + 1) * (y * y * (Z * Z) - x * x * (Z * Z))); [ring|].
      rewrite C. ring. }
    rewrite HF. ring.
  - match goal with
    | |- ?G * ?H * 1 = 1 * (?F' * ?G) => assert (HF : H = F')
    end.
    { transitivity ((1 + 1) * (y * y * (Z * Z) - x * x * (Z * Z))); [ring|].
      rewrite C. ring. }
    rewrite HF. ring.
Qed.

Lemma Equal_cross (v u : ExtendedGroupElement) :
  ExtendedGroupElement_Equal v u = 1%Z <->
  EGE_X v * EGE_Z u = EGE_X u * EGE_Z v /\ EGE_Y v * EGE_Z u = EGE_Y u * EGE_Z v.
Proof.
  unfold ExtendedGroupElement_Equal; cbv zeta.
  rewrite (proj1 (land_bits _ _ (feEqual_01 _ _) (feEqual_01 _ _))).
  now rewrite !feEqual_1.
Qed.

Lemma Equal_01 (v u : ExtendedGroupElement) :
  ExtendedGroupElement_Equal v u = 0%Z \/ ExtendedGroupElement_Equal v u = 1%Z.
Proof.
  unfold ExtendedGroupElement_Equal; cbv zeta.
  apply (land_bits _ _ (feEqual_01 _ _) (feEqual_01 _ _)).
Qed.

(** X19: [Equal] is reflexive and symmetric on all tuples, and transitive when
    the middle element has a nonzero [Z]; it does not read [T]. *)
Theorem Equal_equivalence (u v w : ExtendedGroupElement) (t : F) :
  ExtendedGroupElement_Equal u u = 1%Z /\
  ExtendedGroupElement_Equal u v = ExtendedGroupElement_Equal v u /\
  (EGE_Z v <> 0 ->
   ExtendedGroupElement_Equal u v = 1%Z -> ExtendedGroupElement_Equal v w = 1%Z ->
   ExtendedGroupElement_Equal u w = 1%Z) /\
  ExtendedGroupElement_Equal
    (mkExtendedGroupElement (EGE_X u) (EGE_Y u) (EGE_Z u) t) v
  = ExtendedGroupElement_Equal u v.
Proof.
  destruct u as [X1 Y1 Z1 T1], v as [X2 Y2 Z2 T2], w as [X3 Y3 Z3 T3].
  cbn [EGE_X EGE_Y EGE_Z EGE_T].
  pose proof Equal_cross as E.
  split; [apply E; cbn [EGE_X EGE_Y EGE_Z EGE_T]; split; ring|].
  split.
  - pose proof (E (mkExtendedGroupElement X1 Y1 Z1 T1) (mkExtendedGroupElement X2 Y2 Z2 T2)) as A.
    pose proof (E (mkExtendedGroupElement X2 Y2 Z2 T2) (mkExtendedGroupElement X1 Y1 Z1 T1)) as B.
    cbn [EGE_X EGE_Y EGE_Z EGE_T] in A, B.
    destruct (Equal_01 (mkExtendedGroupElement X1 Y1 Z1 T1) (mkExtendedGroupElement X2 Y2 Z2 T2))
      as [Z|Z];
    destruct (Equal_01 (mkExtendedGroupElement X2 Y2 Z2 T2) (mkExtendedGroupElement X1 Y1 Z1 T1))
      as [Z'|Z']; rewrite Z, Z' in *; try reflexivity; exfalso.
    + destruct (proj1 B eq_refl) as [H1 H2].
      assert (H : 0%Z = 1%Z) by (apply A; split; symmetry; assumption). discriminate.
    + destruct (proj1 A eq_refl) as [H1 H2].
      assert (H : 0%Z = 1%Z) by (apply B; split; symmetry; assumption). discriminate.
  - split; [|reflexivity].
    intros N H12 H23. apply E in H12, H23. apply E.
    cbn [EGE_X EGE_Y EGE_Z EGE_T] in *.
    destruct H12 as [A1 A2], H23 as [B1 B2]. split.
    + assert (H : Z2 * (X1 * Z3 - X3 * Z1) = 0).
      { transitivity (Z3 * (X1 * Z2) - Z1 * (X2 * Z3)); [rewrite B1; ring|].
        rewrite A1. ring. }
      destruct (fe_integral _ _ H) as [|H']; [contradiction|].
      transitivity (X1 * Z3 - X3 * Z1 + X3 * Z1); [ring|]. rewrite H'. ring.
    + assert (H : Z2 * (Y1 * Z3 - Y3 * Z1) = 0).
      { transitivity (Z3 * (Y1 * Z2) - Z1 * (Y2 * Z3)); [rewrite B2; ring|].
        rewrite A2. ring. }
      destruct (fe_integral _ _ H) as [|H']; [contradiction|].
      transitivity (Y1 * Z3 - Y3 * Z1 + Y3 * Z1); [ring|]. rewrite H'. ring.
Qed.

(** X20: [IsOnCurve] accepts exactly the solutions of
    [-x^2 + y^2 = 1 + d x^2 y^2]: among them the neutral point [(0, 1)] and
    the point [(0, -1)], and with [(x, y)] also [(-x, y)] and [(x, -y)]. *)
Theorem IsOnCurve_solutions (x y : F) :
  (IsOnCurve D x y = true <-> - (x * x) + y * y = 1 + D * (x * x) * (y * y)) /\
  IsOnCurve D 0 1 = true /\
  IsOnCurve D 0 (- (1)) = true /\
  IsOnCurve D (- x) y = IsOnCurve D x y /\
  IsOnCurve D x (- y) = IsOnCurve D x y.
Proof.
  assert (S : forall a b, IsOnCurve D a b = true <->
                          - (a * a) + b * b = 1 + D * (a * a) * (b * b)).
  { intros a b. rewrite IsOnCurve_spec. unfold onCurve; cbn [fst snd]. reflexivity. }
  assert (B : forall a b a' b',
             - (a' * a') + b' * b' = - (a * a) + b * b ->
             1 + D * (a' * a') * (b' * b') = 1 + D * (a * a) * (b * b) ->
             IsOnCurve D a' b' = IsOnCurve D a b).
  { intros a b a' b' H1 H2.
    destruct (IsOnCurve D a b) eqn:E.
    - apply S. apply S in E. rewrite H1, H2. exact E.
    - destruct (IsOnCurve D a' b') eqn:E'; [|reflexivity].
      apply S in E'. rewrite H1, H2 in E'. apply S in E'. congruence. }
  split; [apply S|].
  split; [apply S; ring|]. split; [apply S; ring|].
  split; apply B; ring.
Qed.

End CurveMore.

(** ** The group operations on points of the curve *)

Section CurveGroup.
Context {F : Type} {FE : FieldElement F}.
Variable D : F.

Local Notation "0" := feZero : fe_scope.
Local Notation "1" := feOne : fe_scope.
Local Infix "+" := feAdd : fe_scope.
Local Infix "-" := feSub : fe_scope.
Local Infix "*" := feMul : fe_scope.
Local Notation "- x" := (feNeg x) : fe_scope.
Local Notation "x / y" := (feMul x (feInvert y)) : fe_scope.
Local Open Scope fe_scope.

Add Field fe_fld_group : (@fe_field_div F FE).

Hypothesis two_nonzero : 1 + 1 <> 0.
Hypothesis sqrt_minus_one : exists i : F, i * i = - (1).
Hypothesis D_nonsquare : forall x : F, x * x <> D.

Lemma cplus (x1 y1 x2 y2 : F) :
  onCurve D (x1, y1) -> onCurve D (x2, y2) -> 1 + D * x1 * x2 * y1 * y2 <> 0.
Proof. apply complete_plus; assumption. Qed.

Lemma cminus (x1 y1 x2 y2 : F) :
  onCurve D (x1, y1) -> onCurve D (x2, y2) -> 1 - D * x1 * x2 * y1 * y2 <> 0.
Proof. apply complete_minus; assumption. Qed.

Lemma represents_invariants (p : ExtendedGroupElement) (P : F * F) :
  onCurve D P -> represents p P ->
  EGE_Z p <> 0 /\
  EGE_T p * EGE_Z p = EGE_X p * EGE_Y p /\
  IsOnCurve D (EGE_X p / EGE_Z p) (EGE_Y p / EGE_Z p) = true.
Proof.
  intros HP (Nz & Ex & Ey & Et). split; [exact Nz|]. split.
  - rewrite Ex, Ey, Et. ring.
  - replace (EGE_X p / EGE_Z p) with (fst P) by (rewrite Ex; field; exact Nz).
    replace (EGE_Y p / EGE_Z p) with (snd P) by (rewrite Ey; field; exact Nz).
    apply IsOnCurve_spec. destruct P. exact HP.
Qed.

Lemma EGE_neg_represents (p : ExtendedGroupElement) (P : F * F) :
  represents p P -> represents (EGE_neg p) (eneg P).
Proof.
  intros (Nz & Ex & Ey & Et). unfold represents, EGE_neg, eneg;
    cbn [EGE_X EGE_Y EGE_Z EGE_T fst snd].
  rewrite Ex, Et. repeat split; try ring; assumption.
Qed.

Lemma EGE_sub_add_neg (p q : ExtendedGroupElement) :
  EGE_sub D p q = EGE_add D p (EGE_neg q).
Proof.
  destruct p as [X1 Y1 Z1 T1], q as [X2 Y2 Z2 T2].
  unfold EGE_sub, EGE_add, EGE_neg, twoD; cbn [EGE_X EGE_Y EGE_Z EGE_T].
  f_equal; ring.
Qed.

(** X21: [Add], [Sub], [Double] and [Neg] on elements holding points [P] and [Q]
    of the curve give elements holding [P + Q], [P - Q], [P + P] and [-P];
    each result has a nonzero [Z], satisfies [T Z = X Y], and its affine
    coordinates [X/Z], [Y/Z] pass [IsOnCurve]. *)
Theorem legacy_operations_on_curve (p q : ExtendedGroupElement) (P Q : F * F) :
  IsOnCurve D (fst P) (snd P) = true -> IsOnCurve D (fst Q) (snd Q) = true ->
  represents p P -> represents q Q ->
  let good (r : ExtendedGroupElement) (R : F * F) :=
    represents r R /\ EGE_Z r <> 0 /\ EGE_T r * EGE_Z r = EGE_X r * EGE_Y r /\
    IsOnCurve D (EGE_X r / EGE_Z r) (EGE_Y r / EGE_Z r) = true in
  good (EGE_add D p q) (eadd D P Q) /\
  good (EGE_sub D p q) (eadd D P (eneg Q)) /\
  good (EGE_double p) (eadd D P P) /\
  good (EGE_neg p) (eneg P).
Proof.
  intros CP CQ RP RQ good.
  assert (HP : onCurve D P) by (destruct P; apply IsOnCurve_spec; exact CP).
  assert (HQ : onCurve D Q) by (destruct Q; apply IsOnCurve_spec; exact CQ).
  pose proof (onCurve_eneg D Q HQ) as HnQ.
  pose proof (onCurve_eneg D P HP) as HnP.
  assert (G : forall r R, onCurve D R -> represents r R -> good r R).
  { intros r R HR Rr. subst good. cbv beta. split; [exact Rr|].
    apply (represents_invariants r R); assumption. }
  split; [|split; [|split]]; apply G.
  - apply eadd_onCurve; assumption.
  - apply EGE_add_represents; assumption.
  - apply eadd_onCurve; assumption.
  - rewrite EGE_sub_add_neg. apply EGE_add_represents; try assumption.
    apply EGE_neg_represents. exact RQ.
  - apply eadd_onCurve; assumption.
  - apply EGE_double_represents; assumption.
  - exact HnP.
  - apply EGE_neg_represents. exact RP.
Qed.

(** X22: [Add] is associative up to [Equal] on elements holding points of the
    curve. *)
Theorem Add_associative (p q r : ExtendedGroupElement) (P Q R : F * F) :
  IsOnCurve D (fst P) (snd P) = true -> IsOnCurve D (fst Q) (snd Q) = true ->
  IsOnCurve D (fst R) (snd R) = true ->
  represents p P -> represents q Q -> represents r R ->
  ExtendedGroupElement_Equal (EGE_add D (EGE_add D p q) r) (EGE_add D p (EGE_add D q r)) = 1%Z.
Proof.
  intros CP CQ CR RP RQ RR.
  assert (HP : onCurve D P) by (destruct P; apply IsOnCurve_spec; exact CP).
  assert (HQ : onCurve D Q) by (destruct Q; apply IsOnCurve_spec; exact CQ).
  assert (HR : onCurve D R) by (destruct R; apply IsOnCurve_spec; exact CR).
  apply (represents_Equal _ _ (eadd D (eadd D P Q) R)).
  - apply EGE_add_represents; try assumption.
    + apply eadd_onCurve; assumption.
    + apply EGE_add_represents; assumption.
  - rewrite eadd_assoc by assumption.
    apply EGE_add_represents; try assumption.
    + apply eadd_onCurve; assumption.
    + apply EGE_add_represents; assumption.
Qed.

(** *** The new point types *)

Lemma ProjP1xP1_Add_represents (p q : ProjP3) (P Q : F * F) :
  onCurve D P -> onCurve D Q -> represents3 p P -> represents3 q Q ->
  represents_completed (ProjP1xP1_Add p (ProjCached_FromP3 D q)) (eadd D P Q).
Proof.
  destruct P as [x1 y1], Q as [x2 y2], p as [X1 Y1 Z1 T1], q as [X2 Y2 Z2 T2].
  intros H1 H2 (Nz1 & Ex1 & Ey1 & Et1) (Nz2 & Ex2 & Ey2 & Et2).
  pose proof (cplus _ _ _ _ H1 H2) as Np.
  pose proof (cminus _ _ _ _ H1 H2) as Nm.
  cbn [fst snd P3_X P3_Y P3_Z P3_T] in *. subst X1 Y1 T1 X2 Y2 T2.
  unfold represents_completed, ProjP1xP1_Add, ProjCached_FromP3, twoD, eadd;
    cbn [fst snd P3_X P3_Y P3_Z P3_T PC_YplusX PC_YminusX PC_Z PC_T2d
         P1xP1_X P1xP1_Y P1xP1_Z P1xP1_T].
  assert (EZ : Z1 * Z2 + Z1 * Z2 + x1 * y1 * Z1 * (x2 * y2 * Z2 * (D + D))
               = (1 + 1) * Z1 * Z2 * (1 + D * x1 * x2 * y1 * y2)) by ring.
  assert (ET : Z1 * Z2 + Z1 * Z2 - x1 * y1 * Z1 * (x2 * y2 * Z2 * (D + D))
               = (1 + 1) * Z1 * Z2 * (1 - D * x1 * x2 * y1 * y2)) by ring.
  rewrite EZ, ET.
  split; [repeat apply fe_mul_nonzero; assumption|].
  split; [repeat apply fe_mul_nonzero; assumption|].
  split; field; assumption.
Qed.

Lemma ProjP3_FromP1xP1_represents (c : ProjP1xP1) (P : F * F) :
  represents_completed c P -> represents3 (ProjP3_FromP1xP1 c) P.
Proof.
  destruct c as [X Y Z T], P as [x y]. intros (Nz & Nt & Ex & Ey).
  cbn [fst snd P1xP1_X P1xP1_Y P1xP1_Z P1xP1_T] in *. subst X Y.
  unfold represents3, ProjP3_FromP1xP1;
    cbn [fst snd P3_X P3_Y P3_Z P3_T P1xP1_X P1xP1_Y P1xP1_Z P1xP1_T].
  split; [apply fe_mul_nonzero; assumption|]. repeat split; ring.
Qed.

Lemma ProjP3_Neg_represents (q : ProjP3) (Q : F * F) :
  represents3 q Q -> represents3 (ProjP3_Neg q) (eneg Q).
Proof.
  intros (Nz & Ex & Ey & Et). unfold represents3, ProjP3_Neg, eneg;
    cbn [P3_X P3_Y P3_Z P3_T fst snd].
  rewrite Ex, Et. repeat split; try ring; assumption.
Qed.

Lemma ProjP3_Sub_Add_Neg (p q : ProjP3) :
  ProjP3_Sub D p q = ProjP3_Add D p (ProjP3_Neg q).
Proof.
  destruct p as [X1 Y1 Z1 T1], q as [X2 Y2 Z2 T2].
  unfold ProjP3_Sub, ProjP3_Add, ProjP3_Neg, ProjP1xP1_Sub, ProjP1xP1_Add, ProjCached_FromP3,
    ProjP3_FromP1xP1, twoD;
    cbn [P3_X P3_Y P3_Z P3_T PC_YplusX PC_YminusX PC_Z PC_T2d
         P1xP1_X P1xP1_Y P1xP1_Z P1xP1_T].
  f_equal; ring.
Qed.

(** X23: [ProjP3.Add] and [ProjP3.Sub] of elements holding points [P] and [Q] of
    the curve give extended coordinates of [P + Q] and [P - Q]; the completed
    result of [ProjP1xP1.Add] has nonzero [Z] and [T], and [X/Z], [Y/T] are
    the coordinates of [P + Q]. *)
Theorem ProjP3_Add_correct (p q : ProjP3) (P Q : F * F) :
  IsOnCurve D (fst P) (snd P) = true -> IsOnCurve D (fst Q) (snd Q) = true ->
  represents3 p P -> represents3 q Q ->
  represents_completed (ProjP1xP1_Add p (ProjCached_FromP3 D q)) (eadd D P Q) /\
  represents3 (ProjP3_Add D p q) (eadd D P Q) /\
  represents3 (ProjP3_Sub D p q) (eadd D P (eneg Q)) /\
  IsOnCurve D (fst (eadd D P Q)) (snd (eadd D P Q)) = true /\
  IsOnCurve D (fst (eadd D P (eneg Q))) (snd (eadd D P (eneg Q))) = true.
Proof.
  intros CP CQ RP RQ.
  assert (HP : onCurve D P) by (destruct P; apply IsOnCurve_spec; exact CP).
  assert (HQ : onCurve D Q) by (destruct Q; apply IsOnCurve_spec; exact CQ).
  pose proof (onCurve_eneg D Q HQ) as HnQ.
  pose proof (ProjP1xP1_Add_represents p q P Q HP HQ RP RQ) as A.
  split; [exact A|]. split; [|split; [|split]].
  - unfold ProjP3_Add; cbv zeta. apply ProjP3_FromP1xP1_represents. exact A.
  - rewrite ProjP3_Sub_Add_Neg. unfold ProjP3_Add; cbv zeta.
    apply ProjP3_FromP1xP1_represents, ProjP1xP1_Add_represents; try assumption.
    apply ProjP3_Neg_represents. exact RQ.
  - pose proof (eadd_onCurve D two_nonzero sqrt_minus_one D_nonsquare P Q HP HQ) as H.
    destruct (eadd D P Q). apply IsOnCurve_spec. exact H.
  - pose proof (eadd_onCurve D two_nonzero sqrt_minus_one D_nonsquare P (eneg Q) HP HnQ) as H.
    destruct (eadd D P (eneg Q)). apply IsOnCurve_spec. exact H.
Qed.

(** X24: [DoubleZ1] on projective coordinates [(x, y, 1)] of a point of the curve
    returns projective coordinates, with nonzero [Z], of the double of the
    point. *)
Theorem DoubleZ1_correct (u : ProjectiveGroupElement) :
  PGE_Z u = 1 -> IsOnCurve D (PGE_X u) (PGE_Y u) = true ->
  exists r,
    ProjectiveGroupElement_DoubleZ1 u = Ok r /\
    PGE_Z r <> 0 /\
    PGE_X r / PGE_Z r = fst (eadd D (PGE_X u, PGE_Y u) (PGE_X u, PGE_Y u)) /\
    PGE_Y r / PGE_Z r = snd (eadd D (PGE_X u, PGE_Y u) (PGE_X u, PGE_Y u)) /\
    IsOnCurve D (PGE_X r / PGE_Z r) (PGE_Y r / PGE_Z r) = true.
Proof.
  destruct u as [x y z]; cbn [PGE_X PGE_Y PGE_Z]. intros -> HC.
  assert (HP : onCurve D (x, y)) by (apply IsOnCurve_spec; exact HC).
  pose proof (cplus _ _ _ _ HP HP) as Np.
  pose proof (cminus _ _ _ _ HP HP) as Nm.
  pose proof (eadd_onCurve D two_nonzero sqrt_minus_one D_nonsquare _ _ HP HP) as H2.
  unfold ProjectiveGroupElement_DoubleZ1; cbn [PGE_X PGE_Y PGE_Z].
  destruct (feEqual_spec 1 1) as [[_ ->]|[N _]]; [|exfalso; apply N; reflexivity].
  cbn [Z.eqb Pos.eqb negb].
  eexists. split; [reflexivity|]. cbn [PGE_X PGE_Y PGE_Z].
  unfold onCurve in HP; cbn [fst snd] in HP.
  unfold feSquare, feTwo.
  assert (EF : - (x * x) + y * y = 1 + D * x * x * y * y) by (rewrite HP; ring).
  rewrite !EF.
  assert (EZ : (1 + D * x * x * y * y) * (1 + D * x * x * y * y)
               - (1 + D * x * x * y * y) - (1 + D * x * x * y * y)
               = - ((1 + D * x * x * y * y) * (1 - D * x * x * y * y))) by ring.
  rewrite EZ.
  assert (Nz : - ((1 + D * x * x * y * y) * (1 - D * x * x * y * y)) <> 0).
  { intros E. apply (fe_mul_nonzero _ _ Np Nm).
    transitivity (- - ((1 + D * x * x * y * y) * (1 - D * x * x * y * y))); [ring|].
    rewrite E. ring. }
  assert (EX : ((x + y) * (x + y) - x * x - y * y) * (1 + D * x * x * y * y - (1 + 1))
               / - ((1 + D * x * x * y * y) * (1 - D * x * x * y * y))
               = fst (eadd D (x, y) (x, y))).
  { cbn [eadd fst]. field. split; assumption. }
  assert (EY : (1 + D * x * x * y * y) * (- (x * x) - y * y)
               / - ((1 + D * x * x * y * y) * (1 - D * x * x * y * y))
               = snd (eadd D (x, y) (x, y))).
  { cbn [eadd snd]. field. split; assumption. }
  split; [exact Nz|]. split; [exact EX|]. split; [exact EY|].
  rewrite EX, EY. destruct (eadd D (x, y) (x, y)). apply IsOnCurve_spec. exact H2.
Qed.

(** *** Scalar multiplication is additive in the scalar *)

Lemma ScalarMult_represents (v u : ptr) (k : list byte)
    (h : Heap ExtendedGroupElement) (P : F * F) :
  (v < next h)%nat -> (u < next h)%nat -> length k = 32%nat ->
  onCurve D P -> represents (load u h) P ->
  represents (load v (snd (ExtendedGroupElement_ScalarMult D v u k h)))
             (emul D (Z.to_nat (le_combine k)) P).
Proof.
  intros Hv Hu L HP HR.
  unfold ExtendedGroupElement_ScalarMult, new, ExtendedGroupElement_Set,
    ExtendedGroupElement_Zero; cbn [snd].
  set (h1 := mkHeap (S (next h))
               (fun q => if Nat.eqb q (next h) then EGE_new else cell h q)).
  set (h3 := store v EGE_zero (store (next h) (load u h1) h1)).
  assert (Hne : v <> next h) by lia.
  assert (Lu : load u h1 = load u h).
  { unfold load, h1; cbn. destruct (Nat.eqb_spec u (next h)); [lia|reflexivity]. }
  assert (I0 : ladder_inv D v (next h) P h h3
                 (Z.to_nat (le_combine k / 2 ^ Z.of_nat 256))).
  { pose proof (le_combine_lt k) as Hk. rewrite L in Hk.
    rewrite Z.div_small by exact Hk. change (Z.to_nat 0%Z) with 0%nat.
    unfold h3. split; [|split].
    - rewrite load_store_same. apply EGE_zero_represents.
    - rewrite load_store_other, load_store_same by (intro; apply Hne; congruence).
      rewrite Lu, emul_1. exact HR.
    - intros q Q0 Q1. rewrite !load_store_other by assumption.
      unfold load, h1; cbn. destruct (Nat.eqb_spec q (next h)); [contradiction|reflexivity]. }
  pose proof (ladder_loop D two_nonzero sqrt_minus_one D_nonsquare v (next h) P k h Hne HP L
                256 h3 (le_n _) I0) as (R0 & _ & _).
  exact R0.
Qed.

(** X25: For scalars with [k3 = k1 + k2] as integers, [ScalarMult] by [k3] gives
    the element that [Add] gives on the results of [ScalarMult] by [k1] and
    by [k2], up to [Equal]; and [ScalarMult] by the scalar 0 gives the zero
    element up to [Equal]. *)
Theorem ScalarMult_additive (v u : ptr) (k1 k2 k3 : list byte)
    (h : Heap ExtendedGroupElement) (P : F * F) :
  (v < next h)%nat -> (u < next h)%nat ->
  length k1 = 32%nat -> length k2 = 32%nat -> length k3 = 32%nat ->
  IsOnCurve D (fst P) (snd P) = true -> represents (load u h) P ->
  le_combine k3 = (le_combine k1 + le_combine k2)%Z ->
  let result k := load v (snd (ExtendedGroupElement_ScalarMult D v u k h)) in
  ExtendedGroupElement_Equal (result k3) (EGE_add D (result k1) (result k2)) = 1%Z /\
  ExtendedGroupElement_Equal (result (repeat Byte.x00 32)) EGE_zero = 1%Z.
Proof.
  intros Hv Hu L1 L2 L3 HC HR E result.
  assert (HP : onCurve D P) by (destruct P; apply IsOnCurve_spec; exact HC).
  pose proof (ScalarMult_represents v u k1 h P Hv Hu L1 HP HR) as R1.
  pose proof (ScalarMult_represents v u k2 h P Hv Hu L2 HP HR) as R2.
  pose proof (ScalarMult_represents v u k3 h P Hv Hu L3 HP HR) as R3.
  pose proof (ScalarMult_represents v u (repeat Byte.x00 32) h P Hv Hu eq_refl HP HR) as R0.
  split.
  - apply (represents_Equal _ _ _ R3).
    rewrite E, Z2Nat.inj_add by apply le_combine_lt.
    rewrite emul_add by assumption.
    apply EGE_add_represents; try assumption; apply emul_onCurve; assumption.
  - apply (represents_Equal _ _ _ R0).
    change (le_combine (repeat Byte.x00 32)) with (le_combine (repeat Byte.x00 32 ++ nil)).
    rewrite app_nil_r.
    replace (le_combine (repeat Byte.x00 32)) with 0%Z.
    + apply EGE_zero_represents.
    + symmetry. rewrite <- (app_nil_l (repeat Byte.x00 32)). apply le_combine_app_0.
Qed.

End CurveGroup.

(** ** The further properties at the curve over the integers modulo 13 *)

Module Examples13.
Import Stdlib.Zmod.Zmod.

Definition el (n : Z) : Zmod 13 := Zmod.of_Z 13 n.

(** The point [(2, 4)] in the coordinate systems of the source. *)
Definition p3 : @ProjP3 (Zmod 13) := mkProjP3 (el 2) (el 4) (el 1) (el 8).
Definition ege : @ExtendedGroupElement (Zmod 13) :=
  mkExtendedGroupElement (el 2) (el 4) (el 1) (el 8).
Definition pge : @ProjectiveGroupElement (Zmod 13) :=
  mkProjectiveGroupElement (el 2) (el 4) (el 1).
Definition completed : @ProjP1xP1 (Zmod 13) := mkProjP1xP1 (el 2) (el 4) (el 1) (el 3).

Lemma represents3_p3 : @represents3 _ Field13.FE13 p3 Field13.point13.
Proof.
  split; [apply Field13.Zmod13_neq; reflexivity|].
  repeat split; apply Zmod.to_Z_inj; reflexivity.
Qed.

Lemma represents_ege : @represents _ Field13.FE13 ege Field13.point13.
Proof.
  split; [apply Field13.Zmod13_neq; reflexivity|].
  repeat split; apply Zmod.to_Z_inj; reflexivity.
Qed.

Lemma one_nonzero : el 1 <> @feZero _ Field13.FE13.
Proof. apply Field13.Zmod13_neq. reflexivity. Qed.

Lemma three_nonzero : el 3 <> @feZero _ Field13.FE13.
Proof. apply Field13.Zmod13_neq. reflexivity. Qed.

Lemma pge_Z_one : PGE_Z pge = @feOne _ Field13.FE13.
Proof. apply Zmod.to_Z_inj. reflexivity. Qed.

End Examples13.

Lemma FromP1xP1_keeps_point_witness :
  let FE := Field13.FE13 in
  let c := Examples13.completed in
  let p3 := ProjP3_FromP1xP1 c in
  (P1xP1_Z c <> feZero /\ P1xP1_T c <> feZero) /\
  P3_Z p3 <> feZero /\
  feMul (P3_X p3) (feInvert (P3_Z p3)) = feMul (P1xP1_X c) (feInvert (P1xP1_Z c)) /\
  feMul (P3_Y p3) (feInvert (P3_Z p3)) = feMul (P1xP1_Y c) (feInvert (P1xP1_T c)) /\
  feMul (P3_T p3) (P3_Z p3) = feMul (P3_X p3) (P3_Y p3) /\
  ProjP2_FromP1xP1 c = ProjP2_FromP3 p3.
Proof.
  intros FE c p3.
  split; [split; [exact Examples13.one_nonzero|exact Examples13.three_nonzero]|].
  exact (@FromP1xP1_keeps_point _ Field13.FE13 Examples13.completed
           Examples13.one_nonzero Examples13.three_nonzero).
Defined.

Lemma AddAffine_agrees_with_Add_witness :
  let FE := Field13.FE13 in
  let D := Field13.D13 in
  let p := Examples13.p3 in
  let q := Examples13.p3 in
  let a := ProjP1xP1_Add p (ProjCached_FromP3 D q) in
  let m := ProjP1xP1_AddAffine p (AffineCached_FromP3 D q) in
  let a' := ProjP1xP1_Sub p (ProjCached_FromP3 D q) in
  let m' := ProjP1xP1_SubAffine p (AffineCached_FromP3 D q) in
  P3_Z q <> feZero /\
  (P1xP1_X a = feMul (P3_Z q) (P1xP1_X m) /\ P1xP1_Y a = feMul (P3_Z q) (P1xP1_Y m) /\
   P1xP1_Z a = feMul (P3_Z q) (P1xP1_Z m) /\ P1xP1_T a = feMul (P3_Z q) (P1xP1_T m) /\
   ProjP3_Equal (ProjP3_FromP1xP1 m) (ProjP3_FromP1xP1 a) = 1) /\
  (P1xP1_X a' = feMul (P3_Z q) (P1xP1_X m') /\ P1xP1_Y a' = feMul (P3_Z q) (P1xP1_Y m') /\
   P1xP1_Z a' = feMul (P3_Z q) (P1xP1_Z m') /\ P1xP1_T a' = feMul (P3_Z q) (P1xP1_T m') /\
   ProjP3_Equal (ProjP3_FromP1xP1 m') (ProjP3_FromP1xP1 a') = 1).
Proof.
  intros FE D p q.
  split; [exact Examples13.one_nonzero|].
  exact (@AddAffine_agrees_with_Add _ Field13.FE13 Field13.D13 Examples13.p3 Examples13.p3
           Examples13.one_nonzero).
Defined.

Lemma Add_Neg_is_Zero_witness :
  let FE := Field13.FE13 in
  let D := Field13.D13 in
  let p := Examples13.ege in
  let P := Field13.point13 in
  (IsOnCurve D (fst P) (snd P) = true /\ represents p P) /\
  ExtendedGroupElement_Equal (EGE_add D p (EGE_neg p)) EGE_zero = 1 /\
  ExtendedGroupElement_Equal (EGE_sub D p p) EGE_zero = 1.
Proof.
  intros FE D p P.
  split; [split; [reflexivity|exact Examples13.represents_ege]|].
  exact (@Add_Neg_is_Zero _ Field13.FE13 Field13.D13 Examples13.ege Field13.point13
           eq_refl Examples13.represents_ege).
Defined.

Lemma legacy_operations_on_curve_witness :
  let FE := Field13.FE13 in
  let D := Field13.D13 in
  let p := Examples13.ege in
  let P := Field13.point13 in
  let good (r : ExtendedGroupElement) (R : _ * _) :=
    represents r R /\ EGE_Z r <> feZero /\
    feMul (EGE_T r) (EGE_Z r) = feMul (EGE_X r) (EGE_Y r) /\
    IsOnCurve D (feMul (EGE_X r) (feInvert (EGE_Z r)))
                (feMul (EGE_Y r) (feInvert (EGE_Z r))) = true in
  (IsOnCurve D (fst P) (snd P) = true /\ represents p P) /\
  good (EGE_add D p p) (eadd D P P) /\
  good (EGE_sub D p p) (eadd D P (eneg P)) /\
  good (EGE_double p) (eadd D P P) /\
  good (EGE_neg p) (eneg P).
Proof.
  intros FE D p P good.
  split; [split; [reflexivity|exact Examples13.represents_ege]|].
  exact (@legacy_operations_on_curve _ Field13.FE13 Field13.D13 Field13.two_nonzero_13
           Field13.sqrt_minus_one_13 Field13.D_nonsquare_13
           Examples13.ege Examples13.ege Field13.point13 Field13.point13
           eq_refl eq_refl Examples13.represents_ege Examples13.represents_ege).
Defined.

Lemma Add_associative_witness :
  let FE := Field13.FE13 in
  let D := Field13.D13 in
  let p := Examples13.ege in
  let P := Field13.point13 in
  (IsOnCurve D (fst P) (snd P) = true /\ represents p P) /\
  ExtendedGroupElement_Equal (EGE_add D (EGE_add D p p) p) (EGE_add D p (EGE_add D p p)) = 1.
Proof.
  intros FE D p P.
  split; [split; [reflexivity|exact Examples13.represents_ege]|].
  exact (@Add_associative _ Field13.FE13 Field13.D13 Field13.two_nonzero_13
           Field13.sqrt_minus_one_13 Field13.D_nonsquare_13
           Examples13.ege Examples13.ege Examples13.ege
           Field13.point13 Field13.point13 Field13.point13
           eq_refl eq_refl eq_refl
           Examples13.represents_ege Examples13.represents_ege Examples13.represents_ege).
Defined.

Lemma ProjP3_Add_correct_witness :
  let FE := Field13.FE13 in
  let D := Field13.D13 in
  let p := Examples13.p3 in
  let P := Field13.point13 in
  (IsOnCurve D (fst P) (snd P) = true /\ represents3 p P) /\
  represents_completed (ProjP1xP1_Add p (ProjCached_FromP3 D p)) (eadd D P P) /\
  represents3 (ProjP3_Add D p p) (eadd D P P) /\
  represents3 (ProjP3_Sub D p p) (eadd D P (eneg P)) /\
  IsOnCurve D (fst (eadd D P P)) (snd (eadd D P P)) = true /\
  IsOnCurve D (fst (eadd D P (eneg P))) (snd (eadd D P (eneg P))) = true.
Proof.
  intros FE D p P.
  split; [split; [reflexivity|exact Examples13.represents3_p3]|].
  exact (@ProjP3_Add_correct _ Field13.FE13 Field13.D13 Field13.two_nonzero_13
           Field13.sqrt_minus_one_13 Field13.D_nonsquare_13
           Examples13.p3 Examples13.p3 Field13.point13 Field13.point13
           eq_refl eq_refl Examples13.represents3_p3 Examples13.represents3_p3).
Defined.

Lemma DoubleZ1_correct_witness :
  let FE := Field13.FE13 in
  let D := Field13.D13 in
  let u := Examples13.pge in
  (PGE_Z u = feOne /\ IsOnCurve D (PGE_X u) (PGE_Y u) = true) /\
  exists r,
    ProjectiveGroupElement_DoubleZ1 u = Ok r /\
    PGE_Z r <> feZero /\
    feMul (PGE_X r) (feInvert (PGE_Z r))
    = fst (eadd D (PGE_X u, PGE_Y u) (PGE_X u, PGE_Y u)) /\
    feMul (PGE_Y r) (feInvert (PGE_Z r))
    = snd (eadd D (PGE_X u, PGE_Y u) (PGE_X u, PGE_Y u)) /\
    IsOnCurve D (feMul (PGE_X r) (feInvert (PGE_Z r)))
                (feMul (PGE_Y r) (feInvert (PGE_Z r))) = true.
Proof.
  intros FE D u.
  split; [split; [exact Examples13.pge_Z_one|reflexivity]|].
  exact (@DoubleZ1_correct _ Field13.FE13 Field13.D13 Field13.two_nonzero_13
           Field13.sqrt_minus_one_13 Field13.D_nonsquare_13
           Examples13.pge Examples13.pge_Z_one eq_refl).
Defined.

(** The scalars 5, 6 and 11. *)
Definition scalar5 : list byte := Byte.x05 :: repeat Byte.x00 31.
Definition scalar6 : list byte := Byte.x06 :: repeat Byte.x00 31.

Lemma ScalarMult_additive_witness :
  let FE := Field13.FE13 in
  let D := Field13.D13 in
  let h := Field13.heap13 in
  let P := Field13.point13 in
  let result k := load 0%nat (snd (ExtendedGroupElement_ScalarMult D 0%nat 0%nat k h)) in
  ((0 < next h)%nat /\ length scalar5 = 32%nat /\ length scalar6 = 32%nat /\
   length scalar13 = 32%nat /\ IsOnCurve D (fst P) (snd P) = true /\
   represents (load 0%nat h) P /\
   le_combine scalar13 = le_combine scalar5 + le_combine scalar6) /\
  ExtendedGroupElement_Equal (result scalar13) (EGE_add D (result scalar5) (result scalar6)) = 1 /\
  ExtendedGroupElement_Equal (result (repeat Byte.x00 32)) EGE_zero = 1.
Proof.
  intros FE D h P result.
  split.
  { split; [apply Nat.lt_0_succ|]. do 4 (split; [reflexivity|]).
    split; [exact Field13.represents_13|reflexivity]. }
  exact (@ScalarMult_additive _ Field13.FE13 Field13.D13 Field13.two_nonzero_13
           Field13.sqrt_minus_one_13 Field13.D_nonsquare_13
           0%nat 0%nat scalar5 scalar6 scalar13 Field13.heap13 Field13.point13
           (Nat.lt_0_succ 0) (Nat.lt_0_succ 0) eq_refl eq_refl eq_refl eq_refl
           Field13.represents_13 eq_refl).
Defined.
